(** * License token system: codec, policy and issuer

    A shallow embedding of [backend/licence_management] (models.py, views.py,
    serializers.py) and the properties stated for it.

    Conventions.
    - Python [bytes] and Python [str] are both lists of [ascii]; for [str]
      every element is one code point below 256.
    - Python [int] is [Z]; [Optional[T]] is [option T]; a [dict] is an
      association list in insertion order.
    - A [datetime] is aware and is a number of microseconds since the
      epoch; its [timestamp()] and [time.time()] are the [float] nearest to
      that number of seconds, [int(...)] of which is [int_seconds]: the
      whole seconds until the year 2514, possibly the next second after.
    - Exceptions are error values; [raise] is [Err], and the enclosing
      [try/except] of the source is written out where it exists. *)

From Stdlib Require Import ZArith Ascii String Bool Lia.
From Stdlib Require Import DecimalString DecimalZ DecimalPos DecimalN DecimalFacts.
From Stdlib Require Import QArith.
Local Close Scope Q_scope.
From Stdlib Require Import List Permutation Sorting.
Import ListNotations.

Local Open Scope list_scope.

(** ** Bytes and text *)

Definition bytes := list ascii.
Definition str := list ascii.

Definition lit (s : string) : str := list_ascii_of_string s.

Definition byte_of_Z (z : Z) : ascii := ascii_of_N (Z.to_N (z mod 256)).
Definition Z_of_byte (a : ascii) : Z := Z.of_N (N_of_ascii a).

Definition ascii_eqb (a b : ascii) : bool := Ascii.eqb a b.

Fixpoint str_eqb (s t : str) : bool :=
  match s, t with
  | [], [] => true
  | a :: s', b :: t' => ascii_eqb a b && str_eqb s' t'
  | _, _ => false
  end.

(** [s.startswith(p)] *)
Fixpoint startswith (s p : str) {struct p} : bool :=
  match p, s with
  | [], _ => true
  | a :: p', b :: s' => ascii_eqb a b && startswith s' p'
  | _ :: _, [] => false
  end.

(** [s.endswith(p)] *)
Definition endswith (s p : str) : bool := startswith (rev s) (rev p).

(** [s.replace(c, '')] for a one-character [c] *)
Definition remove_char (c : ascii) (s : str) : str :=
  filter (fun x => negb (ascii_eqb x c)) s.

(** [s.rstrip(c)] for a one-character [c] *)
Fixpoint rstrip (c : ascii) (s : str) : str :=
  match s with
  | [] => []
  | x :: r =>
      match rstrip c r with
      | [] => if ascii_eqb x c then [] else [x]
      | r' => x :: r'
      end
  end.

(** [sep.join(parts)] *)
Fixpoint join (sep : str) (parts : list str) : str :=
  match parts with
  | [] => []
  | [p] => p
  | p :: rest => p ++ sep ++ join sep rest
  end.

(** [[s[i:i+n] for i in range(0, len(s), n)]]; the fuel is [len(s)]. *)
Fixpoint groups_of (fuel n : nat) (s : str) : list str :=
  match fuel with
  | O => []
  | S f =>
      match s with
      | [] => []
      | _ => firstn n s :: groups_of f n (skipn n s)
      end
  end.

(** Python truthiness of an [Optional[str]]: neither [None] nor empty. *)
Definition truthy (o : option str) : bool :=
  match o with
  | Some (_ :: _) => true
  | _ => false
  end.

(** [str(n)] for an [int] *)
Definition str_of_int (z : Z) : str :=
  list_ascii_of_string (NilZero.string_of_int (Z.to_int z)).

(** [s.encode('utf-8')] on code points below 256 *)
Definition utf8_char (a : ascii) : bytes :=
  let n := Z_of_byte a in
  if (n <? 128)%Z then [a]
  else [byte_of_Z (192 + n / 64); byte_of_Z (128 + n mod 64)].

Definition utf8 (s : str) : bytes := flat_map utf8_char s.

(** ** [struct]: big-endian packing *)

Module Struct.

Definition pack_I (n : Z) : bytes :=
  [byte_of_Z (n / 16777216); byte_of_Z (n / 65536); byte_of_Z (n / 256);
   byte_of_Z n].

Definition in_u8 (n : Z) : bool := ((0 <=? n) && (n <? 256))%Z.
Definition in_u32 (n : Z) : bool := ((0 <=? n) && (n <? 4294967296))%Z.

(** [struct.pack('>I', n)]; [None] stands for [struct.error]. *)
Definition pack_u32 (n : Z) : option bytes :=
  if in_u32 n then Some (pack_I n) else None.

(** [struct.pack('>BI', v, n)] *)
Definition pack_BI (v n : Z) : option bytes :=
  if in_u8 v && in_u32 n then Some (byte_of_Z v :: pack_I n) else None.

(** [struct.unpack('>I', b)[0]] *)
Definition unpack_I (b : bytes) : option Z :=
  match b with
  | [b3; b2; b1; b0] =>
      Some (((Z_of_byte b3 * 256 + Z_of_byte b2) * 256 + Z_of_byte b1) * 256
            + Z_of_byte b0)%Z
  | _ => None
  end.

(** [struct.unpack('>BI', b)] *)
Definition unpack_BI (b : bytes) : option (Z * Z) :=
  match b with
  | v :: rest =>
      match unpack_I rest with
      | Some n => Some (Z_of_byte v, n)
      | None => None
      end
  | [] => None
  end.

End Struct.

(** ** [zlib.crc32]: CRC-32 (IEEE 802.3), bit by bit *)

Module CRC32.

Local Open Scope Z_scope.

Definition poly : Z := 3988292384. (* 0xEDB88320 *)
Definition mask : Z := 4294967295. (* 0xFFFFFFFF *)

Definition step (c : Z) : Z :=
  Z.lxor (Z.shiftr c 1) (if Z.testbit c 0 then poly else 0).

Definition step8 (c : Z) : Z :=
  step (step (step (step (step (step (step (step c))))))).

Definition update (c : Z) (b : ascii) : Z :=
  step8 (Z.lxor c (Z_of_byte b)).

Definition crc32 (data : bytes) : Z :=
  Z.lxor (fold_left update data mask) mask.

End CRC32.

(** ** [base64.b32encode] / [base64.b32decode]: RFC 4648 Base32

    The payload is read as one bit string, most significant bit first, and
    cut into groups of five bits. *)

Module Base32.

Definition alphabet : str := lit "ABCDEFGHIJKLMNOPQRSTUVWXYZ234567".
Definition pad : ascii := "="%char.

Definition bits_of_byte (a : ascii) : list bool :=
  let (b0, b1, b2, b3, b4, b5, b6, b7) := a in
  [b7; b6; b5; b4; b3; b2; b1; b0].

Definition bits_of_bytes (data : bytes) : list bool :=
  flat_map bits_of_byte data.

(** Whole bytes of a bit string; fewer than eight trailing bits are
    dropped, as [b32decode] does with the bits left in the last quantum. *)
Fixpoint bytes_of_bits (l : list bool) : bytes :=
  match l with
  | b7 :: b6 :: b5 :: b4 :: b3 :: b2 :: b1 :: b0 :: r =>
      Ascii b0 b1 b2 b3 b4 b5 b6 b7 :: bytes_of_bits r
  | _ => []
  end.

Definition bit (b : bool) : nat := if b then 1 else 0.

Definition index5 (a b c d e : bool) : nat :=
  16 * bit a + 8 * bit b + 4 * bit c + 2 * bit d + bit e.

Definition char5 (a b c d e : bool) : ascii :=
  nth (index5 a b c d e) alphabet pad.

(** The characters of a bit string; the last group is filled with zero
    bits. *)
Fixpoint chars_of_bits (l : list bool) : str :=
  match l with
  | [] => []
  | a :: b :: c :: d :: e :: r => char5 a b c d e :: chars_of_bits r
  | [a; b; c; d] => [char5 a b c d false]
  | [a; b; c] => [char5 a b c false false]
  | [a; b] => [char5 a b false false false]
  | [a] => [char5 a false false false false]
  end.

Definition pad_count (n : nat) : nat := (8 - n mod 8) mod 8.

(** [base64.b32encode(data)] *)
Definition b32encode (data : bytes) : str :=
  let cs := chars_of_bits (bits_of_bytes data) in
  cs ++ repeat pad (pad_count (length cs)).

Fixpoint find_index (c : ascii) (l : str) (i : nat) : option nat :=
  match l with
  | [] => None
  | x :: r => if ascii_eqb x c then Some i else find_index c r (S i)
  end.

Definition bits5_of_index (i : nat) : list bool :=
  [Nat.testbit i 4; Nat.testbit i 3; Nat.testbit i 2; Nat.testbit i 1;
   Nat.testbit i 0].

(** The five bits of a Base32 digit; [None] for any other character
    (lowercase letters included: [casefold] is [False]). *)
Definition bits_of_char (c : ascii) : option (list bool) :=
  match find_index c alphabet 0 with
  | Some i => Some (bits5_of_index i)
  | None => None
  end.

Fixpoint bits_of_chars (s : str) : option (list bool) :=
  match s with
  | [] => Some []
  | c :: r =>
      match bits_of_char c, bits_of_chars r with
      | Some b, Some bs => Some (b ++ bs)
      | _, _ => None
      end
  end.

Inductive error := IncorrectPadding | NonBase32Digit.

Definition valid_padchars (p : nat) : bool :=
  match p with
  | 0 | 1 | 3 | 4 | 6 => true
  | _ => false
  end.

(** [base64.b32decode(s)] with the default [casefold=False]; the error is
    [binascii.Error] with its message. *)
Definition b32decode (s : str) : error + bytes :=
  if negb (length s mod 8 =? 0) then inl IncorrectPadding
  else
    let s' := rstrip pad s in
    let padchars := length s - length s' in
    match bits_of_chars s' with
    | None => inl NonBase32Digit
    | Some bits =>
        if valid_padchars padchars then inr (bytes_of_bits bits)
        else inl IncorrectPadding
    end.

End Base32.

(** ** [json.dumps] / [json.loads]

    Values without floats; an object is a [dict], in insertion order.
    [dumps] is [json.dumps(v, separators=(',', ':'))] with the default
    [ensure_ascii=True]; [loads] reads the compact documents [dumps] writes
    (no white space between tokens). *)

Module Json.

#[warnings="-register-all"]
Inductive value :=
| Null
| Bool (b : bool)
| Int (z : Z)
| Str (s : str)
| Arr (l : list value)
| Obj (m : list (str * value)).

Definition dict := list (str * value).

Definition dquote : ascii := "034"%char.
Definition backslash : ascii := "092"%char.

Definition hex_digit (n : Z) : ascii :=
  nth (Z.to_nat n) (lit "0123456789abcdef") "0"%char.

(** One character of a string literal: the short escapes, [\u00xx] for
    the other characters outside [' '..'~']. *)
Definition escape (c : ascii) : str :=
  let n := Z_of_byte c in
  if ascii_eqb c dquote then [backslash; dquote]
  else if ascii_eqb c backslash then [backslash; backslash]
  else if (n =? 10)%Z then [backslash; "n"%char]
  else if (n =? 13)%Z then [backslash; "r"%char]
  else if (n =? 9)%Z then [backslash; "t"%char]
  else if (n =? 8)%Z then [backslash; "b"%char]
  else if (n =? 12)%Z then [backslash; "f"%char]
  else if ((n <? 32) || (126 <? n))%Z then
    [backslash; "u"%char; "0"%char; "0"%char;
     hex_digit (n / 16); hex_digit (n mod 16)]
  else [c].

Definition dumps_string (s : str) : str :=
  dquote :: flat_map escape s ++ [dquote].

Definition comma : str := [","%char].

Fixpoint dumps (v : value) : str :=
  match v with
  | Null => lit "null"
  | Bool true => lit "true"
  | Bool false => lit "false"
  | Int z => str_of_int z
  | Str s => dumps_string s
  | Arr l => "["%char :: join comma (map dumps l) ++ ["]"%char]
  | Obj m =>
      "{"%char
      :: join comma
           (map (fun kv => dumps_string (fst kv) ++ ":"%char :: dumps (snd kv))
              m)
      ++ ["}"%char]
  end.

(** *** Reading *)

Definition hex_value (c : ascii) : option Z :=
  let n := Z_of_byte c in
  if ((48 <=? n) && (n <=? 57))%Z then Some (n - 48)%Z
  else if ((97 <=? n) && (n <=? 102))%Z then Some (n - 87)%Z
  else if ((65 <=? n) && (n <=? 70))%Z then Some (n - 55)%Z
  else None.

(** [\uXXXX]; a code point of 256 or more is outside the model. *)
Definition unicode_escape (h1 h2 h3 h4 : ascii) : option ascii :=
  match hex_value h1, hex_value h2, hex_value h3, hex_value h4 with
  | Some a, Some b, Some c, Some d =>
      if ((a =? 0) && (b =? 0))%Z then Some (byte_of_Z (16 * c + d))
      else None
  | _, _, _, _ => None
  end.

Definition short_escape (e : ascii) : option ascii :=
  if ascii_eqb e dquote then Some dquote
  else if ascii_eqb e backslash then Some backslash
  else if ascii_eqb e "/"%char then Some "/"%char
  else if ascii_eqb e "n"%char then Some (ascii_of_nat 10)
  else if ascii_eqb e "r"%char then Some (ascii_of_nat 13)
  else if ascii_eqb e "t"%char then Some (ascii_of_nat 9)
  else if ascii_eqb e "b"%char then Some (ascii_of_nat 8)
  else if ascii_eqb e "f"%char then Some (ascii_of_nat 12)
  else None.

Definition cons_to {A} (c : ascii) (r : option (str * A)) : option (str * A) :=
  match r with
  | Some (s, x) => Some (c :: s, x)
  | None => None
  end.

(** The body of a string literal, after its opening quote: the string and
    what follows the closing quote. *)
Fixpoint parse_string_body (s : str) : option (str * str) :=
  match s with
  | [] => None
  | c :: r =>
      if ascii_eqb c dquote then Some ([], r)
      else if ascii_eqb c backslash then
        match r with
        | [] => None
        | e :: r1 =>
            if ascii_eqb e "u"%char then
              match r1 with
              | h1 :: h2 :: h3 :: h4 :: r2 =>
                  match unicode_escape h1 h2 h3 h4 with
                  | Some x => cons_to x (parse_string_body r2)
                  | None => None
                  end
              | _ => None
              end
            else
              match short_escape e with
              | Some x => cons_to x (parse_string_body r1)
              | None => None
              end
        end
      else if (Z_of_byte c <? 32)%Z then None
      else cons_to c (parse_string_body r)
  end.

Definition is_digit (c : ascii) : bool :=
  ((48 <=? Z_of_byte c) && (Z_of_byte c <=? 57))%Z.

Fixpoint span_digits (s : str) : str * str :=
  match s with
  | c :: r =>
      if is_digit c then let (d, r') := span_digits r in (c :: d, r')
      else ([], s)
  | [] => ([], [])
  end.

Definition starts_fraction (s : str) : bool :=
  match s with
  | c :: _ => ascii_eqb c "."%char || ascii_eqb c "e"%char || ascii_eqb c "E"%char
  | [] => false
  end.

Definition leading_zero (ds : str) : bool :=
  match ds with
  | c :: _ :: _ => ascii_eqb c "0"%char
  | _ => false
  end.

Definition uint_of_digits (ds : str) : option Decimal.uint :=
  NilZero.uint_of_string (string_of_list_ascii ds).

(** An integer literal: an optional minus sign, then [0] or digits that
    do not start with [0]; a fraction or an exponent makes a float, which
    is outside the model. *)
Definition parse_digits (neg : bool) (s : str) : option (Z * str) :=
  let (ds, rest) := span_digits s in
  match ds with
  | [] => None
  | _ =>
      if leading_zero ds || starts_fraction rest then None
      else
        match uint_of_digits ds with
        | Some u =>
            Some (Z.of_int (if neg then Decimal.Neg u else Decimal.Pos u),
                  rest)
        | None => None
        end
  end.

Definition parse_int (s : str) : option (Z * str) :=
  match s with
  | c :: r =>
      if ascii_eqb c "-"%char then parse_digits true r
      else parse_digits false s
  | [] => None
  end.

(** [d[k] = v] *)
Fixpoint dict_set (d : dict) (k : str) (v : value) : dict :=
  match d with
  | [] => [(k, v)]
  | (k', v') :: r =>
      if str_eqb k' k then (k', v) :: r else (k', v') :: dict_set r k v
  end.

(** [dict(pairs)] *)
Definition dict_of_pairs (ps : list (str * value)) : dict :=
  fold_left (fun d kv => dict_set d (fst kv) (snd kv)) ps [].

(** [d.get(k)] *)
Fixpoint get (d : dict) (k : str) : option value :=
  match d with
  | [] => None
  | (k', v) :: r => if str_eqb k' k then Some v else get r k
  end.

Definition expect_literal (l : str) (v : value) (s : str)
  : option (value * str) :=
  if startswith s l then Some (v, skipn (length l) s) else None.

(** Elements of a non-empty array, up to and including the closing
    bracket. *)
Fixpoint parse_elements (pv : str -> option (value * str)) (fuel : nat)
  (s : str) : option (list value * str) :=
  match fuel with
  | O => None
  | S f =>
      match pv s with
      | Some (v, c :: r) =>
          if ascii_eqb c ","%char then
            match parse_elements pv f r with
            | Some (vs, r') => Some (v :: vs, r')
            | None => None
            end
          else if ascii_eqb c "]"%char then Some ([v], r)
          else None
      | _ => None
      end
  end.

(** Members of a non-empty object, up to and including the closing
    brace. *)
Fixpoint parse_members (pv : str -> option (value * str)) (fuel : nat)
  (s : str) : option (list (str * value) * str) :=
  match fuel with
  | O => None
  | S f =>
      match s with
      | q :: s1 =>
          if ascii_eqb q dquote then
            match parse_string_body s1 with
            | Some (k, c :: s2) =>
                if ascii_eqb c ":"%char then
                  match pv s2 with
                  | Some (v, d :: r) =>
                      if ascii_eqb d ","%char then
                        match parse_members pv f r with
                        | Some (ms, r') => Some ((k, v) :: ms, r')
                        | None => None
                        end
                      else if ascii_eqb d "}"%char then Some ([(k, v)], r)
                      else None
                  | _ => None
                  end
                else None
            | _ => None
            end
          else None
      | [] => None
      end
  end.

Fixpoint parse_value (fuel : nat) (s : str) : option (value * str) :=
  match fuel with
  | O => None
  | S f =>
      match s with
      | [] => None
      | c :: r =>
          if ascii_eqb c "n"%char then expect_literal (lit "null") Null s
          else if ascii_eqb c "t"%char then
            expect_literal (lit "true") (Bool true) s
          else if ascii_eqb c "f"%char then
            expect_literal (lit "false") (Bool false) s
          else if ascii_eqb c dquote then
            match parse_string_body r with
            | Some (x, r') => Some (Str x, r')
            | None => None
            end
          else if ascii_eqb c "["%char then
            match r with
            | c2 :: r2 =>
                if ascii_eqb c2 "]"%char then Some (Arr [], r2)
                else
                  match parse_elements (parse_value f) f r with
                  | Some (vs, r') => Some (Arr vs, r')
                  | None => None
                  end
            | [] => None
            end
          else if ascii_eqb c "{"%char then
            match r with
            | c2 :: r2 =>
                if ascii_eqb c2 "}"%char then Some (Obj [], r2)
                else
                  match parse_members (parse_value f) f r with
                  | Some (ms, r') => Some (Obj (dict_of_pairs ms), r')
                  | None => None
                  end
            | [] => None
            end
          else
            match parse_int s with
            | Some (z, r') => Some (Int z, r')
            | None => None
            end
      end
  end.

(** [json.loads(s)] on the documents of the model; [None] stands for
    [json.JSONDecodeError], and for a document with white space between
    tokens, a float or an escape above [\u00ff], which the model does not
    read. *)
Definition loads (s : str) : option value :=
  match parse_value (S (length s)) s with
  | Some (v, []) => Some v
  | _ => None
  end.

(** Keys pairwise distinct, as in every [dict]. *)
Fixpoint distinct (ks : list str) : bool :=
  match ks with
  | [] => true
  | k :: r => negb (existsb (str_eqb k) r) && distinct r
  end.

(** A value built from Python dictionaries: distinct keys at every
    level. *)
Fixpoint wf (v : value) : bool :=
  match v with
  | Arr l => forallb wf l
  | Obj m => distinct (map fst m) && forallb (fun kv => wf (snd kv)) m
  | _ => true
  end.

Fixpoint size (v : value) : nat :=
  match v with
  | Arr l => S (fold_right (fun x n => size x + n) 0 l)
  | Obj m => S (fold_right (fun kv n => size (snd kv) + n) 0 m)
  | _ => 1
  end.

End Json.

(** ** Library primitives taken as parameters

    [hashlib], [hmac] and [zlib], the local time of the platform behind
    [datetime.fromtimestamp], and the fields of [rest_framework] are outside
    the repository. The code is embedded over any implementation of them;
    what a proof needs of them is stated as a hypothesis where it is
    used. *)

Class Primitives := {
  (** [hashlib.sha256(x).digest()] *)
  sha256 : bytes -> bytes;
  (** [hashlib.md5(x).hexdigest()] *)
  md5_hexdigest : bytes -> str;
  (** [hmac.new(key, msg, hashlib.sha256).digest()] *)
  hmac_sha256 : bytes -> bytes -> bytes;
  (** [zlib.compress(x, level=9)] *)
  zlib_compress : bytes -> bytes;
  (** [zlib.decompress(x)]; [None] stands for [zlib.error] *)
  zlib_decompress : bytes -> option bytes;
  (** [datetime.fromtimestamp(s)] for a whole number of seconds [s], in the
      local time of the platform; [None] stands for the [OverflowError],
      [OSError] or [ValueError] of a timestamp outside the range of the
      platform or of [datetime] (years 1 to 9999) *)
  fromtimestamp : Z -> option Z;
  (** [serializers.CharField(max_length=n).run_validation(v)] on a string
      [v]: the cleaned value; [None] stands for a [ValidationError] *)
  char_field : nat -> str -> option str;
  (** [serializers.IPAddressField().run_validation(v)] on a string [v] *)
  ip_address_field : str -> option str
}.

(** [b.decode('utf-8')] into code points below 256; [None] stands for
    [UnicodeDecodeError] and for text outside the model. *)
Fixpoint utf8_decode (b : bytes) : option str :=
  match b with
  | [] => Some []
  | c :: r =>
      let n := Z_of_byte c in
      if (n <? 128)%Z then option_map (cons c) (utf8_decode r)
      else if ((n =? 194) || (n =? 195))%Z then
        match r with
        | d :: r' =>
            let m := Z_of_byte d in
            if ((128 <=? m) && (m <? 192))%Z then
              option_map (cons (byte_of_Z ((n - 192) * 64 + (m - 128))))
                (utf8_decode r')
            else None
        | [] => None
        end
      else None
  end.

(** The integer nearest to [n / d], for [d > 0]; of two that are equally
    near, the even one. *)
Definition round_half_even (n d : Z) : Z :=
  let q := (n / d)%Z in
  let r := (2 * (n mod d))%Z in
  if (r <? d)%Z then q
  else if (d <? r)%Z then (q + 1)%Z
  else if Z.even q then q else (q + 1)%Z.

(** [int(n / 10**6)] for [n >= 0]: [/] gives the [float] nearest to the
    quotient (53 significant bits, ties to even) and [int] drops its
    fraction. With [2^k <= n / 10**6 < 2^(k+1)] the float is a multiple of
    [2^(k-52)]. *)
Definition seconds_of (n : Z) : Z :=
  if (n <? 1000000)%Z then 0%Z
  else
    let e := (Z.log2 (n / 1000000) - 52)%Z in
    if (0 <=? e)%Z then (round_half_even n (1000000 * 2 ^ e) * 2 ^ e)%Z
    else (round_half_even (n * 2 ^ (- e)) 1000000 / 2 ^ (- e))%Z.

(** [int(dt.timestamp())] of an aware [datetime] [dt], given in
    microseconds since the epoch: [timestamp()] is
    [(dt - epoch).total_seconds()], the microseconds divided by [10**6] as
    a [float]. [int(time.time())] is read in the same way off the clock
    reading in microseconds. *)
Definition int_seconds (us : Z) : Z :=
  (Z.sgn us * seconds_of (Z.abs us))%Z.

(** ** models.py: [AdvancedLicenseKeyGenerator] *)

Module AdvancedLicenseKeyGenerator.
Section Generator.

Context {prims : Primitives}.

Definition SECRET_KEY : str :=
  lit "your-super-secret-key-change-this-in-production".
Definition VERSION : Z := 1.

Definition colon : str := [":"%char].
Definition dash : ascii := "-"%char.
Definition prefix : str := lit "ALK-".

(** The [metadata] dictionary of [generate_advanced_license_key]. *)
Definition metadata_dict (timestamp client_id : Z) (email : str)
  (expires_at : option Z) (max_users : Z) (features : Json.dict)
  : Json.dict :=
  [ (lit "client_id", Json.Int client_id);
    (lit "email_hash",
      Json.Str (match email with
                | [] => []
                | _ => firstn 8 (md5_hexdigest (utf8 email))
                end));
    (lit "expires",
      Json.Int (match expires_at with
                | Some dt => int_seconds dt
                | None => 0%Z
                end));
    (lit "max_users", Json.Int max_users);
    (lit "features", Json.Obj features);
    (lit "issued", Json.Int timestamp) ].

(** The payload before Base32: core, checksum, signature. [None] stands
    for the [struct.error] of a timestamp that does not fit four bytes. *)
Definition final_payload (timestamp client_id : Z) (client_name email : str)
  (expires_at : option Z) (max_users : Z) (features : Json.dict)
  : option bytes :=
  let client_data :=
    utf8 (str_of_int client_id ++ colon ++ client_name ++ colon ++ email) in
  let client_hash := firstn 8 (sha256 client_data) in
  let metadata :=
    metadata_dict timestamp client_id email expires_at max_users features in
  let metadata_json := utf8 (Json.dumps (Json.Obj metadata)) in
  let compressed_metadata := zlib_compress metadata_json in
  match Struct.pack_BI VERSION timestamp with
  | None => None
  | Some header =>
      let core_payload := header ++ client_hash ++ compressed_metadata in
      let checksum := Z.land (CRC32.crc32 core_payload) 4294967295 in
      let signature :=
        firstn 16
          (hmac_sha256 (utf8 SECRET_KEY)
             (core_payload ++ Struct.pack_I checksum)) in
      Some (core_payload ++ Struct.pack_I checksum ++ signature)
  end.

(** Steps 8 and 9: Base32 without padding, groups of five, the prefix. *)
Definition format_key (payload : bytes) : str :=
  let encoded_key := rstrip Base32.pad (Base32.b32encode payload) in
  let formatted_key :=
    join [dash] (groups_of (length encoded_key) 5 encoded_key) in
  prefix ++ formatted_key.

(** [generate_advanced_license_key]; [timestamp] is [int(time.time())],
    [features=None] is passed as [[]]. *)
Definition generate_advanced_license_key (timestamp client_id : Z)
  (client_name email : str) (expires_at : option Z) (max_users : Z)
  (features : Json.dict) : option str :=
  match final_payload timestamp client_id client_name email expires_at
          max_users features with
  | None => None
  | Some payload => Some (format_key payload)
  end.

(** The message of the [ValueError] raised inside [validate_license_key];
    the outer handler prepends ["Invalid license key: "]. *)
Inductive key_error :=
| InvalidFormat                      (* "Invalid license key format" *)
| Base32Error (e : Base32.error)     (* binascii.Error of b32decode *)
| InvalidLength                      (* "Invalid license key length" *)
| UnsupportedVersion (v : Z)         (* "Unsupported license key version: v" *)
| ChecksumFailed   (* "License key checksum validation failed" *)
| SignatureFailed  (* "License key signature validation failed" *)
| MetadataFailed   (* "Failed to parse license key metadata" *)
| MetadataShape    (* AttributeError, KeyError or TypeError on the parsed value *)
| TimestampRange.  (* [datetime.fromtimestamp] refuses [issued] or [expires] *)

(** The dictionary [validate_license_key] returns: the parsed object and
    the three entries added to it. *)
Record key_metadata := {
  fields : Json.dict;
  is_expired : bool;
  issued_datetime : Z;
  expires_datetime : option Z
}.

(** A JSON number as a Python number ([bool] is an [int]); [None] stands
    for the [TypeError] of comparing or converting anything else. *)
Definition as_number (v : Json.value) : option Z :=
  match v with
  | Json.Int z => Some z
  | Json.Bool b => Some (if b then 1 else 0)%Z
  | _ => None
  end.

(** "Add validation status" *)
Definition add_status (current_time : Z) (parsed : Json.value)
  : key_error + key_metadata :=
  match parsed with
  | Json.Obj metadata =>
      let expires_v :=
        match Json.get metadata (lit "expires") with
        | Some v => v
        | None => Json.Int 0
        end in
      match as_number expires_v with
      | None => inl MetadataShape
      | Some expires =>
          let expired := ((0 <? expires) && (expires <? current_time))%Z in
          match Json.get metadata (lit "issued") with
          | None => inl MetadataShape
          | Some issued_v =>
              match as_number issued_v with
              | None => inl MetadataShape
              | Some issued =>
                  match fromtimestamp issued with
                  | None => inl TimestampRange
                  | Some issued_dt =>
                      if (expires =? 0)%Z then
                        inr {| fields := metadata;
                               is_expired := expired;
                               issued_datetime := issued_dt;
                               expires_datetime := None |}
                      else
                        match fromtimestamp expires with
                        | None => inl TimestampRange
                        | Some expires_dt =>
                            inr {| fields := metadata;
                                   is_expired := expired;
                                   issued_datetime := issued_dt;
                                   expires_datetime := Some expires_dt |}
                        end
                  end
              end
          end
      end
  | _ => inl MetadataShape
  end.

(** Everything after the Base32 decoding, on the payload bytes. *)
Definition decode_payload (current_time : Z) (payload : bytes)
  : key_error + key_metadata :=
  let n := length payload in
  if n <? 25 then inl InvalidLength
  else
    match Struct.unpack_BI (firstn 5 payload) with
    | None => inl MetadataShape
    | Some (version, timestamp) =>
        if negb (version =? VERSION)%Z then inl (UnsupportedVersion version)
        else
          let client_hash := firstn 8 (skipn 5 payload) in
          let signature := skipn (n - 16) payload in
          match Struct.unpack_I (firstn 4 (skipn (n - 20) payload)) with
          | None => inl MetadataShape
          | Some checksum =>
              let compressed_metadata :=
                skipn 13 (firstn (n - 20) payload) in
              let core_payload := firstn (n - 20) payload in
              let expected_checksum :=
                Z.land (CRC32.crc32 core_payload) 4294967295 in
              if negb (checksum =? expected_checksum)%Z
              then inl ChecksumFailed
              else
                let expected_signature :=
                  firstn 16
                    (hmac_sha256 (utf8 SECRET_KEY)
                       (core_payload ++ Struct.pack_I checksum)) in
                if negb (str_eqb signature expected_signature)
                then inl SignatureFailed
                else
                  match zlib_decompress compressed_metadata with
                  | None => inl MetadataFailed
                  | Some metadata_json =>
                      match utf8_decode metadata_json with
                      | None => inl MetadataFailed
                      | Some text =>
                          match Json.loads text with
                          | None => inl MetadataFailed
                          | Some parsed => add_status current_time parsed
                          end
                      end
                  end
          end
    end.

(** [validate_license_key]; [current_time] is [int(time.time())]. [inl e]
    is the [ValueError] the method raises. *)
Definition validate_license_key (current_time : Z) (license_key : str)
  : key_error + key_metadata :=
  if negb (startswith license_key prefix) then inl InvalidFormat
  else
    let clean_key := remove_char dash (skipn 4 license_key) in
    let padding := (8 - length clean_key mod 8) mod 8 in
    let padded_key := clean_key ++ repeat Base32.pad padding in
    match Base32.b32decode padded_key with
    | inl e => inl (Base32Error e)
    | inr payload => decode_payload current_time payload
    end.

End Generator.
End AdvancedLicenseKeyGenerator.

(** ** models.py: [Client], [License] and the table of licenses *)

Module Models.
Section Models.

Import AdvancedLicenseKeyGenerator.
Context {prims : Primitives}.

Record Client := {
  client_id : Z;
  client_name : str;
  client_email : option str
}.

Record License := {
  id : Z;                                (* the UUID primary key *)
  key : str;                             (* unique *)
  client : Client;
  email : option str;
  expires_at : option Z;
  is_active : bool;
  max_users : Z;
  features : Json.dict;
  usage_count : Z;
  last_used : option Z;
  hardware_fingerprint : option str;
  ip_restrictions : list str;
  domain_restrictions : list str
}.

(** The rows of the [License] table. *)
Definition table := list License.

Inductive db_error :=
| IntegrityError            (* the unique index on [key] *)
| StructError               (* raised while generating a key *)
| MultipleObjectsReturned.

(** [a or b or ''] on optional strings *)
Definition first_truthy (a b : option str) : str :=
  match a with
  | Some (c :: s) => c :: s
  | _ => match b with
         | Some s => s
         | None => []
         end
  end.

Definition with_key (l : License) (k : str) : License :=
  {| id := id l; key := k; client := client l; email := email l;
     expires_at := expires_at l; is_active := is_active l;
     max_users := max_users l; features := features l;
     usage_count := usage_count l; last_used := last_used l;
     hardware_fingerprint := hardware_fingerprint l;
     ip_restrictions := ip_restrictions l;
     domain_restrictions := domain_restrictions l |}.

(** [super().save()]: update the row with this primary key or insert a new
    one; the unique index rejects a key another row holds. [Model.save]
    runs no validators, and the [max_length] of a column is left to the
    database: as with SQLite, no length is checked here. *)
Definition db_save (db : table) (l : License) : db_error + table :=
  if existsb (fun r => negb (id r =? id l)%Z && str_eqb (key r) (key l)) db
  then inl IntegrityError
  else if existsb (fun r => (id r =? id l)%Z) db
  then inr (map (fun r => if (id r =? id l)%Z then l else r) db)
  else inr (db ++ [l]).

(** [License.save]; [now] is the clock reading, in microseconds. The
    saved object is returned with the table. *)
Definition save (now : Z) (db : table) (l : License)
  : db_error + (License * table) :=
  let generated :=
    match key l with
    | [] =>
        generate_advanced_license_key (int_seconds now)
          (client_id (client l)) (client_name (client l))
          (first_truthy (email l) (client_email (client l)))
          (expires_at l) (max_users l) (features l)
    | k => Some k
    end in
  match generated with
  | None => inl StructError
  | Some k =>
      let l' := with_key l k in
      match db_save db l' with
      | inl e => inl e
      | inr db' => inr (l', db')
      end
  end.

(** The pair [is_valid] returns, by its message. *)
Inductive verdict :=
| Valid                  (* True,  "License is valid" *)
| Inactive               (* False, "License is inactive" *)
| Expired                (* False, "License has expired" *)
| KeyExpired             (* False, "License key has expired" *)
| ClientMismatch         (* False, "License key client mismatch" *)
| InvalidKey (e : key_error) (* False, "Invalid license key: ..." *)
| IpNotAuthorized        (* False, "IP address not authorized" *)
| DomainNotAuthorized    (* False, "Domain not authorized" *)
| HardwareMismatch       (* False, "Hardware fingerprint mismatch" *)
| UsageExceeded.         (* False, "Maximum usage limit exceeded" *)

Definition verdict_ok (v : verdict) : bool :=
  match v with
  | Valid => true
  | _ => false
  end.

(** [key_metadata.get('client_id') != self.client.id] *)
Definition client_differs (m : key_metadata) (cid : Z) : bool :=
  match Json.get (fields m) (lit "client_id") with
  | Some v =>
      match as_number v with
      | Some z => negb (z =? cid)%Z
      | None => true
      end
  | None => true
  end.

(** [License.is_valid]; [now] is the clock reading, in microseconds. *)
Definition is_valid (now : Z) (l : License)
  (ip_address domain hardware_fp : option str) : verdict :=
  if negb (is_active l) then Inactive
  else if match expires_at l with
          | Some e => (e <? now)%Z
          | None => false
          end
  then Expired
  else
    match validate_license_key (int_seconds now) (key l) with
    | inl e => InvalidKey e
    | inr key_md =>
        if is_expired key_md then KeyExpired
        else if client_differs key_md (client_id (client l))
        then ClientMismatch
        else if match ip_address, ip_restrictions l with
                | Some (c :: ip), _ :: _ =>
                    negb (existsb (str_eqb (c :: ip)) (ip_restrictions l))
                | _, _ => false
                end
        then IpNotAuthorized
        else if match domain, domain_restrictions l with
                | Some (c :: d), _ :: _ =>
                    negb (existsb (endswith (c :: d)) (domain_restrictions l))
                | _, _ => false
                end
        then DomainNotAuthorized
        else if truthy (hardware_fingerprint l) && truthy hardware_fp
                && negb (match hardware_fingerprint l, hardware_fp with
                         | Some a, Some b => str_eqb a b
                         | _, _ => false
                         end)
        then HardwareMismatch
        else if (max_users l <=? usage_count l)%Z then UsageExceeded
        else Valid
    end.

(** [License.get_key_metadata] *)
Definition get_key_metadata (now : Z) (l : License) : option key_metadata :=
  match validate_license_key (int_seconds now) (key l) with
  | inr m => Some m
  | inl _ => None
  end.

(** The field updates of [License.increment_usage], before [save]. *)
Definition used (now : Z) (l : License) (hardware_fp : option str)
  : License :=
  {| id := id l; key := key l; client := client l; email := email l;
     expires_at := expires_at l; is_active := is_active l;
     max_users := max_users l; features := features l;
     usage_count := usage_count l + 1;
     last_used := Some now;
     hardware_fingerprint :=
       if truthy hardware_fp && negb (truthy (hardware_fingerprint l))
       then hardware_fp
       else hardware_fingerprint l;
     ip_restrictions := ip_restrictions l;
     domain_restrictions := domain_restrictions l |}.

(** [License.increment_usage] *)
Definition increment_usage (now : Z) (db : table) (l : License)
  (ip_address hardware_fp : option str) : db_error + (License * table) :=
  save now db (used now l hardware_fp).

(** [License.get_remaining_uses] *)
Definition get_remaining_uses (l : License) : Z :=
  Z.max 0 (max_users l - usage_count l).

(** [License.objects.get(...)] on the rows a filter keeps: [inr None] is
    [License.DoesNotExist]. *)
Definition objects_get (db : table) (f : License -> bool)
  : db_error + option License :=
  match filter f db with
  | [] => inr None
  | [l] => inr (Some l)
  | _ => inl MultipleObjectsReturned
  end.

(** *** [LicenseManager] *)

Record validation_result := {
  valid : bool;
  message : verdict + unit;              (* [inr tt]: "License not found" *)
  license : option License;
  metadata : option key_metadata;
  remaining_uses : Z
}.

(** [LicenseManager.validate_license_with_context] *)
Definition validate_license_with_context (now : Z) (db : table)
  (license_key : str) (cid : Z) (ip_address domain hardware_fp : option str)
  : db_error + validation_result :=
  match objects_get db
          (fun r => str_eqb (key r) license_key
                    && (client_id (client r) =? cid)%Z) with
  | inl e => inl e
  | inr (Some license_obj) =>
      let v := is_valid now license_obj ip_address domain hardware_fp in
      inr {| valid := verdict_ok v;
             message := inl v;
             license := Some license_obj;
             metadata := get_key_metadata now license_obj;
             remaining_uses := get_remaining_uses license_obj |}
  | inr None =>
      inr {| valid := false;
             message := inr tt;
             license := None;
             metadata := None;
             remaining_uses := 0 |}
  end.

(** A new, unsaved [License(...)] of [bulk_generate_licenses]; [uuid] is
    the value [uuid.uuid4()] gives it. *)
Definition new_license (uuid : Z) (c : Client) (expires : option Z)
  (seats : Z) (feats : Json.dict) : License :=
  {| id := uuid; key := []; client := c; email := client_email c;
     expires_at := expires; is_active := true; max_users := seats;
     features := feats; usage_count := 0; last_used := None;
     hardware_fingerprint := None; ip_restrictions := [];
     domain_restrictions := [] |}.

(** The loop of [LicenseManager.bulk_generate_licenses], [count] rounds
    from round [i]: [clock i] is the clock reading and [uuid i] the fresh
    primary key in round [i]. When a [save] raises, the rows saved before
    it stay in the table: [inl (e, db)] is the exception with the table as
    it then is. *)
Fixpoint bulk_loop (clock uuid : nat -> Z) (c : Client)
  (expires : option Z) (seats : Z) (feats : Json.dict)
  (count i : nat) (db : table) (licenses : list License)
  : (db_error * table) + (list License * table) :=
  match count with
  | O => inr (licenses, db)
  | S count' =>
      match save (clock i) db (new_license (uuid i) c expires seats feats) with
      | inl e => inl (e, db)
      | inr (license_obj, db') =>
          bulk_loop clock uuid c expires seats feats count' (S i) db'
            (licenses ++ [license_obj])
      end
  end.

(** [LicenseManager.bulk_generate_licenses] *)
Definition bulk_generate_licenses (clock uuid : nat -> Z) (db : table)
  (c : Client) (count : Z) (expires : option Z) (seats : Z)
  (feats : Json.dict) : (db_error * table) + (list License * table) :=
  bulk_loop clock uuid c expires seats feats (Z.to_nat count) 0 db [].

End Models.
End Models.

(** ** views.py: [LicenseUsageView] *)

Module Views.
Section Views.

Import AdvancedLicenseKeyGenerator Models.
Context {prims : Primitives}.

(** [request.data] for the fields [LicenseUsageSerializer] declares, and
    its [validated_data]. [None] is a field that is not there.
    [license_key] is required: a request without it is answered 400, as
    is one whose key the field refuses, and has no value of its own
    here. *)
Record usage_request := {
  license_key : str;
  ip_address : option str;
  req_hardware_fingerprint : option str
}.

Inductive response :=
| Ok200 (remaining : Z)            (* 'Usage recorded successfully' *)
| Forbidden403 (v : verdict)       (* the message of [is_valid] *)
| NotFound404                      (* 'License not found' *)
| BadRequest400                    (* [serializer.errors] *)
| Uncaught (e : db_error).

(** A field with [required=False]: validated when the request has it. *)
Definition optional (field : str -> option str) (v : option str)
  : option (option str) :=
  match v with
  | None => Some None
  | Some x => option_map Some (field x)
  end.

(** The declared fields of [LicenseUsageSerializer] on the request data:
    the cleaned values when every field accepts its value. *)
Definition validated_fields (rq : usage_request) : option usage_request :=
  match char_field 512 (license_key rq),
        optional ip_address_field (ip_address rq),
        optional (char_field 255) (req_hardware_fingerprint rq) with
  | Some k, Some ip, Some hw =>
      Some {| license_key := k; ip_address := ip;
              req_hardware_fingerprint := hw |}
  | _, _, _ => None
  end.

(** [serializer.is_valid()] of a [LicenseUsageSerializer]: [inr (Some d)]
    is [True] with [validated_data] [d], [inr None] is [False]. The fields
    are validated in the order of their declaration, and
    [validate_license_key] looks the key up as soon as its field has
    accepted it. *)
Definition serializer_is_valid (db : table) (rq : usage_request)
  : db_error + option usage_request :=
  match char_field 512 (license_key rq) with
  | None => inr None
  | Some k =>
      (* LicenseUsageSerializer.validate_license_key *)
      match objects_get db (fun r => str_eqb (key r) k) with
      | inl e => inl e
      | inr None => inr None
      | inr (Some _) => inr (validated_fields rq)
      end
  end.

(** The branch of [LicenseUsageView.post] under
    [if serializer.is_valid():], on the validated data. *)
Definition record_usage (now : Z) (db : table) (data : usage_request)
  : response * table :=
  match objects_get db (fun r => str_eqb (key r) (license_key data)) with
  | inl e => (Uncaught e, db)
  | inr None => (NotFound404, db)
  | inr (Some license_obj) =>
      let v := is_valid now license_obj (ip_address data) None
                 (req_hardware_fingerprint data) in
      if verdict_ok v then
        match increment_usage now db license_obj (ip_address data)
                (req_hardware_fingerprint data) with
        | inl e => (Uncaught e, db)
        | inr (license_obj', db') =>
            (Ok200 (get_remaining_uses license_obj'), db')
        end
      else (Forbidden403 v, db)
  end.

(** [LicenseUsageView.post]; the response and the table afterwards. *)
Definition post (now : Z) (db : table) (rq : usage_request)
  : response * table :=
  match serializer_is_valid db rq with
  | inl e => (Uncaught e, db)
  | inr None => (BadRequest400, db)
  | inr (Some data) => record_usage now db data
  end.

End Views.
End Views.

(** ** A small executable instance of the primitives

    It is not the real algorithms: digests are built from the CRC,
    compression only adds a two-byte header, and the address field knows
    IPv4 only. It has the digest lengths and the round trip that the proofs
    assume of the libraries, and serves to evaluate the embedding on
    concrete inputs. *)

Module Sample.

Definition digest32 (x : bytes) : bytes :=
  let w := Struct.pack_I (CRC32.crc32 x) in
  w ++ w ++ w ++ w ++ w ++ w ++ w ++ w.

Definition hexdigest (x : bytes) : str :=
  flat_map
    (fun b => [Json.hex_digit (Z_of_byte b / 16);
               Json.hex_digit (Z_of_byte b mod 16)])
    (firstn 16 (digest32 x)).

Definition compress (x : bytes) : bytes := "120"%char :: "218"%char :: x.

Definition decompress (x : bytes) : option bytes :=
  match x with
  | a :: b :: r =>
      if ascii_eqb a "120"%char && ascii_eqb b "218"%char then Some r
      else None
  | _ => None
  end.

(** Local time is UTC and [time_t] has 64 bits: the seconds of the years
    1 to 9999. *)
Definition utc_fromtimestamp (s : Z) : option Z :=
  if ((-62135596800 <=? s) && (s <=? 253402300799))%Z
  then Some (s * 1000000)%Z
  else None.

(** [c.isspace()] below 256 *)
Definition is_space (c : ascii) : bool :=
  let n := Z_of_byte c in
  (((9 <=? n) && (n <=? 13)) || ((28 <=? n) && (n <=? 32))
   || (n =? 133) || (n =? 160))%Z.

Fixpoint lstrip (s : str) : str :=
  match s with
  | c :: r => if is_space c then lstrip r else s
  | [] => []
  end.

(** [s.strip()] *)
Definition strip (s : str) : str := rev (lstrip (rev (lstrip s))).

(** A [CharField]: the value stripped; blank values, values over the
    maximal length and null characters are refused. *)
Definition char (n : nat) (v : str) : option str :=
  let v' := strip v in
  match v' with
  | [] => None
  | _ =>
      if (n <? length v') || existsb (fun c => (Z_of_byte c =? 0)%Z) v'
      then None
      else Some v'
  end.

(** The numbers between the dots; [None] where a part is not one to
    three digits. *)
Fixpoint octets (part : str) (s : str) : option (list str) :=
  match s with
  | [] => Some [rev part]
  | c :: r =>
      if ascii_eqb c "."%char then option_map (cons (rev part)) (octets [] r)
      else if Json.is_digit c then octets (c :: part) r
      else None
  end.

Definition octet_ok (d : str) : bool :=
  match d with
  | [a] => true
  | [a; b] => negb (ascii_eqb a "0"%char)
  | [a; b; c] =>
      negb (ascii_eqb a "0"%char)
      && ((Z_of_byte a - 48) * 100 + (Z_of_byte b - 48) * 10
          + (Z_of_byte c - 48) <=? 255)%Z
  | _ => false
  end.

(** An [IPAddressField] that knows dotted quads only. *)
Definition ipv4 (v : str) : option str :=
  match char 39 v with
  | Some v' =>
      match octets [] v' with
      | Some [a; b; c; d] =>
          if octet_ok a && octet_ok b && octet_ok c && octet_ok d
          then Some v' else None
      | _ => None
      end
  | None => None
  end.

Definition primitives : Primitives :=
  {| sha256 := digest32;
     md5_hexdigest := hexdigest;
     hmac_sha256 := fun k m => digest32 (k ++ m);
     zlib_compress := compress;
     zlib_decompress := decompress;
     fromtimestamp := utc_fromtimestamp;
     char_field := char;
     ip_address_field := ipv4 |}.

End Sample.

(** ** Vocabulary of the properties *)

Module Properties.
Section Properties.

Import AdvancedLicenseKeyGenerator Models Views.
Context {prims : Primitives}.

(** The unique index on [key] and the primary key [id]. *)
Definition consistent (db : table) : Prop :=
  NoDup (map key db) /\ NoDup (map id db).

(** The row stored under a key. *)
Definition row (db : table) (k : str) : option License :=
  find (fun r => str_eqb (key r) k) db.

(** Successive calls of [LicenseUsageView.post], each with its clock
    reading: the response and the table after each call. *)
Fixpoint consume (db : table) (calls : list (Z * usage_request))
  : list (response * table) :=
  match calls with
  | [] => []
  | (now, rq) :: rest =>
      let out := post now db rq in
      out :: consume (snd out) rest
  end.

(** The serializer's fields accept the request, and the key they give is
    [k]. *)
Definition names_key (k : str) (rq : usage_request) : Prop :=
  exists data, validated_fields rq = Some data /\ license_key data = k.

(** No rule of [is_valid] other than the usage limit rejects, for the
    validated data of a request. *)
Definition only_seats_decide (now : Z) (l : License) (data : usage_request)
  : Prop :=
  let v := is_valid now l (ip_address data) None
             (req_hardware_fingerprint data) in
  v = Valid \/ v = UsageExceeded.

(** The same, at each call of a sequence, on the row as it then is. *)
Fixpoint others_pass (db : table) (calls : list (Z * usage_request)) : Prop :=
  match calls with
  | [] => True
  | (now, rq) :: rest =>
      (forall data l,
         validated_fields rq = Some data ->
         row db (license_key data) = Some l ->
         only_seats_decide now l data)
      /\ others_pass (snd (post now db rq)) rest
  end.

(** [s] with its [i]-th character replaced by [c]. *)
Fixpoint substitute (i : nat) (c : ascii) (s : str) : str :=
  match s, i with
  | [], _ => []
  | _ :: r, O => c :: r
  | x :: r, S i' => x :: substitute i' c r
  end.

(** The token whose Base32 text is [encoded]: groups of five and the
    prefix. *)
Definition token_of (encoded : str) : str :=
  prefix ++ join [dash] (groups_of (length encoded) 5 encoded).

(** The Base32 text of a payload, without padding. *)
Definition encoded_key (payload : bytes) : str :=
  rstrip Base32.pad (Base32.b32encode payload).

(** [c.lower()] *)
Definition lower (c : ascii) : ascii :=
  let n := Z_of_byte c in
  if ((65 <=? n) && (n <=? 90))%Z then byte_of_Z (n + 32) else c.

(** The token with the characters after the prefix in lower case. *)
Definition lowercased (k : str) : str :=
  firstn 4 k ++ map lower (skipn 4 k).

(** [k'] is [k] with some of the characters after the prefix put in lower
    case. *)
Definition partly_lowercased (k k' : str) : Prop :=
  firstn 4 k' = firstn 4 k
  /\ Forall2 (fun c c' => c' = c \/ c' = lower c) (skipn 4 k) (skipn 4 k').

Definition in_alphabet (c : ascii) : Prop :=
  Base32.bits_of_char c <> None.

(** [datetime.fromtimestamp] accepts the second [t] of issue and, for
    parameters with an expiry whose second is not 0, that second. *)
Definition datable (t : Z) (expires_at : option Z) : Prop :=
  fromtimestamp t <> None
  /\ match expires_at with
     | Some dt =>
         int_seconds dt <> 0%Z -> fromtimestamp (int_seconds dt) <> None
     | None => True
     end.

(** A clock that stays within one second, and fresh primary keys. *)
Definition same_second (clock : nat -> Z) (s : Z) : Prop :=
  forall i, int_seconds (clock i) = s.

Definition fresh (uuid : nat -> Z) : Prop :=
  forall i j, uuid i = uuid j -> i = j.

Definition keys_of (ls : list License) : list str := map key ls.

End Properties.
End Properties.

(** ** Notions used by the statements and their proofs *)

Module Notions.

(** *** JSON text *)

(** The decimal digits of an unsigned number, as [str(n)] writes them. *)
Definition digits_of (u : Decimal.uint) : str :=
  list_ascii_of_string (NilEmpty.string_of_uint u).

(** What may follow an integer literal: nothing a number would go on
    with. *)
Definition not_number_char (rest : str) : Prop :=
  match rest with
  | [] => True
  | c :: _ => Json.is_digit c = false /\ Json.starts_fraction rest = false
  end.

(** What follows a value inside a compact document. *)
Definition terminated (rest : str) : Prop :=
  match rest with
  | [] => True
  | c :: _ => c = ","%char \/ c = "]"%char \/ c = "}"%char
  end.

Definition number_head (c : ascii) : Prop :=
  c = "-"%char \/ Json.is_digit c = true.

(** [parse_value] reads back what [dumps] wrote, given fuel for the size of
    the value. *)
Definition round_trips (v : Json.value) : Prop :=
  Json.wf v = true -> forall f rest, Json.size v <= f -> terminated rest ->
  Json.parse_value f (Json.dumps v ++ rest) = Some (v, rest).

(** One member of an object, as [dumps] writes it. *)
Definition member (kv : str * Json.value) : str :=
  Json.dumps_string (fst kv) ++ ":"%char :: Json.dumps (snd kv).

(** *** Tables *)

(** The table with the row of [l']'s primary key replaced by [l']. *)
Definition replaced (db : Models.table) (l' : Models.License) : Models.table :=
  map (fun r => if (Models.id r =? Models.id l')%Z then l' else r) db.

(** The record-level expiry rule of [is_valid] does not fire. *)
Definition record_not_expired (now : Z) (l : Models.License) : Prop :=
  match Models.expires_at l with
  | Some e => (now <= e)%Z
  | None => True
  end.

(** *** Token text *)

(** A character that is neither padding nor a group separator. *)
Definition clean (c : ascii) : Prop :=
  c <> Base32.pad /\ c <> AdvancedLicenseKeyGenerator.dash.

(** The bytes a Base32 text without padding stands for, as
    [validate_license_key] reads it: re-padded, then decoded. *)
Definition payload_of_text (cs : str) : Base32.error + bytes :=
  Base32.b32decode
    (cs ++ repeat Base32.pad (Base32.pad_count (length cs))).

(** The byte made of eight bits, most significant first. *)
Definition byte_of_window (w : list bool) : option ascii :=
  match w with
  | [b7; b6; b5; b4; b3; b2; b1; b0] => Some (Ascii b0 b1 b2 b3 b4 b5 b6 b7)
  | _ => None
  end.

(** Two byte strings of one length that agree outside positions [j] and
    [j + 1]. *)
Definition differ_at (j : nat) (d d' : bytes) : Prop :=
  length d = length d'
  /\ forall k, k <> j -> k <> S j -> nth_error d k = nth_error d' k.

(** *** CRC-32 *)

(** A 32-bit register value. *)
Definition word (s : Z) : Prop := (0 <= s < 4294967296)%Z.

(** What the burst argument needs of the table entry of a byte [e]. *)
Definition table_ok (e : Z) : bool :=
  ((e =? 0) || ((256 <=? CRC32.step8 e)
                && negb (CRC32.step8 e mod 16777216 =? 0)))%Z.

End Notions.

Import Notions.

(** Equality of bit strings, bit by bit. *)
Ltac xor_solve :=
  apply Z.bits_inj'; intros ?n ?Hn; rewrite ?Z.lxor_spec, ?Z.bits_0;
  repeat match goal with
    | |- context [Z.testbit ?a ?n] => destruct (Z.testbit a n)
    end; reflexivity.

(** ** models.py: [generate_license_key], the legacy entry point *)

Module Legacy.
Section Legacy.

Import AdvancedLicenseKeyGenerator Models.
Context {prims : Primitives}.

(** [b.hex()]: two lowercase hexadecimal digits per byte. *)
Definition hex (b : bytes) : str :=
  flat_map
    (fun x => [Json.hex_digit (Z_of_byte x / 16);
               Json.hex_digit (Z_of_byte x mod 16)])
    b.

(** [c.upper()] on ASCII text *)
Definition upper (c : ascii) : ascii :=
  let n := Z_of_byte c in
  if ((97 <=? n) && (n <=? 122))%Z then byte_of_Z (n - 32) else c.

(** [generate_license_key(client, **kwargs)]. [random_bytes] are the bytes
    [secrets.token_hex(8)] draws; [timestamp] is [int(time.time())]. A
    [client] that is given has an [id]. *)
Definition generate_license_key (timestamp : Z) (random_bytes : bytes)
  (client : option Client) (expires_at : option Z) (max_users : Z)
  (features : Json.dict) : option str :=
  match client with
  | Some c =>
      generate_advanced_license_key timestamp (client_id c) (client_name c)
        (match client_email c with
         | Some e => e
         | None => []
         end)
        expires_at max_users features
  | None =>
      let random_part := map upper (hex random_bytes) in
      Some (lit "LIC-" ++ random_part)
  end.

End Legacy.
End Legacy.

(** ** models.py: the other methods of [License]; serializers.py:
    [LicenseSerializer] *)

Module LicenseOps.
Section LicenseOps.

Import AdvancedLicenseKeyGenerator Models.
Context {prims : Primitives}.

Definition with_usage_count (l : License) (n : Z) : License :=
  {| id := id l; key := key l; client := client l; email := email l;
     expires_at := expires_at l; is_active := is_active l;
     max_users := max_users l; features := features l;
     usage_count := n; last_used := last_used l;
     hardware_fingerprint := hardware_fingerprint l;
     ip_restrictions := ip_restrictions l;
     domain_restrictions := domain_restrictions l |}.

Definition with_is_active (l : License) (b : bool) : License :=
  {| id := id l; key := key l; client := client l; email := email l;
     expires_at := expires_at l; is_active := b;
     max_users := max_users l; features := features l;
     usage_count := usage_count l; last_used := last_used l;
     hardware_fingerprint := hardware_fingerprint l;
     ip_restrictions := ip_restrictions l;
     domain_restrictions := domain_restrictions l |}.

Definition with_ip_restrictions (l : License) (ips : list str) : License :=
  {| id := id l; key := key l; client := client l; email := email l;
     expires_at := expires_at l; is_active := is_active l;
     max_users := max_users l; features := features l;
     usage_count := usage_count l; last_used := last_used l;
     hardware_fingerprint := hardware_fingerprint l;
     ip_restrictions := ips;
     domain_restrictions := domain_restrictions l |}.

Definition with_domain_restrictions (l : License) (ds : list str) : License :=
  {| id := id l; key := key l; client := client l; email := email l;
     expires_at := expires_at l; is_active := is_active l;
     max_users := max_users l; features := features l;
     usage_count := usage_count l; last_used := last_used l;
     hardware_fingerprint := hardware_fingerprint l;
     ip_restrictions := ip_restrictions l;
     domain_restrictions := ds |}.

(** [License.reset_usage] *)
Definition reset_usage (now : Z) (db : table) (l : License)
  : db_error + (License * table) :=
  save now db (with_usage_count l 0).

(** [License.add_ip_restriction]: nothing is saved when the address is
    already listed. *)
Definition add_ip_restriction (now : Z) (db : table) (l : License)
  (ip_address : str) : db_error + (License * table) :=
  if negb (existsb (str_eqb ip_address) (ip_restrictions l)) then
    save now db (with_ip_restrictions l (ip_restrictions l ++ [ip_address]))
  else inr (l, db).

(** [License.add_domain_restriction] *)
Definition add_domain_restriction (now : Z) (db : table) (l : License)
  (domain : str) : db_error + (License * table) :=
  if negb (existsb (str_eqb domain) (domain_restrictions l)) then
    save now db
      (with_domain_restrictions l (domain_restrictions l ++ [domain]))
  else inr (l, db).

(** [LicenseSerializer.get_is_expired]: [not is_valid] of
    [obj.is_valid()], called without context. *)
Definition get_is_expired (now : Z) (l : License) : bool :=
  negb (verdict_ok (is_valid now l None None None)).

End LicenseOps.
End LicenseOps.

(** ** models.py: [LicenseManager], the remaining methods *)

Module LicenseManager.
Section LicenseManager.

Import Models.
Context {prims : Primitives}.

(** [a < b] on [str]: by code points, a proper prefix first. *)
Fixpoint str_ltb (a b : str) : bool :=
  match a, b with
  | _, [] => false
  | [], _ :: _ => true
  | x :: a', y :: b' =>
      if (Z_of_byte x <? Z_of_byte y)%Z then true
      else if (Z_of_byte y <? Z_of_byte x)%Z then false
      else str_ltb a' b'
  end.

Fixpoint insert_sorted (k : str) (l : list str) : list str :=
  match l with
  | [] => [k]
  | x :: r => if str_ltb x k then x :: insert_sorted k r else k :: l
  end.

(** [sorted(keys)] *)
Definition sorted (l : list str) : list str :=
  fold_right insert_sorted [] l.

(** [d[k]] on a [Dict[str, str]]; [None] stands for [KeyError]. *)
Fixpoint lookup (d : list (str * str)) (k : str) : option str :=
  match d with
  | [] => None
  | (k', v) :: r => if str_eqb k' k then Some v else lookup r k
  end.

(** [LicenseManager.generate_hardware_fingerprint]; the hexadecimal
    digest is the digest in hexadecimal. *)
Definition generate_hardware_fingerprint (system_info : list (str * str))
  : str :=
  let fingerprint_data :=
    map (fun key =>
           key ++ ":"%char :: match lookup system_info key with
                              | Some v => v
                              | None => []
                              end)
        (sorted (map fst system_info)) in
  let combined_data := utf8 (join ["|"%char] fingerprint_data) in
  Legacy.hex (sha256 combined_data).

(** [Client.objects.get(id=value)] on the rows of the [Client] table;
    [None] stands for [Client.DoesNotExist]. *)
Definition get_client (clients : list Client) (cid : Z) : option Client :=
  find (fun c => (client_id c =? cid)%Z) clients.

(** The dictionary [get_license_analytics] returns. The average is the
    database's [AVG] as an exact fraction; the float it is delivered as is
    not modelled. *)
Record analytics := {
  total_licenses : nat;
  active_licenses : nat;
  expired_licenses : nat;
  total_usage : Z;
  average_usage : Q
}.

Definition sum_usage (ls : table) : Z :=
  fold_right (fun l n => (usage_count l + n)%Z) 0%Z ls.

(** [LicenseManager.get_license_analytics]; [now] is [timezone.now()].
    [if client_id:] takes [None] and [0] alike. *)
Definition get_license_analytics (now : Z) (db : table)
  (cid : option Z) : analytics :=
  let licenses :=
    match cid with
    | Some c =>
        if (c =? 0)%Z then db
        else filter (fun r => (client_id (client r) =? c)%Z) db
    | None => db
    end in
  {| total_licenses := length licenses;
     active_licenses := length (filter is_active licenses);
     expired_licenses :=
       length (filter (fun r => match expires_at r with
                                | Some e => (e <? now)%Z
                                | None => false
                                end) licenses);
     total_usage := sum_usage licenses;
     average_usage :=
       match licenses with
       | [] => 0%Q
       | _ => Qmake (sum_usage licenses) (Pos.of_nat (length licenses))
       end |}.

(** [LicenseAnalyticsView.get] with [LicenseAnalyticsSerializer]: the
    analytics, or [None] for the 400 of an unknown client. A [client_id]
    that is absent or [0] is not looked up. *)
Definition analytics_get (clients : list Client) (now : Z) (db : table)
  (cid : option Z) : option analytics :=
  match cid with
  | Some v =>
      if (v =? 0)%Z then Some (get_license_analytics now db (Some v))
      else
        match get_client clients v with
        | Some _ => Some (get_license_analytics now db (Some v))
        | None => None
        end
  | None => Some (get_license_analytics now db None)
  end.

End LicenseManager.
End LicenseManager.

(** ** views.py: [LicenseViewSet] and [LicenseKeyGenerationView]

    The actions as an authenticated caller reaches them, with no filter
    backend configured. *)

Module ViewSets.
Section ViewSets.

Import AdvancedLicenseKeyGenerator Models LicenseOps.
Context {prims : Primitives}.

(** The conversion of a query parameter to the integer a filter on
    [client_id] compares with; [None] stands for the [ValueError] of a
    parameter that is no number. It belongs to the framework. *)
Variable int_of_param : str -> option Z.

(** [request.query_params], for the parameters [get_queryset] reads. *)
Record query_params := {
  q_client_id : option str;
  q_is_active : option str;
  q_expired : option str
}.

Inductive view_error :=
| Db (e : db_error)
| ValueError.                (* a [client_id] parameter that is no number *)

(** [s.lower() == 'true']: among code points below 256 only the ASCII
    capitals become ASCII letters. *)
Definition is_true_param (s : str) : bool :=
  str_eqb (map Properties.lower s) (lit "true").

(** [LicenseViewSet.get_queryset]; [now] is [timezone.now()]. *)
Definition get_queryset (now : Z) (db : table) (params : query_params)
  : view_error + table :=
  let by_client :=
    match q_client_id params with
    | Some (c :: s) =>
        match int_of_param (c :: s) with
        | Some n => inr (filter (fun r => (client_id (client r) =? n)%Z) db)
        | None => inl ValueError
        end
    | _ => inr db
    end in
  match by_client with
  | inl e => inl e
  | inr queryset =>
      let queryset :=
        match q_is_active params with
        | Some a =>
            filter (fun r => Bool.eqb (is_active r) (is_true_param a))
              queryset
        | None => queryset
        end in
      let queryset :=
        match q_expired params with
        | Some x =>
            if is_true_param x then
              filter (fun r => match expires_at r with
                               | Some e => (e <? now)%Z
                               | None => false
                               end) queryset
            else
              filter (fun r => match expires_at r with
                               | Some e => (now <=? e)%Z
                               | None => true
                               end) queryset
        | None => queryset
        end in
      inr queryset
  end.

Inductive action_response :=
| Ok200 (l : License)              (* the serialized object *)
| BadRequest400
| NotFound404
| ServerError (e : view_error).

(** [self.get_object()]: the row of the queryset with this primary key. *)
Definition get_object (now : Z) (db : table) (params : query_params)
  (pk : Z) : action_response + License :=
  match get_queryset now db params with
  | inl e => inl (ServerError e)
  | inr queryset =>
      match objects_get queryset (fun r => (id r =? pk)%Z) with
      | inl e => inl (ServerError (Db e))
      | inr None => inl NotFound404
      | inr (Some l) => inr l
      end
  end.

Definition respond (db : table) (r : db_error + (License * table))
  : action_response * table :=
  match r with
  | inl e => (ServerError (Db e), db)
  | inr (l, db') => (Ok200 l, db')
  end.

(** [LicenseViewSet.deactivate] *)
Definition deactivate (now : Z) (db : table) (params : query_params)
  (pk : Z) : action_response * table :=
  match get_object now db params pk with
  | inl r => (r, db)
  | inr license_obj => respond db (save now db (with_is_active license_obj false))
  end.

(** [LicenseViewSet.activate] *)
Definition activate (now : Z) (db : table) (params : query_params)
  (pk : Z) : action_response * table :=
  match get_object now db params pk with
  | inl r => (r, db)
  | inr license_obj => respond db (save now db (with_is_active license_obj true))
  end.

(** [LicenseViewSet.reset_usage] *)
Definition reset_usage (now : Z) (db : table) (params : query_params)
  (pk : Z) : action_response * table :=
  match get_object now db params pk with
  | inl r => (r, db)
  | inr license_obj => respond db (LicenseOps.reset_usage now db license_obj)
  end.

(** [LicenseViewSet.add_ip_restriction]; [ip_address] is
    [request.data.get('ip_address')]. *)
Definition add_ip_restriction (now : Z) (db : table) (params : query_params)
  (pk : Z) (ip_address : option str) : action_response * table :=
  match get_object now db params pk with
  | inl r => (r, db)
  | inr license_obj =>
      match ip_address with
      | Some (c :: s) =>
          respond db (LicenseOps.add_ip_restriction now db license_obj (c :: s))
      | _ => (BadRequest400, db)
      end
  end.

(** [LicenseViewSet.add_domain_restriction] *)
Definition add_domain_restriction (now : Z) (db : table)
  (params : query_params) (pk : Z) (domain : option str)
  : action_response * table :=
  match get_object now db params pk with
  | inl r => (r, db)
  | inr license_obj =>
      match domain with
      | Some (c :: s) =>
          respond db
            (LicenseOps.add_domain_restriction now db license_obj (c :: s))
      | _ => (BadRequest400, db)
      end
  end.

(** [LicenseKeyGenerationView.post]: [get_object_or_404] by primary key, a
    new key from the record's fields, saved over the old one. *)
Definition regenerate_key (now : Z) (db : table) (license_id : Z)
  : action_response * table :=
  match objects_get db (fun r => (id r =? license_id)%Z) with
  | inl e => (ServerError (Db e), db)
  | inr None => (NotFound404, db)
  | inr (Some license_obj) =>
      match generate_advanced_license_key (int_seconds now)
              (client_id (client license_obj))
              (client_name (client license_obj))
              (first_truthy (email license_obj)
                 (client_email (client license_obj)))
              (expires_at license_obj) (max_users license_obj)
              (features license_obj) with
      | None => (ServerError (Db StructError), db)
      | Some new_key =>
          respond db (save now db (with_key license_obj new_key))
      end
  end.

End ViewSets.
End ViewSets.

(** ** serializers.py and views.py: bulk creation *)

Module BulkCreate.
Section BulkCreate.

Import Models LicenseManager.
Context {prims : Primitives}.

(** The fields of a [BulkLicenseCreateSerializer] after parsing;
    [max_users] and [features] carry their defaults. *)
Record bulk_request := {
  b_client_id : Z;
  b_count : Z;
  b_expires_at : option Z;
  b_max_users : Z;
  b_features : Json.dict
}.

(** [serializer.is_valid()]: the declared bounds of [count] and
    [max_users], and [validate_client_id]. *)
Definition is_valid_request (clients : list Client) (rq : bulk_request)
  : bool :=
  (1 <=? b_count rq)%Z && (b_count rq <=? 100)%Z
  && (1 <=? b_max_users rq)%Z
  && match get_client clients (b_client_id rq) with
     | Some _ => true
     | None => false
     end.

Inductive bulk_error :=
| DbError (e : db_error)
| ClientDoesNotExist.

Inductive bulk_response :=
| Created201 (created_count : nat) (licenses : list License)
| BadRequest400
| Uncaught (e : bulk_error).

(** [BulkLicenseCreateView.post] with [BulkLicenseCreateSerializer.create];
    [clock] and [uuid] are as in [bulk_generate_licenses]. No transaction
    is opened: when a [save] raises, the licences saved before it stay. *)
Definition post (clock uuid : nat -> Z) (clients : list Client) (db : table)
  (rq : bulk_request) : bulk_response * table :=
  if is_valid_request clients rq then
    match get_client clients (b_client_id rq) with
    | None => (Uncaught ClientDoesNotExist, db)
    | Some client =>
        match bulk_generate_licenses clock uuid db client (b_count rq)
                (b_expires_at rq) (b_max_users rq) (b_features rq) with
        | inl (e, db') => (Uncaught (DbError e), db')
        | inr (licenses, db') => (Created201 (length licenses) licenses, db')
        end
    end
  else (BadRequest400, db).

End BulkCreate.
End BulkCreate.

(** ** The rules of [License.is_valid], one by one *)

Module Rules.
Import Models.

(** "IP address not authorized": an address is given, the list is not
    empty, and the address is not in it. *)
Definition ip_refused (ip_address : option str) (l : License) : bool :=
  match ip_address, ip_restrictions l with
  | Some (c :: ip), _ :: _ =>
      negb (existsb (str_eqb (c :: ip)) (ip_restrictions l))
  | _, _ => false
  end.

(** "Domain not authorized": a domain is given, the list is not empty, and
    the domain ends with none of its entries. *)
Definition domain_refused (domain : option str) (l : License) : bool :=
  match domain, domain_restrictions l with
  | Some (c :: d), _ :: _ =>
      negb (existsb (endswith (c :: d)) (domain_restrictions l))
  | _, _ => false
  end.

(** "Hardware fingerprint mismatch": both fingerprints are set and they
    differ. *)
Definition hardware_refused (hardware_fp : option str) (l : License)
  : bool :=
  truthy (hardware_fingerprint l) && truthy hardware_fp
  && negb (match hardware_fingerprint l, hardware_fp with
           | Some a, Some b => str_eqb a b
           | _, _ => false
           end).

(** The record-level expiry rule. *)
Definition record_expired (now : Z) (l : License) : bool :=
  match expires_at l with
  | Some e => (e <? now)%Z
  | None => false
  end.

End Rules.

(** Case analysis along the rules of [is_valid], once it is written rule by
    rule. *)
Ltac rules :=
  destruct (Models.is_active _) eqn:?E; cbn [negb];
  repeat match goal with
    | |- context [if ?b then _ else _] => destruct b eqn:?E
    | |- context [match AdvancedLicenseKeyGenerator.validate_license_key ?a ?b
                  with _ => _ end] =>
        destruct (AdvancedLicenseKeyGenerator.validate_license_key a b)
          as [?e|?md] eqn:?E
    end;
  try discriminate.

Ltac bounds :=
  repeat match goal with
    | H : (_ <=? _)%Z = true |- _ => apply Z.leb_le in H
    | H : (_ <=? _)%Z = false |- _ => apply Z.leb_gt in H
    end.

(** ** Sample data *)

Module Data.
Import AdvancedLicenseKeyGenerator Models Views.

Definition sp : Primitives := Sample.primitives.

(** A token for client 7 without expiry, and one that expires. *)
Definition t0 : Z := 1700000000.
Definition acme : Client :=
  {| client_id := 7; client_name := lit "Acme"; client_email := None |}.

Definition key_of (expires : option Z) : str :=
  match @generate_advanced_license_key sp t0 7 (lit "Acme") [] expires 1 [] with
  | Some k => k
  | None => []
  end.

Definition payload0 : bytes :=
  match @final_payload sp t0 7 (lit "Acme") [] None 1 [] with
  | Some p => p
  | None => []
  end.

Definition license_with (expires : option Z) (seats : Z) : License :=
  {| id := 1; key := key_of expires; client := acme; email := None;
     expires_at := expires; is_active := true; max_users := seats;
     features := []; usage_count := 0; last_used := None;
     hardware_fingerprint := None; ip_restrictions := [];
     domain_restrictions := [] |}.

Definition request (fp : option str) : usage_request :=
  {| license_key := key_of None; ip_address := None;
     req_hardware_fingerprint := fp |}.

Definition two_orders : Json.dict * Json.dict :=
  ([(lit "b", Json.Int 1); (lit "a", Json.Int 2)],
   [(lit "a", Json.Int 2); (lit "b", Json.Int 1)]).

Definition quoted (s : string) : str :=
  Json.dquote :: lit s ++ [Json.dquote].

End Data.

(** * Checks of the embedding on known values *)

Example crc32_check :
  CRC32.crc32 (lit "123456789") = 3421780262%Z.
Proof. reflexivity. Qed.

Example b32encode_foobar :
  Base32.b32encode (lit "foobar") = lit "MZXW6YTBOI======".
Proof. reflexivity. Qed.

Example b32decode_foobar :
  Base32.b32decode (lit "MZXW6YTBOI======") = inr (lit "foobar").
Proof. reflexivity. Qed.

Example dumps_example :
  Json.dumps (Json.Obj [(lit "b", Json.Int (-12)); (lit "a", Json.Arr [Json.Bool true; Json.Null]);
                        (lit "s", Json.Str (ascii_of_nat 34 :: ascii_of_nat 10 :: ascii_of_nat 233 :: lit "x"))])
  = lit "{" ++ Json.dumps_string (lit "b") ++ lit ":-12," ++ Json.dumps_string (lit "a")
    ++ lit ":[true,null]," ++ Json.dumps_string (lit "s") ++ lit ":"
    ++ [Json.dquote] ++ lit "\" ++ [Json.dquote] ++ lit "\n\u00e9x" ++ [Json.dquote] ++ lit "}".
Proof. reflexivity. Qed.

Example loads_example :
  let v := Json.Obj [(lit "b", Json.Int (-12)); (lit "a", Json.Arr [Json.Bool true; Json.Null; Json.Obj []]);
                        (lit "s", Json.Str (ascii_of_nat 34 :: ascii_of_nat 10 :: ascii_of_nat 233 :: lit "x"))] in
  Json.loads (Json.dumps v) = Some v.
Proof. reflexivity. Qed.

(** The last microsecond of a second, in the year 2600 and at
    [datetime.max]: the float is the next whole second. *)
Example int_seconds_rounds :
  int_seconds 19880899200999999 = 19880899201%Z
  /\ int_seconds 253402300799999999 = 253402300800%Z
  /\ int_seconds 1700000000999999 = 1700000000%Z.
Proof. repeat split. Qed.

(** * Facts about the embedded code *)

(** ** Whole seconds through a [float] *)

Module Seconds.
Local Open Scope Z_scope.

Lemma round_half_even_near n d :
  0 < d ->
  2 * d * round_half_even n d - d <= 2 * n <= 2 * d * round_half_even n d + d.
Proof.
  intros Hd. unfold round_half_even.
  pose proof (Z.div_mod n d ltac:(lia)) as E.
  pose proof (Z.mod_pos_bound n d Hd) as B.
  destruct (2 * (n mod d) <? d) eqn:E1;
    [apply Z.ltb_lt in E1|apply Z.ltb_ge in E1].
  - nia.
  - destruct (d <? 2 * (n mod d)) eqn:E2;
      [apply Z.ltb_lt in E2|apply Z.ltb_ge in E2].
    + nia.
    + destruct (Z.even (n / d)); nia.
Qed.

Lemma round_half_even_between n d :
  0 < d -> n / d <= round_half_even n d <= n / d + 1.
Proof.
  intros Hd. unfold round_half_even.
  destruct (_ <? d); [lia|]. destruct (d <? _); [lia|].
  destruct (Z.even _); lia.
Qed.

Lemma round_half_even_mono n1 n2 d :
  0 < d -> n1 <= n2 -> round_half_even n1 d <= round_half_even n2 d.
Proof.
  intros Hd Hn. destruct (Z.eq_dec n1 n2) as [->|Hne]; [lia|].
  pose proof (round_half_even_near n1 d Hd).
  pose proof (round_half_even_near n2 d Hd).
  nia.
Qed.

Lemma round_half_even_ge n d a :
  0 < d -> a * d <= n -> a <= round_half_even n d.
Proof.
  intros Hd H. pose proof (round_half_even_between n d Hd).
  assert (a <= n / d) by (apply Z.div_le_lower_bound; lia). lia.
Qed.

Lemma round_half_even_le n d a :
  0 < d -> n < a * d -> round_half_even n d <= a.
Proof.
  intros Hd H. pose proof (round_half_even_between n d Hd).
  assert (n / d < a) by (apply Z.div_lt_upper_bound; lia). lia.
Qed.

(** The binade of the quotient. *)
Lemma binade n :
  1000000 <= n ->
  0 <= Z.log2 (n / 1000000)
  /\ 1000000 * 2 ^ Z.log2 (n / 1000000) <= n
     < 1000000 * 2 ^ (Z.log2 (n / 1000000) + 1).
Proof.
  intros Hn.
  assert (Hq : 0 < n / 1000000) by (apply Z.div_str_pos; lia).
  pose proof (Z.log2_spec _ Hq) as [L U].
  pose proof (Z.log2_nonneg (n / 1000000)).
  rewrite <- Z.add_1_r in U.
  pose proof (Z.div_mod n 1000000 ltac:(lia)).
  pose proof (Z.mod_pos_bound n 1000000 ltac:(lia)).
  split; [assumption|]. lia.
Qed.

Lemma seconds_of_binade n :
  1000000 <= n ->
  2 ^ Z.log2 (n / 1000000) <= seconds_of n <= 2 ^ (Z.log2 (n / 1000000) + 1).
Proof.
  intros Hn. destruct (binade n Hn) as (Hk & L & U).
  unfold seconds_of. rewrite (proj2 (Z.ltb_ge n 1000000)) by lia.
  set (k := Z.log2 (n / 1000000)) in *. cbv zeta.
  destruct (0 <=? k - 52) eqn:E; [apply Z.leb_le in E|apply Z.leb_gt in E].
  - assert (Hp : 0 < 2 ^ (k - 52)) by (apply Z.pow_pos_nonneg; lia).
    assert (E1 : 2 ^ k = 2 ^ 52 * 2 ^ (k - 52))
      by (rewrite <- Z.pow_add_r by lia; f_equal; lia).
    assert (E2 : 2 ^ (k + 1) = 2 ^ 53 * 2 ^ (k - 52))
      by (rewrite <- Z.pow_add_r by lia; f_equal; lia).
    assert (2 ^ 52 <= round_half_even n (1000000 * 2 ^ (k - 52)))
      by (apply round_half_even_ge; nia).
    assert (round_half_even n (1000000 * 2 ^ (k - 52)) <= 2 ^ 53)
      by (apply round_half_even_le; nia).
    rewrite E1, E2. nia.
  - assert (Hp : 0 < 2 ^ (- (k - 52))) by (apply Z.pow_pos_nonneg; lia).
    assert (E1 : 2 ^ 52 = 2 ^ k * 2 ^ (- (k - 52)))
      by (rewrite <- Z.pow_add_r by lia; f_equal; lia).
    assert (E2 : 2 ^ 53 = 2 ^ (k + 1) * 2 ^ (- (k - 52)))
      by (rewrite <- Z.pow_add_r by lia; f_equal; lia).
    assert (2 ^ 52 <= round_half_even (n * 2 ^ (- (k - 52))) 1000000)
      by (apply round_half_even_ge; nia).
    assert (round_half_even (n * 2 ^ (- (k - 52))) 1000000 <= 2 ^ 53)
      by (apply round_half_even_le; nia).
    split.
    + apply Z.div_le_lower_bound; [lia|]. lia.
    + apply Z.div_le_upper_bound; [lia|]. lia.
Qed.

Lemma seconds_of_nonneg n : 0 <= seconds_of n.
Proof.
  destruct (Z.lt_ge_cases n 1000000) as [H|H].
  - unfold seconds_of. rewrite (proj2 (Z.ltb_lt _ _) H). lia.
  - pose proof (seconds_of_binade n H).
    assert (0 < 2 ^ Z.log2 (n / 1000000))
      by (apply Z.pow_pos_nonneg; [lia|apply Z.log2_nonneg]).
    lia.
Qed.

Lemma seconds_of_mono n1 n2 : n1 <= n2 -> seconds_of n1 <= seconds_of n2.
Proof.
  intros Hn. destruct (Z.lt_ge_cases n1 1000000) as [H1|H1].
  { unfold seconds_of at 1. rewrite (proj2 (Z.ltb_lt _ _) H1).
    apply seconds_of_nonneg. }
  assert (H2 : 1000000 <= n2) by lia.
  pose proof (seconds_of_binade n1 H1) as B1.
  pose proof (seconds_of_binade n2 H2) as B2.
  assert (Hq : n1 / 1000000 <= n2 / 1000000)
    by (apply Z.div_le_mono; lia).
  pose proof (Z.log2_le_mono _ _ Hq) as Hk.
  pose proof (Z.log2_nonneg (n1 / 1000000)) as Hk0.
  destruct (Z.eq_dec (Z.log2 (n1 / 1000000)) (Z.log2 (n2 / 1000000)))
    as [E|E].
  - unfold seconds_of.
    rewrite (proj2 (Z.ltb_ge n1 1000000)), (proj2 (Z.ltb_ge n2 1000000))
      by lia.
    cbv zeta. rewrite <- E. set (k := Z.log2 (n1 / 1000000)) in *.
    destruct (0 <=? k - 52) eqn:E0; [apply Z.leb_le in E0|apply Z.leb_gt in E0].
    + assert (Hp : 0 < 2 ^ (k - 52)) by (apply Z.pow_pos_nonneg; lia).
      apply Z.mul_le_mono_nonneg_r; [lia|].
      apply round_half_even_mono; lia.
    + assert (Hp : 0 < 2 ^ (- (k - 52))) by (apply Z.pow_pos_nonneg; lia).
      apply Z.div_le_mono; [lia|].
      apply round_half_even_mono; nia.
  - assert (2 ^ (Z.log2 (n1 / 1000000) + 1) <= 2 ^ Z.log2 (n2 / 1000000))
      by (apply Z.pow_le_mono_r; lia).
    lia.
Qed.

Lemma int_seconds_mono a b : a <= b -> int_seconds a <= int_seconds b.
Proof.
  intros H. unfold int_seconds.
  pose proof (seconds_of_nonneg (Z.abs a)).
  pose proof (seconds_of_nonneg (Z.abs b)).
  destruct (Z.sgn_spec a) as [[Ha ->]|[[Ha ->]|[Ha ->]]];
    destruct (Z.sgn_spec b) as [[Hb ->]|[[Hb ->]|[Hb ->]]]; try lia.
  - pose proof (seconds_of_mono (Z.abs a) (Z.abs b) ltac:(lia)). lia.
  - pose proof (seconds_of_mono (Z.abs b) (Z.abs a) ltac:(lia)). lia.
Qed.

(** Until the year 2514 the float is exact enough: the whole seconds. *)
Lemma int_seconds_exact us :
  0 <= us < 17179869184000000 -> int_seconds us = us / 1000000.
Proof.
  intros [H0 H1]. unfold int_seconds.
  destruct (Z.eq_dec us 0) as [->|Hne]; [reflexivity|].
  rewrite Z.sgn_pos, Z.abs_eq, Z.mul_1_l by lia.
  unfold seconds_of.
  destruct (us <? 1000000) eqn:E; [apply Z.ltb_lt in E|apply Z.ltb_ge in E].
  { symmetry. apply Z.div_small. lia. }
  destruct (binade us E) as (Hk & L & U).
  set (k := Z.log2 (us / 1000000)) in *. cbv zeta.
  assert (Hk34 : k < 34).
  { apply Z.log2_lt_pow2; [apply Z.div_str_pos; lia|].
    apply Z.div_lt_upper_bound; lia. }
  rewrite (proj2 (Z.leb_gt 0 (k - 52))) by lia.
  set (s := - (k - 52)).
  assert (Hs : 19 <= s) by (unfold s; lia).
  assert (Hp : 2 ^ 19 <= 2 ^ s) by (apply Z.pow_le_mono_r; lia).
  assert (Hp0 : 0 < 2 ^ s) by lia.
  pose proof (Z.div_mod us 1000000 ltac:(lia)) as Ed.
  pose proof (Z.mod_pos_bound us 1000000 ltac:(lia)) as Bd.
  set (q := us / 1000000) in *. set (r := us mod 1000000) in *.
  pose proof (round_half_even_near (us * 2 ^ s) 1000000 ltac:(lia)) as Hr.
  set (m := round_half_even (us * 2 ^ s) 1000000) in *.
  assert (q * 2 ^ s <= m)
    by (apply round_half_even_ge; [lia|]; nia).
  assert (m < (q + 1) * 2 ^ s) by (change (2 ^ 19) with 524288 in Hp; nia).
  symmetry. apply Z.div_unique with (r := m - q * 2 ^ s); [lia|]. lia.
Qed.

Lemma int_seconds_whole s :
  0 <= s < 17179869184 -> int_seconds (s * 1000000) = s.
Proof.
  intros H. rewrite int_seconds_exact by lia. apply Z.div_mul. lia.
Qed.

End Seconds.

Lemma ascii_eqb_refl a : ascii_eqb a a = true.
Proof. apply Ascii.eqb_refl. Qed.

Lemma ascii_eqb_eq a b : ascii_eqb a b = true <-> a = b.
Proof. apply Ascii.eqb_eq. Qed.

Lemma ascii_eqb_neq a b : ascii_eqb a b = false <-> a <> b.
Proof. apply Ascii.eqb_neq. Qed.

Lemma str_eqb_eq s t : str_eqb s t = true <-> s = t.
Proof.
  revert t; induction s as [|a s IH]; intros [|b t]; simpl; split; intro H;
    try discriminate; try reflexivity.
  - apply andb_true_iff in H as [H1 H2].
    apply ascii_eqb_eq in H1. apply IH in H2. congruence.
  - injection H as -> ->. rewrite ascii_eqb_refl. simpl. now apply IH.
Qed.

Lemma str_eqb_refl s : str_eqb s s = true.
Proof. now apply str_eqb_eq. Qed.

Module Base32Facts.
Import Base32.

Lemma bits_of_char5 a b c d e :
  bits_of_char (char5 a b c d e) = Some [a; b; c; d; e].
Proof. destruct a, b, c, d, e; reflexivity. Qed.

Lemma char5_not_pad a b c d e : char5 a b c d e <> pad.
Proof. destruct a, b, c, d, e; discriminate. Qed.

Lemma char5_not_dash a b c d e : char5 a b c d e <> "-"%char.
Proof. destruct a, b, c, d, e; discriminate. Qed.

(** Induction on bit strings five bits at a time. *)
Lemma list_ind5 {A} (P : list A -> Prop) :
  P [] ->
  (forall a, P [a]) -> (forall a b, P [a; b]) -> (forall a b c, P [a; b; c]) ->
  (forall a b c d, P [a; b; c; d]) ->
  (forall a b c d e r, P r -> P (a :: b :: c :: d :: e :: r)) ->
  forall l, P l.
Proof.
  intros H0 H1 H2 H3 H4 H5.
  fix IH 1. intros l.
  destruct l as [|a [|b [|c [|d [|e r]]]]].
  - exact H0.
  - apply H1.
  - apply H2.
  - apply H3.
  - apply H4.
  - apply H5. apply IH.
Qed.

Lemma bits_of_chars_of_bits bits :
  exists z, length z < 5 /\
    bits_of_chars (chars_of_bits bits) = Some (bits ++ z).
Proof.
  induction bits as [|a|a b|a b c|a b c d|a b c d e r IH] using list_ind5.
  - exists []. simpl. split; [lia|reflexivity].
  - exists [false; false; false; false]. simpl. rewrite bits_of_char5.
    split; [simpl; lia|reflexivity].
  - exists [false; false; false]. simpl. rewrite bits_of_char5.
    split; [simpl; lia|reflexivity].
  - exists [false; false]. simpl. rewrite bits_of_char5.
    split; [simpl; lia|reflexivity].
  - exists [false]. simpl. rewrite bits_of_char5.
    split; [simpl; lia|reflexivity].
  - destruct IH as (z & Hz & E). exists z. split; [exact Hz|].
    cbn [chars_of_bits bits_of_chars]. rewrite bits_of_char5, E. reflexivity.
Qed.

Lemma chars_of_bits_length bits :
  length (chars_of_bits bits) = (length bits + 4) / 5.
Proof.
  induction bits as [|a|a b|a b c|a b c d|a b c d e r IH] using list_ind5;
    try reflexivity.
  cbn [chars_of_bits length]. rewrite IH.
  replace (S (S (S (S (S (length r))))) + 4) with ((length r + 4) + 1 * 5) by lia.
  rewrite Nat.div_add by lia. lia.
Qed.

Lemma chars_of_bits_clean bits :
  Forall (fun c => c <> pad /\ c <> "-"%char) (chars_of_bits bits).
Proof.
  induction bits as [|a|a b|a b c|a b c d|a b c d e r IH] using list_ind5;
    cbn [chars_of_bits]; repeat constructor;
    auto using char5_not_pad, char5_not_dash.
Qed.

Lemma bytes_of_bits_short z : length z < 8 -> bytes_of_bits z = [].
Proof.
  intros H. do 8 (destruct z as [|? z]; [reflexivity|]). simpl in H. lia.
Qed.

Lemma bytes_of_bits_of_bytes data z :
  length z < 8 -> bytes_of_bits (bits_of_bytes data ++ z) = data.
Proof.
  intros Hz. induction data as [|[b0 b1 b2 b3 b4 b5 b6 b7] data IH].
  - simpl. now apply bytes_of_bits_short.
  - simpl. f_equal. exact IH.
Qed.

Lemma bits_of_bytes_length data : length (bits_of_bytes data) = 8 * length data.
Proof.
  induction data as [|[b0 b1 b2 b3 b4 b5 b6 b7] data IH]; simpl; [reflexivity|].
  simpl in IH. rewrite IH. lia.
Qed.

Lemma rstrip_clean c s : Forall (fun x => x <> c) s -> rstrip c s = s.
Proof.
  induction 1 as [|x s Hx Hs IH]; [reflexivity|].
  simpl. rewrite IH. destruct s; [|reflexivity].
  apply ascii_eqb_neq in Hx. now rewrite Hx.
Qed.

Lemma rstrip_repeat c n : rstrip c (repeat c n) = [].
Proof.
  induction n; simpl; [reflexivity|]. rewrite IHn. now rewrite ascii_eqb_refl.
Qed.

Lemma rstrip_app_repeat c s n :
  Forall (fun x => x <> c) s -> rstrip c (s ++ repeat c n) = s.
Proof.
  induction 1 as [|x s Hx Hs IH]; simpl.
  - apply rstrip_repeat.
  - rewrite IH. destruct s; [|reflexivity].
    apply ascii_eqb_neq in Hx. now rewrite Hx.
Qed.

Lemma pad_count_total n : (n + pad_count n) mod 8 = 0.
Proof.
  unfold pad_count.
  pose proof (Nat.div_mod_eq n 8) as E.
  pose proof (Nat.mod_upper_bound n 8 ltac:(lia)) as Hr.
  set (q := n / 8) in *. set (r := n mod 8) in *. clearbody q r. subst n.
  assert (Hc : r = 0 \/ r = 1 \/ r = 2 \/ r = 3 \/ r = 4 \/ r = 5 \/ r = 6
               \/ r = 7) by lia.
  assert (Hk : forall k, (8 * q + k) mod 8 = k mod 8).
  { intros k. rewrite Nat.add_comm, Nat.mul_comm. apply Nat.Div0.mod_add. }
  destruct Hc as [->|[->|[->|[->|[->|[->|[->| ->]]]]]]];
    rewrite <- Nat.add_assoc, Hk; reflexivity.
Qed.

Lemma pad_count_valid n :
  valid_padchars (pad_count ((8 * n + 4) / 5)) = true.
Proof.
  unfold pad_count.
  pose proof (Nat.div_mod_eq n 5) as E.
  pose proof (Nat.mod_upper_bound n 5 ltac:(lia)) as Hr.
  set (q := n / 5) in *. set (r := n mod 5) in *. clearbody q r.
  assert (Hm : ((8 * n + 4) / 5) mod 8 = ((8 * r + 4) / 5) mod 8).
  { replace (8 * n + 4) with ((8 * r + 4) + (8 * q) * 5) by lia.
    rewrite Nat.div_add by lia.
    rewrite (Nat.mul_comm 8 q), Nat.Div0.mod_add. reflexivity. }
  rewrite Hm.
  assert (Hc : r = 0 \/ r = 1 \/ r = 2 \/ r = 3 \/ r = 4) by lia.
  destruct Hc as [->|[->|[->|[->| ->]]]]; reflexivity.
Qed.

Lemma b32decode_b32encode data : b32decode (b32encode data) = inr data.
Proof.
  unfold b32decode, b32encode.
  set (cs := chars_of_bits (bits_of_bytes data)).
  assert (Hclean : Forall (fun x => x <> pad) cs).
  { eapply Forall_impl; [|apply chars_of_bits_clean]. now intros c [H _]. }
  rewrite length_app, repeat_length, pad_count_total. cbn [Nat.eqb negb].
  rewrite rstrip_app_repeat by exact Hclean.
  destruct (bits_of_chars_of_bits (bits_of_bytes data)) as (z & Hz & E).
  fold cs in E. rewrite E.
  replace (length cs + pad_count (length cs) - length cs)
    with (pad_count (length cs)) by lia.
  unfold cs. rewrite chars_of_bits_length, bits_of_bytes_length, pad_count_valid.
  rewrite bytes_of_bits_of_bytes by lia. reflexivity.
Qed.

End Base32Facts.

Module JsonScalars.
Import Json.

Lemma cons_to_some {A} c s (x : A) : cons_to c (Some (s, x)) = Some (c :: s, x).
Proof. reflexivity. Qed.

Lemma parse_escape c tl :
  parse_string_body (escape c ++ tl) = cons_to c (parse_string_body tl).
Proof.
  destruct c as [[] [] [] [] [] [] [] []]; reflexivity.
Qed.

Lemma parse_string_body_escaped s rest :
  parse_string_body (flat_map escape s ++ dquote :: rest) = Some (s, rest).
Proof.
  induction s as [|c s IH]; [reflexivity|].
  cbn [flat_map]. rewrite <- app_assoc, parse_escape, IH. reflexivity.
Qed.

Lemma parse_dumps_string s rest :
  parse_string_body (tl (dumps_string s) ++ rest) = Some (s, rest).
Proof.
  unfold dumps_string. cbn [tl]. rewrite <- app_assoc.
  apply parse_string_body_escaped.
Qed.

(** Integers *)

Lemma digits_are_digits u : Forall (fun c => is_digit c = true) (digits_of u).
Proof.
  unfold digits_of. induction u; cbn; constructor; auto.
Qed.

Lemma span_digits_app ds rest :
  Forall (fun c => is_digit c = true) ds -> not_number_char rest ->
  span_digits (ds ++ rest) = (ds, rest).
Proof.
  intros Hd Hr. induction Hd as [|c ds Hc Hd IH]; cbn [app span_digits].
  - destruct rest as [|c r]; [reflexivity|]. destruct Hr as [Hc _].
    cbn [span_digits]. now rewrite Hc.
  - rewrite Hc, IH. reflexivity.
Qed.

Lemma to_uint_unorm p : Decimal.unorm (Pos.to_uint p) = Pos.to_uint p.
Proof.
  rewrite <- (DecimalPos.Unsigned.to_of (Pos.to_uint p)).
  rewrite DecimalPos.Unsigned.of_to. reflexivity.
Qed.

Lemma unorm_leading u :
  leading_zero (digits_of (Decimal.unorm u)) = false.
Proof.
  unfold Decimal.unorm.
  pose proof (nzhead_nonzero u) as H.
  destruct (Decimal.nzhead u) as [|d|d|d|d|d|d|d|d|d|d] eqn:E; try reflexivity;
    try (unfold digits_of; cbn; destruct (list_ascii_of_string _); reflexivity).
  exfalso. now apply (H d).
Qed.

Lemma uint_of_digits_of u :
  u <> Decimal.Nil -> uint_of_digits (digits_of u) = Some u.
Proof.
  intros H. unfold uint_of_digits, digits_of.
  rewrite string_of_list_ascii_of_string.
  replace (NilEmpty.string_of_uint u) with (NilZero.string_of_uint u)
    by (destruct u; [contradiction|reflexivity..]).
  now apply NilZero.usu.
Qed.

Lemma digits_nonempty u : u <> Decimal.Nil -> digits_of u <> [].
Proof. destruct u; [contradiction|discriminate..]. Qed.

Lemma digit_not_minus c : is_digit c = true -> ascii_eqb c "-"%char = false.
Proof. destruct c as [[] [] [] [] [] [] [] []]; (discriminate || reflexivity). Qed.

Lemma parse_digits_of (neg : bool) u rest :
  u <> Decimal.Nil -> Decimal.unorm u = u -> not_number_char rest ->
  parse_digits neg (digits_of u ++ rest)
  = Some (Z.of_int (if neg then Decimal.Neg u else Decimal.Pos u), rest).
Proof.
  intros Hn Hu Hr. unfold parse_digits.
  assert (Hd := digits_are_digits u).
  assert (He := digits_nonempty u Hn).
  rewrite span_digits_app by assumption.
  assert (Hl : leading_zero (digits_of u) = false)
    by (rewrite <- Hu; apply unorm_leading).
  assert (Hf : starts_fraction rest = false).
  { destruct rest; [reflexivity|]. apply Hr. }
  rewrite Hl, Hf, uint_of_digits_of by assumption.
  destruct (digits_of u); [contradiction|reflexivity].
Qed.

Lemma parse_int_digits (neg : bool) u rest :
  u <> Decimal.Nil -> Decimal.unorm u = u -> not_number_char rest ->
  parse_int ((if neg then ["-"%char] else []) ++ digits_of u ++ rest)
  = Some (Z.of_int (if neg then Decimal.Neg u else Decimal.Pos u), rest).
Proof.
  intros Hn Hu Hr. destruct neg.
  - cbn [app parse_int]. rewrite ascii_eqb_refl. now apply parse_digits_of.
  - cbn [app]. rewrite <- (parse_digits_of false u rest) by assumption.
    assert (Hd := digits_are_digits u).
    assert (He := digits_nonempty u Hn).
    destruct (digits_of u) as [|c ds]; [contradiction|].
    cbn [app parse_int]. inversion Hd as [|? ? Hc _]; subst.
    now rewrite (digit_not_minus c Hc).
Qed.

Lemma str_of_int_shape z :
  exists (neg : bool) u, u <> Decimal.Nil /\ Decimal.unorm u = u
    /\ Z.to_int z = (if neg then Decimal.Neg u else Decimal.Pos u)
    /\ str_of_int z = (if neg then ["-"%char] else []) ++ digits_of u.
Proof.
  unfold str_of_int. destruct z as [|p|p].
  - exists false, (Decimal.D0 Decimal.Nil). repeat split. discriminate.
  - exists false, (Pos.to_uint p). repeat split.
    + apply Unsigned.to_uint_nonnil.
    + apply to_uint_unorm.
    + cbn. pose proof (Unsigned.to_uint_nonnil p).
      destruct (Pos.to_uint p); [contradiction|reflexivity..].
  - exists true, (Pos.to_uint p). repeat split.
    + apply Unsigned.to_uint_nonnil.
    + apply to_uint_unorm.
    + cbn. pose proof (Unsigned.to_uint_nonnil p).
      destruct (Pos.to_uint p); [contradiction|reflexivity..].
Qed.

Lemma parse_int_str_of_int z rest :
  not_number_char rest -> parse_int (str_of_int z ++ rest) = Some (z, rest).
Proof.
  intros Hr. destruct (str_of_int_shape z) as (neg & u & Hn & Hu & Ez & Es).
  rewrite Es, <- app_assoc, parse_int_digits by assumption.
  rewrite <- Ez, DecimalZ.of_to. reflexivity.
Qed.

End JsonScalars.

Module JsonRoundTrip.
Import Json JsonScalars.

Lemma value_ind' (P : value -> Prop) :
  P Null -> (forall b, P (Bool b)) -> (forall z, P (Int z)) ->
  (forall s, P (Str s)) ->
  (forall l, Forall P l -> P (Arr l)) ->
  (forall m, Forall (fun kv => P (snd kv)) m -> P (Obj m)) ->
  forall v, P v.
Proof.
  intros HN HB HI HS HA HO. fix IH 1. intros [|b|z|s|l|m].
  - exact HN.
  - apply HB.
  - apply HI.
  - apply HS.
  - apply HA. revert l. fix IHl 1. intros [|x l].
    + constructor.
    + constructor; [apply IH|apply IHl].
  - apply HO. revert m. fix IHm 1. intros [|[k x] m].
    + constructor.
    + constructor; [apply IH|apply IHm].
Qed.

(** Keys *)

Lemma dict_set_fresh d k v :
  existsb (fun k' => str_eqb k' k) (map fst d) = false ->
  dict_set d k v = d ++ [(k, v)].
Proof.
  induction d as [|[k' v'] d IH]; cbn [map fst existsb dict_set app];
    [reflexivity|].
  intros H. apply orb_false_iff in H as [H1 H2].
  rewrite H1, IH by exact H2. reflexivity.
Qed.

Lemma distinct_app_cons ks k r :
  distinct (ks ++ k :: r) = true ->
  existsb (fun k' => str_eqb k' k) ks = false
  /\ distinct ((ks ++ [k]) ++ r) = true.
Proof.
  intros H. split.
  - induction ks as [|k0 ks IH]; [reflexivity|].
    cbn [app distinct existsb] in *.
    apply andb_true_iff in H as [H1 H2].
    rewrite IH by exact H2. rewrite orb_false_r.
    apply negb_true_iff in H1. rewrite existsb_app in H1.
    apply orb_false_iff in H1 as [_ H1]. cbn [existsb] in H1.
    now apply orb_false_iff in H1 as [H1 _].
  - now rewrite <- app_assoc.
Qed.

Lemma dict_fold_distinct m : forall d,
  distinct (map fst d ++ map fst m) = true ->
  fold_left (fun d kv => dict_set d (fst kv) (snd kv)) m d = d ++ m.
Proof.
  induction m as [|[k v] m IH]; intros d H; cbn [fold_left fst snd map] in *.
  - now rewrite app_nil_r.
  - apply distinct_app_cons in H as [H1 H2].
    rewrite dict_set_fresh by exact H1.
    rewrite IH.
    + now rewrite <- app_assoc.
    + now rewrite map_app.
Qed.

Lemma dict_of_pairs_distinct m :
  distinct (map fst m) = true -> dict_of_pairs m = m.
Proof. intros H. unfold dict_of_pairs. now rewrite dict_fold_distinct. Qed.

(** Heads *)

Lemma terminated_not_number rest : terminated rest -> not_number_char rest.
Proof.
  destruct rest as [|c r]; [trivial|]. intros [->|[->| ->]]; split; reflexivity.
Qed.

Lemma str_of_int_head z :
  exists c r, str_of_int z = c :: r /\ number_head c.
Proof.
  destruct (str_of_int_shape z) as (neg & u & Hn & _ & _ & Es). rewrite Es.
  destruct neg; cbn [app].
  - eexists _, _. split; [reflexivity|]. now left.
  - pose proof (digits_are_digits u) as Hd.
    pose proof (digits_nonempty u Hn) as He.
    destruct (digits_of u) as [|c ds]; [contradiction|].
    exists c, ds. split; [reflexivity|]. right. now inversion Hd.
Qed.

Lemma number_head_dispatch c :
  number_head c ->
  ascii_eqb c "n" = false /\ ascii_eqb c "t" = false /\ ascii_eqb c "f" = false
  /\ ascii_eqb c dquote = false /\ ascii_eqb c "[" = false
  /\ ascii_eqb c "{" = false /\ ascii_eqb c "]" = false.
Proof.
  intros [->|H]; [repeat split|].
  destruct c as [[] [] [] [] [] [] [] []]; try discriminate H; repeat split.
Qed.

Lemma dumps_head v :
  exists c r, dumps v = c :: r /\ ascii_eqb c "]" = false.
Proof.
  destruct v as [|[]|z|s|l|m]; try (eexists _, _; split; reflexivity).
  destruct (str_of_int_head z) as (c & r & E & H).
  exists c, r. split; [exact E|]. now apply number_head_dispatch.
Qed.

Lemma parse_value_int f z rest :
  not_number_char rest ->
  parse_value (S f) (str_of_int z ++ rest) = Some (Int z, rest).
Proof.
  intros Hr. pose proof (parse_int_str_of_int z rest Hr) as Hp.
  destruct (str_of_int_head z) as (c & r & E & H).
  rewrite E in *. cbn [app parse_value] in *.
  destruct (number_head_dispatch c H) as (-> & -> & -> & -> & -> & -> & _).
  now rewrite Hp.
Qed.

Lemma size_pos v : 1 <= size v.
Proof. destruct v; simpl; lia. Qed.

Lemma parse_elements_dumps f l : l <> [] ->
  Forall round_trips l -> forallb wf l = true ->
  fold_right (fun x n => size x + n) 0 l <= f ->
  forall fuel rest, length l <= fuel ->
  parse_elements (parse_value f) fuel
    (join comma (map dumps l) ++ "]"%char :: rest) = Some (l, rest).
Proof.
  induction l as [|x l IH]; [congruence|]. intros _ HF Hwf Hsz fuel rest Hfuel.
  inversion HF as [|? ? Hx HF']; subst.
  cbn [forallb] in Hwf. apply andb_true_iff in Hwf as [Hwx Hwl].
  cbn [fold_right] in Hsz. cbn [length] in Hfuel.
  destruct fuel as [|fuel]; [lia|].
  destruct l as [|y l].
  - cbn [map join parse_elements].
    rewrite (Hx Hwx f ("]"%char :: rest)) by (simpl; auto; lia).
    reflexivity.
  - change (join comma (map dumps (x :: y :: l)))
      with (dumps x ++ comma ++ join comma (map dumps (y :: l))).
    rewrite <- !app_assoc. cbn [parse_elements].
    rewrite (Hx Hwx f) by (simpl; auto; lia).
    cbn [app comma]. cbn [ascii_eqb Ascii.eqb Bool.eqb].
    change ("," :: join comma (map dumps (y :: l)) ++ "]" :: rest)%char
      with ("," :: (join comma (map dumps (y :: l)) ++ "]" :: rest))%char.
    rewrite IH; try assumption; try discriminate; try lia. reflexivity.
Qed.

Lemma parse_members_dumps f m : m <> [] ->
  Forall (fun kv => round_trips (snd kv)) m ->
  forallb (fun kv => wf (snd kv)) m = true ->
  fold_right (fun kv n => size (snd kv) + n) 0 m <= f ->
  forall fuel rest, length m <= fuel ->
  parse_members (parse_value f) fuel
    (join comma (map member m) ++ "}"%char :: rest) = Some (m, rest).
Proof.
  induction m as [|[k x] m IH]; [congruence|].
  intros _ HF Hwf Hsz fuel rest Hfuel.
  inversion HF as [|? ? Hx HF']; subst. cbn [snd] in Hx.
  cbn [forallb snd] in Hwf. apply andb_true_iff in Hwf as [Hwx Hwl].
  cbn [fold_right snd] in Hsz. cbn [length] in Hfuel.
  destruct fuel as [|fuel]; [lia|].
  assert (Hstep : forall tail, terminated tail ->
    parse_members (parse_value f) (S fuel) (member (k, x) ++ tail)
    = match tail with
      | d :: r =>
          if ascii_eqb d "," then
            match parse_members (parse_value f) fuel r with
            | Some (ms, r') => Some ((k, x) :: ms, r')
            | None => None
            end
          else if ascii_eqb d "}" then Some ([(k, x)], r) else None
      | [] => None
      end).
  { intros tail Ht. unfold member. cbn [fst snd].
    unfold dumps_string at 1. cbn [app parse_members].
    rewrite ascii_eqb_refl.
    rewrite <- !app_assoc. cbn [app].
    rewrite parse_string_body_escaped. cbn [ascii_eqb Ascii.eqb Bool.eqb].
    rewrite (Hx Hwx f tail) by (auto; lia). reflexivity. }
  destruct m as [|y m].
  - cbn [map join]. rewrite Hstep by (simpl; auto). reflexivity.
  - change (join comma (map member ((k, x) :: y :: m)))
      with (member (k, x) ++ comma ++ join comma (map member (y :: m))).
    rewrite <- !app_assoc. rewrite Hstep by (simpl; auto).
    cbn [app comma]. cbn [ascii_eqb Ascii.eqb Bool.eqb].
    rewrite IH; try assumption; try discriminate; try lia. reflexivity.
Qed.

Lemma sizes_length {A} (g : A -> value) (l : list A) :
  length l <= fold_right (fun x n => size (g x) + n) 0 l.
Proof.
  induction l as [|x l IH]; simpl; [lia|]. pose proof (size_pos (g x)). lia.
Qed.

Lemma parse_value_quote f r :
  parse_value (S f) (dquote :: r)
  = match parse_string_body r with
    | Some (x, r') => Some (Str x, r')
    | None => None
    end.
Proof. reflexivity. Qed.

Lemma parse_value_bracket f r :
  parse_value (S f) ("["%char :: r)
  = match r with
    | c2 :: r2 =>
        if ascii_eqb c2 "]" then Some (Arr [], r2)
        else match parse_elements (parse_value f) f r with
             | Some (vs, r') => Some (Arr vs, r')
             | None => None
             end
    | [] => None
    end.
Proof. reflexivity. Qed.

Lemma parse_value_brace f r :
  parse_value (S f) ("{"%char :: r)
  = match r with
    | c2 :: r2 =>
        if ascii_eqb c2 "}" then Some (Obj [], r2)
        else match parse_members (parse_value f) f r with
             | Some (ms, r') => Some (Obj (dict_of_pairs ms), r')
             | None => None
             end
    | [] => None
    end.
Proof. reflexivity. Qed.

Lemma join_head c r (ps : list str) :
  exists r', join comma ((c :: r) :: ps) = c :: r'.
Proof. destruct ps; eexists; reflexivity. Qed.

Lemma parse_value_obj f j rest ms r' :
  j = dquote :: r' ->
  parse_members (parse_value f) f (j ++ "}"%char :: rest) = Some (ms, rest) ->
  parse_value (S f) (("{"%char :: j ++ ["}"%char]) ++ rest)
  = Some (Obj (dict_of_pairs ms), rest).
Proof.
  intros -> H. cbn [app]. rewrite parse_value_brace, <- app_assoc.
  cbn [app] in *. change (ascii_eqb dquote "}") with false. cbn iota.
  now rewrite H.
Qed.

Theorem parse_value_dumps v : round_trips v.
Proof.
  induction v as [|b|z|s|l IH|m IH] using value_ind';
    intros Hwf f rest Hsz Ht;
    (destruct f as [|f]; [pose proof (size_pos Null); simpl in Hsz; lia|]).
  - reflexivity.
  - destruct b; reflexivity.
  - apply parse_value_int. now apply terminated_not_number.
  - cbn [dumps]. unfold dumps_string. cbn [app].
    rewrite parse_value_quote, <- app_assoc. cbn [app].
    rewrite parse_string_body_escaped. reflexivity.
  - cbn [dumps wf size] in *. destruct l as [|x l]; [reflexivity|].
    cbn [app]. rewrite parse_value_bracket, <- app_assoc.
    destruct (dumps_head x) as (c & r & E & Hc).
    pose proof (parse_elements_dumps f (x :: l) ltac:(discriminate) IH Hwf
                  ltac:(lia) f rest) as Hp.
    set (j := join comma (map dumps (x :: l))) in *.
    assert (Hj : exists r', j = c :: r')
      by (subst j; cbn [map]; rewrite E; apply join_head).
    destruct Hj as (r' & Hj). clearbody j. subst j.
    cbn [app] in Hp |- *. rewrite Hc.
    rewrite Hp; [reflexivity|].
    pose proof (sizes_length (fun x => x) (x :: l)). cbn [length] in *. lia.
  - cbn [wf size] in *. destruct m as [|kx m]; [reflexivity|].
    apply andb_true_iff in Hwf as [Hd Hwf].
    pose proof (parse_members_dumps f (kx :: m) ltac:(discriminate) IH Hwf
                  ltac:(lia) f rest) as Hp.
    assert (Hj : exists r', join comma (map member (kx :: m)) = dquote :: r').
    { cbn [map]. unfold member at 1, dumps_string. cbn [app].
      apply join_head. }
    destruct Hj as (r' & Hj).
    transitivity (Some (Obj (dict_of_pairs (kx :: m)), rest));
      [|now rewrite dict_of_pairs_distinct].
    apply (parse_value_obj f _ rest (kx :: m) r' Hj).
    apply Hp. pose proof (sizes_length snd (kx :: m)). cbn [length] in *. lia.
Qed.

Lemma join_length_ge (parts : list str) :
  fold_right (fun p n => length p + n) 0 parts <= length (join comma parts).
Proof.
  induction parts as [|p parts IH]; [simpl; lia|].
  destruct parts as [|q parts].
  - simpl. lia.
  - change (join comma (p :: q :: parts)) with (p ++ comma ++ join comma (q :: parts)).
    rewrite !length_app. cbn [fold_right] in *. lia.
Qed.

Lemma size_dumps v : size v <= length (dumps v).
Proof.
  induction v as [|b|z|s|l IH|m IH] using value_ind'.
  - simpl. lia.
  - destruct b; simpl; lia.
  - destruct (str_of_int_head z) as (c & r & E & _). cbn [dumps size].
    rewrite E. simpl. lia.
  - simpl. lia.
  - cbn [dumps size length]. rewrite length_app.
    assert (fold_right (fun x n => size x + n) 0 l
            <= fold_right (fun p n => length p + n) 0 (map dumps l)).
    { induction IH as [|x l Hx _ IHl]; cbn [fold_right map]; lia. }
    pose proof (join_length_ge (map dumps l)) as Hj.
    simpl. lia.
  - cbn [dumps size length]. rewrite length_app.
    change (fun kv : str * value => dumps_string (fst kv) ++ ":"%char :: dumps (snd kv))
      with member.
    assert (fold_right (fun kv n => size (snd kv) + n) 0 m
            <= fold_right (fun p n => length p + n) 0 (map member m)).
    { induction IH as [|x l Hx _ IHl]; [simpl; lia|].
      cbn [map fold_right]. unfold member at 1. rewrite length_app.
      cbn [length]. lia. }
    pose proof (join_length_ge (map member m)) as Hj.
    simpl. apply le_n_S. eapply Nat.le_trans; [exact H|].
    eapply Nat.le_trans; [exact Hj|]. apply Nat.le_add_r.
Qed.

Theorem loads_dumps v : wf v = true -> loads (dumps v) = Some v.
Proof.
  intros Hwf. unfold loads.
  pose proof (parse_value_dumps v Hwf (S (length (dumps v))) []) as H.
  rewrite app_nil_r in H. rewrite H; [reflexivity| |exact I].
  pose proof (size_dumps v). lia.
Qed.

End JsonRoundTrip.

Module Framing.
Import Base32 Base32Facts.

Lemma Z_of_byte_range a : (0 <= Z_of_byte a < 256)%Z.
Proof.
  unfold Z_of_byte. pose proof (N_ascii_bounded a). lia.
Qed.

Lemma Z_of_byte_of_Z z : Z_of_byte (byte_of_Z z) = (z mod 256)%Z.
Proof.
  unfold Z_of_byte, byte_of_Z.
  pose proof (Z.mod_pos_bound z 256 ltac:(lia)).
  rewrite N_ascii_embedding by lia. lia.
Qed.

Lemma byte_of_Z_of_byte a : byte_of_Z (Z_of_byte a) = a.
Proof.
  unfold byte_of_Z. rewrite Z.mod_small by apply Z_of_byte_range.
  unfold Z_of_byte. rewrite N2Z.id. apply ascii_N_embedding.
Qed.

Lemma unpack_pack_I n :
  (0 <= n < 4294967296)%Z -> Struct.unpack_I (Struct.pack_I n) = Some n.
Proof.
  intros H. unfold Struct.unpack_I, Struct.pack_I.
  rewrite !Z_of_byte_of_Z. f_equal.
  Z.div_mod_to_equations. lia.
Qed.

Lemma pack_I_length n : length (Struct.pack_I n) = 4.
Proof. reflexivity. Qed.

Lemma unpack_pack_BI v n h :
  Struct.pack_BI v n = Some h ->
  Struct.unpack_BI h = Some (v, n) /\ length h = 5.
Proof.
  unfold Struct.pack_BI, Struct.in_u8, Struct.in_u32.
  destruct (_ && _) eqn:E; [|discriminate]. intros [= <-].
  apply andb_true_iff in E as [E1 E2].
  apply andb_true_iff in E1 as [E1 E1']. apply andb_true_iff in E2 as [E2 E2'].
  split; [|reflexivity].
  unfold Struct.unpack_BI. rewrite unpack_pack_I by lia.
  rewrite Z_of_byte_of_Z, Z.mod_small by lia. reflexivity.
Qed.

Lemma utf8_decode_char c tl :
  utf8_decode (utf8_char c ++ tl) = option_map (cons c) (utf8_decode tl).
Proof. destruct c as [[] [] [] [] [] [] [] []]; reflexivity. Qed.

Lemma utf8_decode_utf8 s : utf8_decode (utf8 s) = Some s.
Proof.
  induction s as [|c s IH]; [reflexivity|].
  unfold utf8 in *. cbn [flat_map]. now rewrite utf8_decode_char, IH.
Qed.

(** Framing *)

Lemma remove_char_clean c s :
  Forall (fun x => x <> c) s -> remove_char c s = s.
Proof.
  induction 1 as [|x s Hx _ IH]; [reflexivity|].
  unfold remove_char in *. cbn [filter].
  apply ascii_eqb_neq in Hx. rewrite Hx. cbn [negb]. now rewrite IH.
Qed.

Lemma remove_char_app c s t :
  remove_char c (s ++ t) = remove_char c s ++ remove_char c t.
Proof. apply filter_app. Qed.

Lemma remove_char_self c : remove_char c [c] = [].
Proof. unfold remove_char. cbn. now rewrite ascii_eqb_refl. Qed.

Lemma Forall_firstn {A} (P : A -> Prop) n l : Forall P l -> Forall P (firstn n l).
Proof.
  intros H. revert n. induction H; intros [|n]; cbn; constructor; auto.
Qed.

Lemma Forall_skipn {A} (P : A -> Prop) n l : Forall P l -> Forall P (skipn n l).
Proof.
  intros H. revert n. induction H; intros [|n]; cbn; auto.
Qed.

Lemma remove_join_groups c n fuel s :
  Forall (fun x => x <> c) s -> length s <= fuel ->
  remove_char c (join [c] (groups_of fuel (S n) s)) = s.
Proof.
  revert s. induction fuel as [|fuel IH]; intros s Hs Hl.
  - destruct s; [reflexivity|simpl in Hl; lia].
  - destruct s as [|x s]; [reflexivity|].
    cbn [groups_of].
    assert (Hrec : remove_char c (join [c] (groups_of fuel (S n) (skipn (S n) (x :: s))))
                   = skipn (S n) (x :: s)).
    { apply IH; [now apply Forall_skipn|].
      rewrite length_skipn. cbn [length] in *. lia. }
    set (g := groups_of fuel (S n) (skipn (S n) (x :: s))) in *.
    destruct g as [|p g'].
    + cbn [join] in *. rewrite remove_char_clean by now apply Forall_firstn.
      rewrite <- (firstn_skipn (S n) (x :: s)) at 2.
      cbn [remove_char filter] in Hrec. rewrite <- Hrec. now rewrite app_nil_r.
    + change (join [c] (firstn (S n) (x :: s) :: p :: g'))
        with (firstn (S n) (x :: s) ++ [c] ++ join [c] (p :: g')).
      rewrite !remove_char_app, remove_char_self, Hrec.
      rewrite remove_char_clean by now apply Forall_firstn.
      cbn [app]. apply firstn_skipn.
Qed.

Lemma startswith_app p s : startswith (p ++ s) p = true.
Proof.
  induction p as [|a p IH]; [reflexivity|].
  cbn [app startswith]. now rewrite ascii_eqb_refl, IH.
Qed.

Lemma skipn_app_exact {A} (p s : list A) : skipn (length p) (p ++ s) = s.
Proof. induction p; [reflexivity|]. cbn. exact IHp. Qed.

Lemma firstn_app_exact {A} (p s : list A) : firstn (length p) (p ++ s) = p.
Proof. induction p; [reflexivity|]. cbn. now rewrite IHp. Qed.

End Framing.

Module Codec.
Import Base32 Base32Facts Framing JsonScalars JsonRoundTrip AdvancedLicenseKeyGenerator.

Section Codec.
Context {prims : Primitives}.

(** The framing is undone by the first steps of [validate_license_key]. *)
Lemma validate_format_key now payload :
  validate_license_key now (format_key payload) = decode_payload now payload.
Proof.
  unfold validate_license_key, format_key.
  set (cs := chars_of_bits (bits_of_bytes payload)).
  assert (Hclean : Forall (fun c => c <> pad /\ c <> dash) cs)
    by apply chars_of_bits_clean.
  assert (Hpad : Forall (fun x => x <> pad) cs)
    by (eapply Forall_impl; [|exact Hclean]; now intros c [H _]).
  assert (Hdash : Forall (fun x => x <> dash) cs)
    by (eapply Forall_impl; [|exact Hclean]; now intros c [_ H]).
  assert (E : rstrip pad (b32encode payload) = cs)
    by (unfold b32encode; fold cs; now apply rstrip_app_repeat).
  rewrite E, startswith_app. cbn [negb].
  change (skipn 4 (prefix ++ ?x)) with (skipn (length prefix) (prefix ++ x)).
  rewrite skipn_app_exact.
  rewrite (remove_join_groups dash 4) by (auto; lia).
  change (cs ++ repeat pad ((8 - length cs mod 8) mod 8))
    with (b32encode payload).
  now rewrite b32decode_b32encode.
Qed.

Hypothesis sha256_length : forall x, length (sha256 x) = 32.
Hypothesis hmac_length : forall k m, length (hmac_sha256 k m) = 32.
Hypothesis zlib_round_trip :
  forall x, zlib_decompress (zlib_compress x) = Some x.

Lemma masked_range x : (0 <= Z.land x 4294967295 < 4294967296)%Z.
Proof.
  change 4294967295%Z with (Z.ones 32). rewrite Z.land_ones by lia.
  apply Z.mod_pos_bound. lia.
Qed.

Lemma add_status_metadata now t cid email exp mu feats :
  Properties.datable t exp ->
  exists md,
    add_status now (Json.Obj (metadata_dict t cid email exp mu feats))
    = inr md
    /\ fields md = metadata_dict t cid email exp mu feats
    /\ is_expired md
       = (let e := match exp with
                   | Some dt => int_seconds dt
                   | None => 0%Z
                   end in
          (0 <? e) && (e <? now))%Z.
Proof.
  intros [Ht He].
  change (add_status now (Json.Obj (metadata_dict t cid email exp mu feats)))
    with (let e := match exp with
                   | Some dt => int_seconds dt
                   | None => 0%Z
                   end in
          match fromtimestamp t with
          | None => inl TimestampRange
          | Some issued_dt =>
              if (e =? 0)%Z then
                inr {| fields := metadata_dict t cid email exp mu feats;
                       is_expired := ((0 <? e) && (e <? now))%Z;
                       issued_datetime := issued_dt;
                       expires_datetime := None |}
              else
                match fromtimestamp e with
                | None => inl TimestampRange
                | Some expires_dt =>
                    inr {| fields := metadata_dict t cid email exp mu feats;
                           is_expired := ((0 <? e) && (e <? now))%Z;
                           issued_datetime := issued_dt;
                           expires_datetime := Some expires_dt |}
                end
          end).
  cbv zeta. destruct (fromtimestamp t) as [issued_dt|]; [|contradiction].
  destruct exp as [dt|].
  - destruct (int_seconds dt =? 0)%Z eqn:E0.
    + eexists. split; [reflexivity|]. split; reflexivity.
    + apply Z.eqb_neq in E0.
      destruct (fromtimestamp (int_seconds dt)) as [d|] eqn:Ed;
        [|now destruct (He E0)].
      eexists. split; [reflexivity|]. split; reflexivity.
  - eexists. split; [reflexivity|]. split; reflexivity.
Qed.

Lemma metadata_wf t cid email exp mu feats :
  Json.wf (Json.Obj feats) = true ->
  Json.wf (Json.Obj (metadata_dict t cid email exp mu feats)) = true.
Proof.
  intros H. unfold metadata_dict. cbn [Json.wf map fst snd forallb] in *.
  rewrite H. reflexivity.
Qed.

(** The layout of a generated payload. *)
Lemma final_payload_layout t cid name email exp mu feats payload :
  final_payload t cid name email exp mu feats = Some payload ->
  exists header client_hash,
    Struct.unpack_BI header = Some (VERSION, t) /\ length header = 5
    /\ length client_hash = 8
    /\ let core := header ++ client_hash
                   ++ zlib_compress
                        (utf8 (Json.dumps
                           (Json.Obj (metadata_dict t cid email exp mu feats)))) in
       let checksum := Z.land (CRC32.crc32 core) 4294967295 in
       let signature :=
         firstn 16 (hmac_sha256 (utf8 SECRET_KEY)
                      (core ++ Struct.pack_I checksum)) in
       payload = core ++ Struct.pack_I checksum ++ signature
       /\ length signature = 16.
Proof.
  unfold final_payload.
  destruct (Struct.pack_BI VERSION t) as [header|] eqn:Eh; [|discriminate].
  intros [= <-].
  destruct (unpack_pack_BI _ _ _ Eh) as [Hu Hl].
  exists header, (firstn 8 (sha256 (utf8 (str_of_int cid ++ colon ++ name ++ colon ++ email)))).
  repeat split; try assumption.
  - rewrite length_firstn, sha256_length. reflexivity.
  - rewrite length_firstn, hmac_length. reflexivity.
Qed.

Lemma decode_layout now header client_hash compressed :
  forall t, Struct.unpack_BI header = Some (VERSION, t) ->
  length header = 5 -> length client_hash = 8 ->
  let core := header ++ client_hash ++ compressed in
  let checksum := Z.land (CRC32.crc32 core) 4294967295 in
  let signature :=
    firstn 16 (hmac_sha256 (utf8 SECRET_KEY) (core ++ Struct.pack_I checksum)) in
  length signature = 16 ->
  decode_payload now (core ++ Struct.pack_I checksum ++ signature)
  = match zlib_decompress compressed with
    | None => inl MetadataFailed
    | Some metadata_json =>
        match utf8_decode metadata_json with
        | None => inl MetadataFailed
        | Some text =>
            match Json.loads text with
            | None => inl MetadataFailed
            | Some parsed => add_status now parsed
            end
        end
    end.
Proof.
  intros t Hu Hh Hc core checksum signature Hs.
  unfold decode_payload.
  set (payload := core ++ Struct.pack_I checksum ++ signature).
  assert (Hcore : length core = 13 + length compressed)
    by (unfold core; rewrite !length_app; lia).
  assert (Hn : length payload = length core + 20)
    by (unfold payload; rewrite !length_app, pack_I_length; lia).
  replace (length payload <? 25) with false
    by (symmetry; apply Nat.ltb_ge; lia).
  replace (firstn 5 payload) with header.
  2:{ unfold payload, core. rewrite <- !app_assoc, <- Hh.
      now rewrite firstn_app_exact. }
  rewrite Hu. cbn [Z.eqb VERSION Pos.eqb negb].
  replace (length payload - 20) with (length core) by lia.
  replace (length payload - 16) with (length (core ++ Struct.pack_I checksum))
    by (rewrite length_app, pack_I_length; lia).
  unfold payload.
  rewrite skipn_app_exact, firstn_app_exact.
  replace 4 with (length (Struct.pack_I checksum)) at 1 by reflexivity.
  rewrite firstn_app_exact.
  rewrite unpack_pack_I by apply masked_range.
  fold checksum. rewrite Z.eqb_refl. cbn [negb].
  rewrite app_assoc, skipn_app_exact.
  fold signature. rewrite str_eqb_refl. cbn [negb].
  replace (skipn 13 core) with compressed; [reflexivity|].
  unfold core. rewrite app_assoc.
  replace 13 with (length (header ++ client_hash))
    by (rewrite length_app; lia).
  now rewrite skipn_app_exact.
Qed.

(** Decoding a generated payload comes down to the last step, on the
    metadata that went in. *)
Lemma decode_final_payload_parsed now t cid name email exp mu feats payload :
  final_payload t cid name email exp mu feats = Some payload ->
  Json.wf (Json.Obj feats) = true ->
  decode_payload now payload
  = add_status now (Json.Obj (metadata_dict t cid email exp mu feats)).
Proof.
  intros Hf Hwf.
  destruct (final_payload_layout _ _ _ _ _ _ _ _ Hf)
    as (header & ch & Hu & Hh & Hc & Hp & Hs).
  cbv zeta in Hp, Hs. rewrite Hp.
  rewrite (decode_layout now header ch _ t Hu Hh Hc Hs).
  rewrite zlib_round_trip, utf8_decode_utf8.
  now rewrite loads_dumps by now apply metadata_wf.
Qed.

Lemma decode_final_payload now t cid name email exp mu feats payload :
  final_payload t cid name email exp mu feats = Some payload ->
  Json.wf (Json.Obj feats) = true ->
  Properties.datable t exp ->
  exists md,
    decode_payload now payload = inr md
    /\ fields md = metadata_dict t cid email exp mu feats.
Proof.
  intros Hf Hwf Hd.
  rewrite (decode_final_payload_parsed now _ _ _ _ _ _ _ _ Hf Hwf).
  destruct (add_status_metadata now t cid email exp mu feats Hd)
    as (md & Hs & Hfi & _).
  now exists md.
Qed.

End Codec.
End Codec.

Module Usage.
Import AdvancedLicenseKeyGenerator Models Views Properties.

Section Policy.
Context {prims : Primitives}.

Lemma NoDup_map_eq {A B} (f : A -> B) l a b :
  NoDup (map f l) -> In a l -> In b l -> f a = f b -> a = b.
Proof.
  induction l as [|x l IH]; [contradiction|].
  cbn [map]. intros Hn [->|Ha] [->|Hb] E; auto.
  - apply NoDup_cons_iff in Hn as [Hx _]. exfalso. apply Hx.
    rewrite E. now apply in_map.
  - apply NoDup_cons_iff in Hn as [Hx _]. exfalso. apply Hx.
    rewrite <- E. now apply in_map.
  - apply NoDup_cons_iff in Hn as [_ Hn]. auto.
Qed.

Lemma filter_key db l :
  consistent db -> In l db ->
  filter (fun r => str_eqb (key r) (key l)) db = [l].
Proof.
  intros [Hk _] Hin. induction db as [|x db IH]; [contradiction|].
  cbn [map] in Hk. apply NoDup_cons_iff in Hk as [Hx Hk].
  cbn [filter]. destruct Hin as [->|Hin].
  - rewrite str_eqb_refl. f_equal.
    assert (Hf : Forall (fun r => str_eqb (key r) (key l) = false) db).
    { apply Forall_forall. intros r Hr.
      destruct (str_eqb (key r) (key l)) eqn:E; [|reflexivity].
      apply str_eqb_eq in E. exfalso. apply Hx. rewrite <- E.
      now apply in_map. }
    clear -Hf. induction Hf as [|y db Hy _ IH]; [reflexivity|].
    cbn [filter]. now rewrite Hy.
  - destruct (str_eqb (key x) (key l)) eqn:E.
    + apply str_eqb_eq in E. exfalso. apply Hx. rewrite E. now apply in_map.
    + now apply IH.
Qed.

Lemma row_some db k l : row db k = Some l -> In l db /\ key l = k.
Proof.
  unfold row. intros H. apply find_some in H as [H1 H2].
  split; [exact H1|]. now apply str_eqb_eq.
Qed.

Lemma row_in db l : consistent db -> In l db -> row db (key l) = Some l.
Proof.
  intros [Hk _] Hin. unfold row. induction db as [|x db IH]; [contradiction|].
  cbn [map] in Hk. apply NoDup_cons_iff in Hk as [Hx Hk].
  cbn [find]. destruct Hin as [->|Hin].
  - now rewrite str_eqb_refl.
  - destruct (str_eqb (key x) (key l)) eqn:E; [|now apply IH].
    apply str_eqb_eq in E. exfalso. apply Hx. rewrite E. now apply in_map.
Qed.

Lemma objects_get_key db l :
  consistent db -> In l db ->
  objects_get db (fun r => str_eqb (key r) (key l)) = inr (Some l).
Proof. intros Hc Hin. unfold objects_get. now rewrite filter_key. Qed.

Lemma objects_get_missing db k :
  row db k = None ->
  objects_get db (fun r => str_eqb (key r) k) = inr None.
Proof.
  unfold row, objects_get. intros H.
  replace (filter (fun r => str_eqb (key r) k) db) with (@nil License);
    [reflexivity|].
  symmetry. induction db as [|x db IH]; [reflexivity|].
  cbn [find filter] in *. destruct (str_eqb (key x) k); [discriminate|].
  now apply IH.
Qed.

Lemma replaced_fields db l l' :
  consistent db -> In l db -> id l' = id l -> key l' = key l ->
  map key (replaced db l') = map key db
  /\ map id (replaced db l') = map id db
  /\ In l' (replaced db l').
Proof.
  intros [Hk Hi] Hin Eid Ekey. unfold replaced. repeat split.
  - rewrite map_map. apply map_ext_in. intros r Hr.
    destruct (id r =? id l')%Z eqn:E; [|reflexivity].
    apply Z.eqb_eq in E.
    assert (r = l) by (apply (NoDup_map_eq id db r l Hi Hr Hin); congruence).
    congruence.
  - rewrite map_map. apply map_ext_in. intros r Hr.
    destruct (id r =? id l')%Z eqn:E; [|reflexivity].
    apply Z.eqb_eq in E. congruence.
  - apply in_map_iff. exists l. split; [|exact Hin].
    rewrite Eid, Z.eqb_refl. reflexivity.
Qed.

Lemma replaced_consistent db l l' :
  consistent db -> In l db -> id l' = id l -> key l' = key l ->
  consistent (replaced db l').
Proof.
  intros Hc Hin Eid Ekey.
  destruct (replaced_fields db l l' Hc Hin Eid Ekey) as (E1 & E2 & _).
  destruct Hc as [Hk Hi]. split; congruence.
Qed.

Lemma db_save_existing db l l' :
  consistent db -> In l db -> id l' = id l -> key l' = key l ->
  db_save db l' = inr (replaced db l').
Proof.
  intros [Hk Hi] Hin Eid Ekey. unfold db_save.
  replace (existsb _ db) with false.
  - replace (existsb (fun r => (id r =? id l')%Z) db) with true; [reflexivity|].
    symmetry. apply existsb_exists. exists l. split; [exact Hin|].
    rewrite Eid. apply Z.eqb_refl.
  - symmetry. apply not_true_iff_false. intros H.
    apply existsb_exists in H as (r & Hr & H).
    apply andb_true_iff in H as [H1 H2].
    apply str_eqb_eq in H2. apply negb_true_iff, Z.eqb_neq in H1.
    assert (r = l) by (apply (NoDup_map_eq key db r l Hk Hr Hin); congruence).
    congruence.
Qed.

Lemma with_key_same l : with_key l (key l) = l.
Proof. now destruct l. Qed.

Lemma validate_empty now : validate_license_key now [] = inl InvalidFormat.
Proof. reflexivity. Qed.

Lemma valid_key_nonempty now l ip dom hw :
  is_valid now l ip dom hw = Valid -> key l <> [].
Proof.
  unfold is_valid. intros H E. rewrite E, validate_empty in H.
  destruct (negb (is_active l)); [discriminate|].
  destruct (match expires_at l with Some e => (e <? now)%Z | None => false end);
    discriminate.
Qed.

Lemma save_existing now db l l' :
  consistent db -> In l db -> id l' = id l -> key l' = key l ->
  key l <> [] ->
  save now db l' = inr (l', replaced db l').
Proof.
  intros Hc Hin Eid Ekey Hne. unfold save.
  destruct (key l') as [|c k] eqn:E; [congruence|].
  rewrite <- E in Ekey |- *. rewrite with_key_same.
  now rewrite (db_save_existing db l l') by assumption.
Qed.

(** What the fields make of the key. *)
Lemma validated_key rq data :
  validated_fields rq = Some data ->
  char_field 512 (license_key rq) = Some (license_key data).
Proof.
  unfold validated_fields.
  destruct (char_field 512 (license_key rq)) as [k|]; [|discriminate].
  destruct (optional ip_address_field _) as [ip|]; [|discriminate].
  destruct (optional (char_field 255) _) as [hw|]; [|discriminate].
  now intros [= <-].
Qed.

(** A request the serializer refuses is answered 400, or not at all. *)
Lemma post_refused now db rq :
  validated_fields rq = None ->
  post now db rq = (BadRequest400, db)
  \/ exists e, post now db rq = (Uncaught e, db).
Proof.
  intros Hv. unfold post, serializer_is_valid.
  destruct (char_field 512 (license_key rq)) as [k|]; [|now left].
  destruct (objects_get db _) as [e|[l|]];
    [right; now exists e| |now left].
  rewrite Hv. now left.
Qed.

Lemma post_refused_400 now db rq :
  consistent db -> validated_fields rq = None ->
  post now db rq = (BadRequest400, db).
Proof.
  intros Hc Hv. unfold post, serializer_is_valid.
  destruct (char_field 512 (license_key rq)) as [k|]; [|reflexivity].
  destruct (row db k) as [l|] eqn:Hrow.
  - apply row_some in Hrow as [Hin <-].
    rewrite objects_get_key by assumption. now rewrite Hv.
  - now rewrite (objects_get_missing db _ Hrow).
Qed.

(** A request the fields accept, for a stored key, reaches the view. *)
Lemma post_data now db rq data l :
  consistent db -> validated_fields rq = Some data ->
  row db (license_key data) = Some l ->
  post now db rq = record_usage now db data.
Proof.
  intros Hc Hv Hrow. apply row_some in Hrow as [Hin Ek].
  unfold post, serializer_is_valid.
  rewrite (validated_key rq data Hv), <- Ek, objects_get_key by assumption.
  now rewrite Hv.
Qed.

(** A request for a key that is not stored is answered 400. *)
Lemma post_missing_key now db rq data :
  validated_fields rq = Some data -> row db (license_key data) = None ->
  post now db rq = (BadRequest400, db).
Proof.
  intros Hv Hrow. unfold post, serializer_is_valid.
  rewrite (validated_key rq data Hv).
  now rewrite (objects_get_missing db _ Hrow).
Qed.

(** One call of [post] on a stored key. *)
Lemma post_stored now db rq data l :
  consistent db -> validated_fields rq = Some data ->
  row db (license_key data) = Some l ->
  let v := is_valid now l (ip_address data) None
             (req_hardware_fingerprint data) in
  post now db rq
  = if verdict_ok v
    then (Ok200 (get_remaining_uses
                   (used now l (req_hardware_fingerprint data))),
          replaced db (used now l (req_hardware_fingerprint data)))
    else (Forbidden403 v, db).
Proof.
  intros Hc Hd Hrow v. rewrite (post_data now db rq data l Hc Hd Hrow).
  apply row_some in Hrow as [Hin Ek].
  unfold record_usage. rewrite <- Ek, objects_get_key by assumption.
  fold v. destruct (verdict_ok v) eqn:Ev; [|reflexivity].
  assert (Hv : v = Valid) by (destruct v; try discriminate; reflexivity).
  unfold increment_usage.
  rewrite (save_existing now db l); try assumption; try reflexivity.
  eapply valid_key_nonempty. exact Hv.
Qed.

Lemma post_unchanged now db rq :
  (forall n, fst (post now db rq) <> Ok200 n) -> snd (post now db rq) = db.
Proof.
  unfold post, serializer_is_valid, record_usage. intros H.
  destruct (char_field 512 (license_key rq)) as [k|]; [|reflexivity].
  destruct (objects_get db _) as [e|[l|]]; try reflexivity.
  destruct (validated_fields rq) as [data|]; [|reflexivity].
  destruct (objects_get db _) as [e|[l0|]]; try reflexivity.
  destruct (verdict_ok _); [|reflexivity].
  destruct (increment_usage _ _ _ _ _) as [e|[l' db']]; [reflexivity|].
  exfalso. eapply H. reflexivity.
Qed.

Lemma is_valid_seats now l ip dom hw :
  (is_valid now l ip dom hw = Valid -> (usage_count l < max_users l)%Z)
  /\ (is_valid now l ip dom hw = UsageExceeded ->
      (max_users l <= usage_count l)%Z).
Proof.
  unfold is_valid.
  destruct (negb (is_active l)); [split; discriminate|].
  destruct (match expires_at l with Some e => (e <? now)%Z | None => false end);
    [split; discriminate|].
  destruct (validate_license_key _ _) as [e|md]; [split; discriminate|].
  destruct (is_expired md); [split; discriminate|].
  destruct (client_differs _ _); [split; discriminate|].
  destruct (match ip, ip_restrictions l with
            | Some (c :: ip0), _ :: _ => _ | _, _ => false end);
    [split; discriminate|].
  destruct (match dom, domain_restrictions l with
            | Some (c :: d), _ :: _ => _ | _, _ => false end);
    [split; discriminate|].
  destruct (_ && _); [split; discriminate|].
  destruct (max_users l <=? usage_count l)%Z eqn:E; split;
    try discriminate; intros _; lia.
Qed.

(** The rules before the usage limit do not read the usage counter or the
    time of last use. *)
Lemma only_seats_exceeded now l rq :
  only_seats_decide now l rq -> (max_users l <= usage_count l)%Z ->
  is_valid now l (ip_address rq) None (req_hardware_fingerprint rq)
  = UsageExceeded.
Proof.
  intros [H|H] Hle; [|exact H].
  apply is_valid_seats in H. lia.
Qed.

Lemma only_seats_valid now l rq :
  only_seats_decide now l rq -> (usage_count l < max_users l)%Z ->
  is_valid now l (ip_address rq) None (req_hardware_fingerprint rq) = Valid.
Proof.
  intros [H|H] Hlt; [exact H|].
  apply is_valid_seats in H. lia.
Qed.

Lemma used_fields now l hw :
  id (used now l hw) = id l /\ key (used now l hw) = key l
  /\ max_users (used now l hw) = max_users l
  /\ usage_count (used now l hw) = (usage_count l + 1)%Z
  /\ last_used (used now l hw) = Some now.
Proof. repeat split. Qed.

Lemma post_valid now db rq data l :
  consistent db -> validated_fields rq = Some data ->
  row db (license_key data) = Some l ->
  is_valid now l (ip_address data) None (req_hardware_fingerprint data)
  = Valid ->
  let l' := used now l (req_hardware_fingerprint data) in
  post now db rq = (Ok200 (get_remaining_uses l'), replaced db l')
  /\ consistent (replaced db l') /\ In l' (replaced db l')
  /\ row (replaced db l') (license_key data) = Some l'.
Proof.
  intros Hc Hd Hrow Hv l'.
  pose proof (post_stored now db rq data l Hc Hd Hrow) as Hp.
  cbv zeta in Hp. rewrite Hv in Hp. cbn [verdict_ok] in Hp.
  apply row_some in Hrow as [Hin Ek].
  assert (Hc' : consistent (replaced db l'))
    by (apply (replaced_consistent db l l'); auto).
  assert (Hin' : In l' (replaced db l'))
    by (apply (replaced_fields db l l'); auto).
  repeat split; try assumption; try apply Hc'.
  rewrite <- Ek. change (key l) with (key l'). now apply row_in.
Qed.

Lemma post_rejected now db rq data l :
  consistent db -> validated_fields rq = Some data ->
  row db (license_key data) = Some l ->
  is_valid now l (ip_address data) None (req_hardware_fingerprint data)
  <> Valid ->
  post now db rq
  = (Forbidden403
       (is_valid now l (ip_address data) None
          (req_hardware_fingerprint data)),
     db).
Proof.
  intros Hc Hd Hrow Hv.
  pose proof (post_stored now db rq data l Hc Hd Hrow) as Hp.
  cbv zeta in Hp. rewrite Hp.
  destruct (is_valid _ _ _ _ _); try reflexivity. congruence.
Qed.

Lemma last_cons_nonempty {A} (x : A) l d d' :
  l <> [] -> last (x :: l) d = last l d'.
Proof.
  revert x. induction l as [|y l IH]; intros x H; [congruence|].
  destruct l as [|z l]; [reflexivity|].
  change (last (x :: y :: z :: l) d) with (last (y :: z :: l) d).
  change (last (y :: z :: l) d') with (last (z :: l) d').
  rewrite (IH y) by discriminate. reflexivity.
Qed.

(** With [n] seats left, [n] calls succeed and the next is refused. *)
Lemma seats_run n : forall db l calls,
  consistent db -> In l db ->
  (max_users l - usage_count l = Z.of_nat n)%Z ->
  length calls = S n ->
  Forall (fun c => names_key (key l) (snd c)) calls ->
  others_pass db calls ->
  map fst (consume db calls)
  = map (fun j => Ok200 (Z.of_nat (n - S j))) (seq 0 n)
    ++ [Forbidden403 UsageExceeded]
  /\ exists r,
       row (last (map snd (consume db calls)) db) (key l) = Some r
       /\ usage_count r = max_users l /\ max_users r = max_users l.
Proof.
  induction n as [|n IH]; intros db l calls Hc Hin Hseats Hlen Hkeys Hpass.
  - destruct calls as [|[now rq] [|? ?]]; try discriminate.
    inversion Hkeys as [|? ? Hk _]; subst. cbn [snd] in Hk.
    destruct Hk as (data & Hd & Hk).
    destruct Hpass as [Hpass _].
    assert (Hrow : row db (license_key data) = Some l)
      by (rewrite Hk; now apply row_in).
    specialize (Hpass data l Hd Hrow).
    pose proof (only_seats_exceeded now l data Hpass ltac:(lia)) as Hv.
    cbn [consume map fst snd seq app last].
    rewrite (post_rejected now db rq data l Hc Hd Hrow)
      by (rewrite Hv; discriminate).
    rewrite Hv. cbn [fst snd]. split; [reflexivity|].
    exists l. rewrite <- Hk, Hrow. repeat split. lia.
  - destruct calls as [|[now rq] calls]; [discriminate|].
    inversion Hkeys as [|? ? Hk Hkeys']; subst. cbn [snd] in Hk.
    destruct Hk as (data & Hd & Hk).
    destruct Hpass as [Hpass Hpass'].
    assert (Hrow : row db (license_key data) = Some l)
      by (rewrite Hk; now apply row_in).
    specialize (Hpass data l Hd Hrow).
    pose proof (only_seats_valid now l data Hpass ltac:(lia)) as Hv.
    destruct (post_valid now db rq data l Hc Hd Hrow Hv)
      as (Hp & Hc' & Hin' & Hrow').
    cbv zeta in Hp, Hc', Hin', Hrow'.
    set (l' := used now l (req_hardware_fingerprint data)) in *.
    cbn [consume]. rewrite Hp in Hpass' |- *. cbn [snd fst map] in Hpass' |- *.
    destruct (IH (replaced db l') l' calls Hc' Hin') as (Hresp & r & Hr & Hu & Hm).
    + unfold l'. cbn [used max_users usage_count]. lia.
    + cbn [length] in Hlen. lia.
    + exact Hkeys'.
    + exact Hpass'.
    + split.
      * rewrite Hresp. cbn [seq map app]. f_equal.
        -- unfold get_remaining_uses, l'. cbn [used max_users usage_count].
           f_equal. lia.
        -- f_equal. rewrite <- seq_shift, map_map. reflexivity.
      * exists r. split; [|exact (conj Hu Hm)].
        rewrite (last_cons_nonempty _ _ db (replaced db l')); [exact Hr|].
        destruct calls as [|[now' rq'] calls]; discriminate.
Qed.

End Policy.
End Usage.

Module Policy.
Import AdvancedLicenseKeyGenerator Models Views Properties Usage.

Section Policy.
Context {prims : Primitives}.

(** What [add_status] computes for the expiry flag. *)
Lemma add_status_expired now parsed md e :
  add_status now parsed = inr md ->
  Json.get (fields md) (lit "expires") = Some (Json.Int e) ->
  is_expired md = ((0 <? e) && (e <? now))%Z.
Proof.
  unfold add_status. destruct parsed as [| | | | |m]; try discriminate.
  destruct (Json.get m (lit "expires")) as [v|] eqn:Ev.
  - destruct (as_number v) as [x|] eqn:Ex; [|discriminate].
    destruct (Json.get m (lit "issued")) as [iv|]; [|discriminate].
    destruct (as_number iv) as [i|]; [|discriminate].
    destruct (fromtimestamp i); [|discriminate].
    destruct (x =? 0)%Z; [|destruct (fromtimestamp x); [|discriminate]];
      (intros [= <-]; cbn [fields is_expired]; rewrite Ev; intros [= ->];
       cbn in Ex; now injection Ex as <-).
  - cbn [as_number].
    destruct (Json.get m (lit "issued")) as [iv|]; [|discriminate].
    destruct (as_number iv) as [i|]; [|discriminate].
    destruct (fromtimestamp i); [|discriminate].
    cbn [Z.eqb]. intros [= <-]. cbn [fields]. rewrite Ev. discriminate.
Qed.

Lemma decode_payload_status now payload md :
  decode_payload now payload = inr md ->
  exists parsed, add_status now parsed = inr md.
Proof.
  unfold decode_payload.
  destruct (_ <? 25); [discriminate|].
  destruct (Struct.unpack_BI _) as [[v t]|]; [|discriminate].
  destruct (negb (v =? VERSION)%Z); [discriminate|].
  destruct (Struct.unpack_I _) as [c|]; [|discriminate].
  destruct (negb (c =? _)%Z); [discriminate|].
  destruct (negb (str_eqb _ _)); [discriminate|].
  destruct (zlib_decompress _) as [j|]; [|discriminate].
  destruct (utf8_decode j) as [text|]; [|discriminate].
  destruct (Json.loads text) as [parsed|]; [|discriminate].
  intros H. now exists parsed.
Qed.

Lemma validate_status now k md :
  validate_license_key now k = inr md ->
  exists parsed, add_status now parsed = inr md.
Proof.
  unfold validate_license_key.
  destruct (negb (startswith k prefix)); [discriminate|].
  destruct (Base32.b32decode _) as [e|payload]; [discriminate|].
  apply decode_payload_status.
Qed.

Lemma validate_expired now k md e :
  validate_license_key now k = inr md ->
  Json.get (fields md) (lit "expires") = Some (Json.Int e) ->
  is_expired md = ((0 <? e) && (e <? now))%Z.
Proof.
  intros H. destruct (validate_status now k md H) as (parsed & Hp).
  now apply add_status_expired with (parsed := parsed).
Qed.

Lemma is_valid_key_stage now l ip dom hw md :
  is_active l = true -> record_not_expired now l ->
  validate_license_key (int_seconds now) (key l) = inr md ->
  (is_expired md = true -> is_valid now l ip dom hw = KeyExpired)
  /\ (is_expired md = false -> is_valid now l ip dom hw <> KeyExpired).
Proof.
  intros Ha He Hv. unfold is_valid. rewrite Ha. cbn [negb].
  replace (match expires_at l with Some e => (e <? now)%Z | None => false end)
    with false.
  2:{ unfold record_not_expired in He. destruct (expires_at l); [|reflexivity].
      symmetry. apply Z.ltb_ge. exact He. }
  rewrite Hv. split; intros ->; [reflexivity|].
  destruct (client_differs _ _); [discriminate|].
  destruct (match ip, ip_restrictions l with
            | Some (c :: ip0), _ :: _ => _ | _, _ => false end);
    [discriminate|].
  destruct (match dom, domain_restrictions l with
            | Some (c :: d), _ :: _ => _ | _, _ => false end);
    [discriminate|].
  destruct (_ && _); [discriminate|].
  destruct (_ <=? _)%Z; discriminate.
Qed.

(** The lookup by key and claimed client. *)
Lemma lookup_other_client db k c c' :
  (forall r, In r db -> key r = k -> client_id (client r) = c) ->
  c' <> c ->
  filter (fun r => str_eqb (key r) k && (client_id (client r) =? c')%Z) db = [].
Proof.
  intros H Hne. induction db as [|x db IH]; [reflexivity|].
  cbn [filter].
  replace (str_eqb (key x) k && (client_id (client x) =? c')%Z) with false.
  - apply IH. intros r Hr. apply H. now right.
  - symmetry. apply andb_false_iff.
    destruct (str_eqb (key x) k) eqn:E; [right|now left].
    apply str_eqb_eq in E. apply Z.eqb_neq.
    rewrite (H x (or_introl eq_refl) E). congruence.
Qed.

(** A second insertion of the same key. *)
Lemma db_save_key_taken db l :
  (exists r, In r db /\ key r = key l /\ id r <> id l) ->
  db_save db l = inl IntegrityError.
Proof.
  intros (r & Hin & Hk & Hid). unfold db_save.
  replace (existsb _ db) with true; [reflexivity|].
  symmetry. apply existsb_exists. exists r. split; [exact Hin|].
  apply andb_true_iff. split.
  - apply negb_true_iff, Z.eqb_neq. exact Hid.
  - apply str_eqb_eq. exact Hk.
Qed.

Lemma db_save_stores db l db' :
  db_save db l = inr db' -> In l db'.
Proof.
  unfold db_save. destruct (existsb _ db); [discriminate|].
  destruct (existsb (fun r => (id r =? id l)%Z) db) eqn:E; intros [= <-].
  - apply existsb_exists in E as (r & Hr & E).
    apply in_map_iff. exists r. split; [|exact Hr]. now rewrite E.
  - apply in_or_app. right. now left.
Qed.

Lemma save_new now db uuid c expires seats feats l db' :
  save now db (new_license uuid c expires seats feats) = inr (l, db') ->
  In l db' /\ id l = uuid
  /\ generate_advanced_license_key (int_seconds now) (client_id c)
       (client_name c) (first_truthy (client_email c) (client_email c))
       expires seats feats = Some (key l).
Proof.
  unfold save. cbn [new_license key client email expires_at max_users features].
  destruct (generate_advanced_license_key _ _ _ _ _ _ _) as [k|]; [|discriminate].
  destruct (db_save db _) as [e|db''] eqn:E; [discriminate|].
  intros [= <- <-]. repeat split. now apply db_save_stores in E.
Qed.

Lemma bulk_same_second clock uuid c expires seats feats s :
  same_second clock s -> fresh uuid ->
  forall i db licenses,
  exists e,
    bulk_loop clock uuid c expires seats feats 2 i db licenses = inl e.
Proof.
  intros Hs Hf i db licenses. cbn [bulk_loop].
  destruct (save (clock i) db _) as [e|[l1 db1]] eqn:E1;
    [now exists (e, db)|].
  destruct (save_new _ _ _ _ _ _ _ _ _ E1) as (Hin & Hid & Hk).
  destruct (save (clock (S i)) db1 _) as [e|[l2 db2]] eqn:E2;
    [now exists (e, db1)|].
  exfalso. unfold save in E2.
  cbn [new_license key client email expires_at max_users features] in E2.
  rewrite Hs, <- (Hs i), Hk in E2.
  rewrite db_save_key_taken in E2; [discriminate|].
  exists l1. repeat split; [exact Hin|].
  cbn [with_key new_license id]. rewrite Hid. intros H.
  apply Hf in H. lia.
Qed.

End Policy.
End Policy.

Module Tokens.
Import Base32 Base32Facts Framing AdvancedLicenseKeyGenerator Properties Codec.

Section Tokens.
Context {prims : Primitives}.

Lemma in_alphabet_clean c : in_alphabet c -> clean c.
Proof.
  unfold in_alphabet, clean. intros H. split; intros ->; apply H; reflexivity.
Qed.

(** The first steps of [validate_license_key] on a token built from any
    text without hyphens or padding. *)
Lemma validate_token_of now cs :
  Forall clean cs ->
  validate_license_key now (token_of cs)
  = match bits_of_chars cs with
    | None => inl (Base32Error NonBase32Digit)
    | Some bits =>
        if valid_padchars (pad_count (length cs))
        then decode_payload now (bytes_of_bits bits)
        else inl (Base32Error IncorrectPadding)
    end.
Proof.
  intros Hclean.
  assert (Hpad : Forall (fun x => x <> pad) cs)
    by (eapply Forall_impl; [|exact Hclean]; now intros c [H _]).
  assert (Hdash : Forall (fun x => x <> dash) cs)
    by (eapply Forall_impl; [|exact Hclean]; now intros c [_ H]).
  unfold validate_license_key, token_of.
  rewrite startswith_app. cbn [negb].
  change (skipn 4 (prefix ++ ?x)) with (skipn (length prefix) (prefix ++ x)).
  rewrite skipn_app_exact.
  rewrite (remove_join_groups dash 4) by (auto; lia).
  unfold b32decode.
  change ((8 - length cs mod 8) mod 8) with (pad_count (length cs)).
  rewrite length_app, repeat_length, pad_count_total. cbn [Nat.eqb negb].
  rewrite rstrip_app_repeat by exact Hpad.
  replace (length cs + pad_count (length cs) - length cs)
    with (pad_count (length cs)) by lia.
  destruct (bits_of_chars cs); [|reflexivity].
  destruct (valid_padchars _); reflexivity.
Qed.

Lemma encoded_key_chars payload :
  encoded_key payload = chars_of_bits (bits_of_bytes payload).
Proof.
  unfold encoded_key, b32encode. apply rstrip_app_repeat.
  eapply Forall_impl; [|apply chars_of_bits_clean]. now intros c [H _].
Qed.

Lemma encoded_key_clean payload : Forall clean (encoded_key payload).
Proof. rewrite encoded_key_chars. apply chars_of_bits_clean. Qed.

Lemma token_of_encoded payload : token_of (encoded_key payload) = format_key payload.
Proof. reflexivity. Qed.

(** *** Lower case *)

Lemma lower_dash c : ascii_eqb (lower c) dash = ascii_eqb c dash.
Proof. destruct c as [[] [] [] [] [] [] [] []]; reflexivity. Qed.

Lemma lower_pad c : ascii_eqb (lower c) pad = ascii_eqb c pad.
Proof. destruct c as [[] [] [] [] [] [] [] []]; reflexivity. Qed.

Lemma remove_char_lower s :
  remove_char dash (map lower s) = map lower (remove_char dash s).
Proof.
  induction s as [|c s IH]; [reflexivity|].
  unfold remove_char in *. cbn [map filter]. rewrite lower_dash.
  destruct (ascii_eqb c dash); cbn [negb map]; now rewrite IH.
Qed.

Lemma chars_of_bits_alphabet bits : Forall in_alphabet (chars_of_bits bits).
Proof.
  induction bits as [|a|a b|a b c|a b c d|a b c d e r IH] using list_ind5;
    cbn [chars_of_bits]; repeat constructor; try exact IH;
    unfold in_alphabet; rewrite bits_of_char5; discriminate.
Qed.

Lemma Forall_join (P : ascii -> Prop) sep parts :
  Forall P sep -> Forall (Forall P) parts -> Forall P (join sep parts).
Proof.
  intros Hs Hp. induction Hp as [|p rest Hp Hrest IH]; [constructor|].
  cbn [join]. destruct rest as [|q rest']; [exact Hp|].
  apply Forall_app. split; [exact Hp|]. apply Forall_app. now split.
Qed.

Lemma Forall_groups_of (P : ascii -> Prop) fuel n : forall s,
  Forall P s -> Forall (Forall P) (groups_of fuel n s).
Proof.
  induction fuel as [|f IH]; intros s Hs; cbn [groups_of]; [constructor|].
  destruct s as [|x r]; [constructor|].
  constructor; [now apply Forall_firstn|]. apply IH. now apply Forall_skipn.
Qed.

(** The shape of a token. *)
Lemma format_key_shape p :
  firstn 4 (format_key p) = prefix
  /\ Forall (fun c => in_alphabet c \/ c = dash) (skipn 4 (format_key p)).
Proof.
  rewrite <- token_of_encoded. unfold token_of.
  change 4 with (length prefix). rewrite firstn_app_exact, skipn_app_exact.
  split; [reflexivity|].
  apply Forall_join; [constructor; [now right|constructor]|].
  apply Forall_groups_of. rewrite encoded_key_chars.
  eapply Forall_impl; [|apply chars_of_bits_alphabet]. intros c H. now left.
Qed.

Lemma lower_changed c :
  lower c <> c -> bits_of_char (lower c) = None /\ lower c <> dash.
Proof.
  destruct c as [[] [] [] [] [] [] [] []]; intros H;
    try (now destruct H); (split; [reflexivity|discriminate]).
Qed.

Lemma bits_of_chars_none cs :
  Exists (fun c => bits_of_char c = None) cs -> bits_of_chars cs = None.
Proof.
  induction 1 as [c r H|c r _ IH]; cbn [bits_of_chars].
  - now rewrite H.
  - rewrite IH. now destruct (bits_of_char c).
Qed.

(** Lowering some characters of a token body: no padding appears, and a
    character that was changed is no Base32 digit. *)
Lemma lowered_body body body' :
  Forall (fun c => in_alphabet c \/ c = dash) body ->
  Forall2 (fun c c' => c' = c \/ c' = lower c) body body' ->
  Forall (fun x => x <> pad) (remove_char dash body')
  /\ (body' <> body ->
      Exists (fun c => bits_of_char c = None) (remove_char dash body')).
Proof.
  intros Hs H2. induction H2 as [|c c' r r' Hc _ IH]; [now split|].
  apply Forall_cons_iff in Hs as [Hc0 Hs]. destruct (IH Hs) as [IHa IHb].
  assert (Hpad : c' <> pad).
  { assert (E : c <> pad) by (destruct Hc0 as [Hc0| ->];
                              [now apply in_alphabet_clean|discriminate]).
    destruct Hc as [->| ->]; [exact E|].
    apply ascii_eqb_neq. rewrite lower_pad. now apply ascii_eqb_neq. }
  unfold remove_char in *. cbn [filter].
  split.
  - destruct (negb (ascii_eqb c' dash)); [now constructor|exact IHa].
  - intros Hne. destruct (ascii_dec c' c) as [->|Hcc].
    + assert (Hr : r' <> r) by (intros ->; now apply Hne).
      destruct (negb (ascii_eqb c dash));
        [apply Exists_cons_tl|]; now apply IHb.
    + destruct Hc as [->| ->]; [now destruct Hcc|].
      destruct (lower_changed c Hcc) as [Hb Hd].
      rewrite (proj2 (ascii_eqb_neq _ _) Hd). cbn [negb].
      now apply Exists_cons_hd.
Qed.

(** A minted token with some of its letters in lower case is refused by
    the Base32 decoder. *)
Lemma validate_partly_lowercased now payload k' :
  partly_lowercased (format_key payload) k' -> k' <> format_key payload ->
  validate_license_key now k' = inl (Base32Error NonBase32Digit).
Proof.
  intros [Hpre Hbody] Hne.
  destruct (format_key_shape payload) as [Hp Hs].
  rewrite Hp in Hpre.
  assert (Ek : k' = prefix ++ skipn 4 k').
  { pose proof (firstn_skipn 4 k') as E. rewrite Hpre in E. now symmetry. }
  assert (Ef : format_key payload = prefix ++ skipn 4 (format_key payload)).
  { pose proof (firstn_skipn 4 (format_key payload)) as E.
    rewrite Hp in E. now symmetry. }
  destruct (lowered_body _ _ Hs Hbody) as [Hpad Hex].
  assert (Hx : Exists (fun c => bits_of_char c = None)
                 (remove_char dash (skipn 4 k'))).
  { apply Hex. intros E. apply Hne. rewrite Ek, Ef. now rewrite E. }
  unfold validate_license_key. rewrite Ek at 1. rewrite startswith_app.
  cbn [negb]. set (cs := remove_char dash (skipn 4 k')) in *.
  unfold b32decode.
  change ((8 - length cs mod 8) mod 8) with (pad_count (length cs)).
  rewrite length_app, repeat_length, pad_count_total. cbn [Nat.eqb negb].
  rewrite rstrip_app_repeat by exact Hpad.
  now rewrite (bits_of_chars_none cs Hx).
Qed.

Lemma lowercased_partly payload :
  partly_lowercased (format_key payload) (lowercased (format_key payload)).
Proof.
  destruct (format_key_shape payload) as [Hp _].
  unfold lowercased. rewrite Hp. split.
  - change 4 with (length prefix). now rewrite firstn_app_exact.
  - change 4 with (length prefix) at 2. rewrite skipn_app_exact.
    generalize (skipn 4 (format_key payload)). intros body.
    induction body as [|c r IH]; cbn [map];
      [constructor|constructor; [now right|exact IH]].
Qed.

Lemma validate_lowercased now payload c r :
  encoded_key payload = c :: r -> bits_of_char (lower c) = None ->
  validate_license_key now (lowercased (format_key payload))
  = inl (Base32Error NonBase32Digit).
Proof.
  intros E Hc. unfold lowercased, format_key. fold (encoded_key payload).
  set (cs := encoded_key payload) in *.
  assert (Hclean : Forall (fun c => c <> pad /\ c <> dash) cs)
    by apply encoded_key_clean.
  assert (Hpad : Forall (fun x => x <> pad) (map lower cs)).
  { apply Forall_map. eapply Forall_impl; [|exact Hclean].
    intros x [H _]. apply ascii_eqb_neq. rewrite lower_pad.
    now apply ascii_eqb_neq. }
  assert (Hdash : Forall (fun x => x <> dash) cs)
    by (eapply Forall_impl; [|exact Hclean]; now intros x [_ H]).
  change (firstn 4 (prefix ++ ?x)) with (firstn (length prefix) (prefix ++ x)).
  change (skipn 4 (prefix ++ ?x)) with (skipn (length prefix) (prefix ++ x)).
  rewrite firstn_app_exact, skipn_app_exact.
  unfold validate_license_key. rewrite startswith_app. cbn [negb].
  change (skipn 4 (prefix ++ ?x)) with (skipn (length prefix) (prefix ++ x)).
  rewrite skipn_app_exact, remove_char_lower.
  rewrite (remove_join_groups dash 4) by (auto; lia).
  unfold b32decode.
  change ((8 - length (map lower cs) mod 8) mod 8)
    with (pad_count (length (map lower cs))).
  rewrite length_app, repeat_length, pad_count_total. cbn [Nat.eqb negb].
  rewrite rstrip_app_repeat by exact Hpad.
  rewrite E. cbn [map bits_of_chars]. rewrite Hc. reflexivity.
Qed.

(** A generated payload starts with the version byte, so its text starts
    with [A]. *)
Lemma final_payload_head t cid name email exp mu feats payload :
  final_payload t cid name email exp mu feats = Some payload ->
  exists rest, payload = "001"%char :: rest.
Proof.
  unfold final_payload, Struct.pack_BI.
  destruct (_ && _); [|discriminate]. intros [= <-].
  eexists. reflexivity.
Qed.

Lemma encoded_key_head rest :
  exists r, encoded_key ("001"%char :: rest) = "A"%char :: r.
Proof.
  rewrite encoded_key_chars. eexists. reflexivity.
Qed.

(** The token of a payload that starts with the version byte starts with
    the letter A after the prefix, so lowering it changes it. *)
Lemma lowercased_differs rest :
  lowercased (format_key ("001"%char :: rest))
  <> format_key ("001"%char :: rest).
Proof.
  destruct (encoded_key_head rest) as (r & Hr).
  rewrite <- token_of_encoded, Hr. unfold lowercased, token_of.
  change (firstn 4 (prefix ++ ?x)) with (firstn (length prefix) (prefix ++ x)).
  change (skipn 4 (prefix ++ ?x)) with (skipn (length prefix) (prefix ++ x)).
  rewrite firstn_app_exact, skipn_app_exact.
  cbn [length groups_of firstn].
  destruct (groups_of _ 5 _) as [|g gs]; cbn [join app map]; discriminate.
Qed.

(** *** Short payloads *)

Lemma decode_short now payload :
  length payload < 25 -> decode_payload now payload = inl InvalidLength.
Proof.
  intros H. unfold decode_payload.
  now replace (length payload <? 25) with true by (symmetry; now apply Nat.ltb_lt).
Qed.

Lemma decode_below_33 now payload :
  zlib_decompress [] = None ->
  length payload < 33 -> forall md, decode_payload now payload <> inr md.
Proof.
  intros Hz Hl md. unfold decode_payload.
  destruct (_ <? 25); [discriminate|].
  destruct (Struct.unpack_BI _) as [[v t]|]; [|discriminate].
  destruct (negb (v =? VERSION)%Z); [discriminate|].
  destruct (Struct.unpack_I _) as [c|]; [|discriminate].
  destruct (negb (c =? _)%Z); [discriminate|].
  destruct (negb (str_eqb _ _)); [discriminate|].
  replace (skipn 13 (firstn (length payload - 20) payload)) with (@nil ascii).
  - rewrite Hz. discriminate.
  - symmetry. apply skipn_all2. rewrite length_firstn. lia.
Qed.

End Tokens.
End Tokens.

Module CRC32Linear.
Import CRC32 Framing.
Local Open Scope Z_scope.

Lemma lxor_bound n a b :
  0 <= n -> 0 <= a < 2 ^ n -> 0 <= b < 2 ^ n -> 0 <= Z.lxor a b < 2 ^ n.
Proof.
  intros Hn Ha Hb.
  assert (E : Z.lxor a b = (Z.lxor a b) mod 2 ^ n).
  { apply Z.bits_inj'. intros i Hi. destruct (Z.lt_ge_cases i n) as [Hlt|Hge].
    - now rewrite Z.mod_pow2_bits_low.
    - rewrite Z.mod_pow2_bits_high by (split; assumption).
      rewrite Z.lxor_spec.
      rewrite <- (Z.mod_small a (2 ^ n)), <- (Z.mod_small b (2 ^ n)) by assumption.
      rewrite !Z.mod_pow2_bits_high by (split; assumption). reflexivity. }
  rewrite E. apply Z.mod_pos_bound. apply Z.pow_pos_nonneg; [reflexivity|exact Hn].
Qed.

Lemma lxor_word a b : word a -> word b -> word (Z.lxor a b).
Proof. unfold word. apply (lxor_bound 32). discriminate. Qed.

Lemma byte_word a : word (Z_of_byte a).
Proof. pose proof (Z_of_byte_range a). unfold word. lia. Qed.

Lemma step_word s : word s -> word (step s).
Proof.
  intros H. unfold step. apply lxor_word.
  - unfold word in *. rewrite Z.shiftr_div_pow2 by lia.
    change (2 ^ 1) with 2. Z.div_mod_to_equations. lia.
  - destruct (Z.testbit s 0); unfold word, poly; lia.
Qed.

Lemma step_lxor a b : step (Z.lxor a b) = Z.lxor (step a) (step b).
Proof.
  unfold step. rewrite Z.shiftr_lxor, Z.lxor_spec.
  destruct (Z.testbit a 0), (Z.testbit b 0); cbn [xorb]; xor_solve.
Qed.

Lemma step_kernel s : word s -> step s = 0 -> s = 0.
Proof.
  unfold word, step. intros H E. apply Z.lxor_eq in E.
  rewrite Z.shiftr_div_pow2 in E by lia. change (2 ^ 1) with 2 in E.
  rewrite Z.bit0_odd in E. destruct (Z.odd s) eqn:Ho.
  - unfold poly in E. Z.div_mod_to_equations. lia.
  - pose proof (Z.div_mod s 2 ltac:(lia)) as Hd.
    rewrite Zmod_odd, Ho in Hd. lia.
Qed.

Lemma step_inj a b : word a -> word b -> step a = step b -> a = b.
Proof.
  intros Ha Hb E. apply Z.lxor_eq. apply step_kernel.
  - now apply lxor_word.
  - rewrite step_lxor, E. apply Z.lxor_nilpotent.
Qed.

Lemma step8_unfold c :
  step8 c = step (step (step (step (step (step (step (step c))))))).
Proof. reflexivity. Qed.

Lemma update_unfold s b : update s b = step8 (Z.lxor s (Z_of_byte b)).
Proof. reflexivity. Qed.

Lemma fold_left_cons {A B} (f : A -> B -> A) b d s :
  fold_left f (b :: d) s = fold_left f d (f s b).
Proof. reflexivity. Qed.

Lemma iter8_inj (f : Z -> Z) :
  (forall s, word s -> word (f s)) ->
  (forall a b, word a -> word b -> f a = f b -> a = b) ->
  forall a b, word a -> word b ->
  f (f (f (f (f (f (f (f a))))))) = f (f (f (f (f (f (f (f b))))))) -> a = b.
Proof.
  intros Hw Hi a b Ha Hb E.
  repeat (apply Hi in E; [|repeat apply Hw; assumption|repeat apply Hw; assumption]).
  exact E.
Qed.

Lemma step8_word s : word s -> word (step8 s).
Proof. intros H. rewrite step8_unfold. now do 8 apply step_word. Qed.

Lemma step8_lxor a b : step8 (Z.lxor a b) = Z.lxor (step8 a) (step8 b).
Proof. rewrite !step8_unfold. now rewrite !step_lxor. Qed.

Lemma step8_inj a b : word a -> word b -> step8 a = step8 b -> a = b.
Proof.
  intros Ha Hb E. rewrite !step8_unfold in E.
  exact (iter8_inj step step_word step_inj a b Ha Hb E).
Qed.

Lemma update_word s b : word s -> word (update s b).
Proof.
  intros H. rewrite update_unfold.
  apply step8_word, lxor_word; [exact H|apply byte_word].
Qed.

Lemma fold_word d : forall s, word s -> word (fold_left update d s).
Proof.
  induction d as [|b d IH]; intros s H; [exact H|].
  rewrite fold_left_cons. apply IH. apply update_word. exact H.
Qed.

Lemma Z_of_byte_inj a b : Z_of_byte a = Z_of_byte b -> a = b.
Proof.
  intros H. rewrite <- (byte_of_Z_of_byte a), <- (byte_of_Z_of_byte b).
  now rewrite H.
Qed.

Lemma lxor_cancel_r a b c : Z.lxor a c = Z.lxor b c -> a = b.
Proof.
  intros E. transitivity (Z.lxor (Z.lxor a c) c); [xor_solve|].
  rewrite E. xor_solve.
Qed.

Lemma lxor_cancel_l a b c : Z.lxor c a = Z.lxor c b -> a = b.
Proof.
  intros E. transitivity (Z.lxor c (Z.lxor c a)); [xor_solve|].
  rewrite E. xor_solve.
Qed.

Lemma update_inj_state s s' b :
  word s -> word s' -> update s b = update s' b -> s = s'.
Proof.
  intros Hs Hs' E. rewrite !update_unfold in E.
  assert (W1 : word (Z.lxor s (Z_of_byte b)))
    by (apply lxor_word; [assumption|apply byte_word]).
  assert (W2 : word (Z.lxor s' (Z_of_byte b)))
    by (apply lxor_word; [assumption|apply byte_word]).
  pose proof (step8_inj _ _ W1 W2 E) as E'.
  exact (lxor_cancel_r _ _ _ E').
Qed.

Lemma fold_inj d : forall s s',
  word s -> word s' -> fold_left update d s = fold_left update d s' -> s = s'.
Proof.
  induction d as [|b d IH]; intros s s' Hs Hs' E; [exact E|].
  rewrite !fold_left_cons in E.
  apply (update_inj_state s s' b Hs Hs').
  apply IH; [now apply update_word|now apply update_word|exact E].
Qed.

Lemma update_inj_byte s x x' :
  word s -> update s x = update s x' -> x = x'.
Proof.
  intros Hs E. rewrite !update_unfold in E.
  assert (W1 : word (Z.lxor s (Z_of_byte x)))
    by (apply lxor_word; [assumption|apply byte_word]).
  assert (W2 : word (Z.lxor s (Z_of_byte x')))
    by (apply lxor_word; [assumption|apply byte_word]).
  pose proof (step8_inj _ _ W1 W2 E) as E'.
  apply Z_of_byte_inj. exact (lxor_cancel_l _ _ _ E').
Qed.

(** The table entry of a non-zero byte has a bit above the low byte, and a
    bit below the top byte. *)
Lemma table_facts : forallb table_ok (map Z.of_nat (seq 0 256)) = true.
Proof. vm_compute. reflexivity. Qed.

Lemma table_entry e :
  0 <= e < 256 -> e <> 0 -> 256 <= step8 e /\ step8 e mod 16777216 <> 0.
Proof.
  intros He Hn.
  pose proof (proj1 (forallb_forall _ _) table_facts e) as H.
  assert (Hin : In e (map Z.of_nat (seq 0 256))).
  { apply in_map_iff. exists (Z.to_nat e). split; [lia|].
    apply in_seq. lia. }
  specialize (H Hin). unfold table_ok in H.
  apply orb_true_iff in H as [H|H]; [lia|].
  apply andb_true_iff in H as [H1 H2].
  apply negb_true_iff in H2. split; lia.
Qed.

Lemma byte_lxor_range a b : 0 <= Z.lxor (Z_of_byte a) (Z_of_byte b) < 256.
Proof.
  apply (lxor_bound 8); [discriminate|apply Z_of_byte_range..].
Qed.

(** Difference of the states after one byte *)
Lemma step8_zero : step8 0 = 0.
Proof. vm_compute. reflexivity. Qed.

Lemma update_diff s x x' :
  Z.lxor (update s x) (update s x')
  = step8 (Z.lxor (Z_of_byte x) (Z_of_byte x')).
Proof.
  rewrite !update_unfold, <- step8_lxor. f_equal. xor_solve.
Qed.

Lemma lxor_swap a b c d : Z.lxor a c = Z.lxor b d -> Z.lxor a b = Z.lxor c d.
Proof.
  intros E. transitivity (Z.lxor (Z.lxor a c) (Z.lxor c b)); [xor_solve|].
  rewrite E. xor_solve.
Qed.

Lemma update_two_bytes s x y x' y' :
  word s ->
  update (update s x) y = update (update s x') y' -> x = x' /\ y = y'.
Proof.
  intros Hs E0.
  rewrite (update_unfold (update s x)), (update_unfold (update s x')) in E0.
  assert (W1 : word (Z.lxor (update s x) (Z_of_byte y)))
    by (apply lxor_word; [now apply update_word|apply byte_word]).
  assert (W2 : word (Z.lxor (update s x') (Z_of_byte y')))
    by (apply lxor_word; [now apply update_word|apply byte_word]).
  pose proof (step8_inj _ _ W1 W2 E0) as E.
  apply lxor_swap in E. rewrite update_diff in E.
  pose proof (byte_lxor_range x x') as Hx.
  pose proof (byte_lxor_range y y') as Hy.
  destruct (Z.eq_dec (Z.lxor (Z_of_byte x) (Z_of_byte x')) 0) as [Ex|Ex].
  - rewrite Ex, step8_zero in E.
    split; apply Z_of_byte_inj, Z.lxor_eq; congruence.
  - destruct (table_entry _ Hx Ex) as [H _]. lia.
Qed.

End CRC32Linear.

Module CRC32Bursts.
Import CRC32 Framing CRC32Linear.

Lemma fold_left_nil {A B} (f : A -> B -> A) s : fold_left f [] s = s.
Proof. reflexivity. Qed.

Lemma crc32_unfold d : crc32 d = Z.lxor (fold_left update d mask) mask.
Proof. reflexivity. Qed.

Lemma mask_word : word mask.
Proof. unfold word, mask. lia. Qed.

Lemma crc32_word d : word (crc32 d).
Proof. rewrite crc32_unfold. apply lxor_word; [apply fold_word|]; apply mask_word. Qed.

Lemma crc32_masked d : Z.land (crc32 d) 4294967295 = crc32 d.
Proof.
  change 4294967295%Z with (Z.ones 32). rewrite Z.land_ones by discriminate.
  apply Z.mod_small. apply crc32_word.
Qed.

Lemma fold_differ d : forall d' j s,
  word s -> differ_at j d d' ->
  fold_left update d s = fold_left update d' s -> d = d'.
Proof.
  induction d as [|x r IH]; intros [|x' r'] j s Hs [Hl Hk] E;
    try discriminate; [reflexivity|].
  rewrite !fold_left_cons in E.
  destruct j as [|j].
  - destruct r as [|y B], r' as [|y' B']; try discriminate.
    + rewrite !fold_left_nil in E. now rewrite (update_inj_byte s x x' Hs E).
    + assert (HB : B = B').
      { apply nth_error_ext. intros k.
        exact (Hk (S (S k)) ltac:(discriminate) ltac:(discriminate)). }
      subst B'. rewrite !fold_left_cons in E.
      apply fold_inj in E; try (now repeat apply update_word).
      destruct (update_two_bytes s x y x' y' Hs E) as [-> ->]. reflexivity.
  - assert (Hx : x = x').
    { specialize (Hk 0%nat ltac:(discriminate) ltac:(discriminate)).
      now injection Hk. }
    subst x'. f_equal.
    apply (IH r' j (update s x)); [now apply update_word| |exact E].
    split; [now injection Hl|].
    intros k H1 H2. apply (Hk (S k)); congruence.
Qed.

(** Two inputs that differ in at most two adjacent bytes have different
    checksums. *)
Lemma crc32_differ d d' j :
  differ_at j d d' -> crc32 d = crc32 d' -> d = d'.
Proof.
  intros Hd E. rewrite !crc32_unfold in E. apply lxor_cancel_r in E.
  exact (fold_differ d d' j mask mask_word Hd E).
Qed.

Lemma lxor_low_bits a b n :
  (0 <= n)%Z -> (a mod 2 ^ n = b mod 2 ^ n)%Z -> (Z.lxor a b mod 2 ^ n = 0)%Z.
Proof.
  intros Hn E. apply Z.bits_inj'. intros i Hi. rewrite Z.bits_0.
  destruct (Z.lt_ge_cases i n) as [Hlt|Hge].
  - rewrite Z.mod_pow2_bits_low by exact Hlt. rewrite Z.lxor_spec.
    rewrite <- (Z.mod_pow2_bits_low a n i Hlt), <- (Z.mod_pow2_bits_low b n i Hlt).
    rewrite E. apply xorb_nilpotent.
  - apply Z.mod_pow2_bits_high. split; assumption.
Qed.

(** A change of the last byte shows in the low three bytes of the
    checksum. *)
Lemma crc32_last_byte A x x' :
  (crc32 (A ++ [x]) mod 16777216 = crc32 (A ++ [x']) mod 16777216)%Z ->
  x = x'.
Proof.
  intros E. replace 16777216%Z with (2 ^ 24)%Z in E by reflexivity.
  apply lxor_low_bits in E; [|discriminate].
  rewrite !crc32_unfold, !fold_left_app in E.
  rewrite !fold_left_cons, !fold_left_nil in E.
  replace (Z.lxor (Z.lxor (update (fold_left update A mask) x) mask)
                  (Z.lxor (update (fold_left update A mask) x') mask))
    with (Z.lxor (update (fold_left update A mask) x)
                 (update (fold_left update A mask) x')) in E by xor_solve.
  rewrite update_diff in E.
  apply Z_of_byte_inj, Z.lxor_eq.
  destruct (Z.eq_dec (Z.lxor (Z_of_byte x) (Z_of_byte x')) 0) as [Ex|Ex];
    [exact Ex|].
  destruct (table_entry _ (byte_lxor_range x x') Ex) as [_ H].
  replace (2 ^ 24)%Z with 16777216%Z in E by reflexivity. contradiction.
Qed.

End CRC32Bursts.

Module Layout.
Import CRC32 Framing CRC32Linear CRC32Bursts.

Lemma byte_of_Z_eq z b : (z mod 256 = Z_of_byte b)%Z -> byte_of_Z z = b.
Proof.
  intros H. unfold byte_of_Z. rewrite H. unfold Z_of_byte.
  rewrite N2Z.id. apply ascii_N_embedding.
Qed.

Lemma pack_unpack_I l c : Struct.unpack_I l = Some c -> Struct.pack_I c = l.
Proof.
  destruct l as [|b3 [|b2 [|b1 [|b0 [|? ?]]]]]; try discriminate.
  cbn [Struct.unpack_I]. intros [= <-]. unfold Struct.pack_I.
  pose proof (Z_of_byte_range b3). pose proof (Z_of_byte_range b2).
  pose proof (Z_of_byte_range b1). pose proof (Z_of_byte_range b0).
  set (B3 := Z_of_byte b3) in *. set (B2 := Z_of_byte b2) in *.
  set (B1 := Z_of_byte b1) in *. set (B0 := Z_of_byte b0) in *.
  rewrite (byte_of_Z_eq _ b3), (byte_of_Z_eq _ b2), (byte_of_Z_eq _ b1),
    (byte_of_Z_eq _ b0); [reflexivity|..]; fold B0 B1 B2 B3;
    Z.div_mod_to_equations; lia.
Qed.

Lemma unpack_I_total l : length l = 4 -> exists c, Struct.unpack_I l = Some c.
Proof.
  destruct l as [|b3 [|b2 [|b1 [|b0 [|? ?]]]]]; try discriminate.
  intros _. eexists. reflexivity.
Qed.

Lemma unpack_BI_total l :
  length l = 5 -> exists v t, Struct.unpack_BI l = Some (v, t).
Proof.
  destruct l as [|v l]; [discriminate|]. intros [= H].
  destruct (unpack_I_total l H) as (t & Ht).
  exists (Z_of_byte v), t. cbn [Struct.unpack_BI]. now rewrite Ht.
Qed.

Lemma app_eq_parts {A} (a a' b b' : list A) :
  length a = length a' -> a ++ b = a' ++ b' -> a = a' /\ b = b'.
Proof.
  revert a'. induction a as [|x a IH]; intros [|x' a'] Hl E; try discriminate.
  - now split.
  - cbn [app] in E. injection E as -> E. injection Hl as Hl.
    destruct (IH a' Hl E) as [-> ->]. now split.
Qed.

(** Agreement of the pieces of two concatenations *)
Lemma differ_core j (core core' rest rest' : bytes) :
  length core' = length core ->
  differ_at j (core ++ rest) (core' ++ rest') ->
  differ_at j core core'.
Proof.
  intros Hl [_ Hk]. split; [now symmetry|].
  intros k H1 H2. specialize (Hk k H1 H2).
  destruct (Nat.lt_ge_cases k (length core)) as [Hlt|Hge].
  - rewrite !nth_error_app1 in Hk by lia. exact Hk.
  - rewrite (proj2 (nth_error_None core k)) by lia.
    rewrite (proj2 (nth_error_None core' k)) by lia. reflexivity.
Qed.

Lemma same_core j (core core' rest rest' : bytes) :
  length core' = length core -> length core <= j ->
  differ_at j (core ++ rest) (core' ++ rest') ->
  core' = core.
Proof.
  intros Hl Hj Hd. apply differ_core in Hd; [|exact Hl].
  destruct Hd as [_ Hk]. symmetry. apply nth_error_ext. intros k.
  destruct (Nat.lt_ge_cases k (length core)) as [Hlt|Hge].
  - apply Hk; lia.
  - rewrite (proj2 (nth_error_None core k)) by lia.
    rewrite (proj2 (nth_error_None core' k)) by lia. reflexivity.
Qed.

Lemma same_middle j (core core' mid mid' rest rest' : bytes) :
  length core' = length core -> length mid' = length mid ->
  S j < length core ->
  differ_at j (core ++ mid ++ rest) (core' ++ mid' ++ rest') ->
  mid' = mid.
Proof.
  intros Hl Hm Hj [_ Hk]. symmetry. apply nth_error_ext. intros k.
  destruct (Nat.lt_ge_cases k (length mid)) as [Hlt|Hge].
  - specialize (Hk (length core + k)%nat ltac:(lia) ltac:(lia)).
    rewrite (nth_error_app2 core), (nth_error_app2 core') in Hk by lia.
    replace (length core + k - length core')%nat with k in Hk by lia.
    replace (length core + k - length core)%nat with k in Hk by lia.
    rewrite (nth_error_app1 mid), (nth_error_app1 mid') in Hk by lia.
    exact Hk.
  - rewrite (proj2 (nth_error_None mid k)) by lia.
    rewrite (proj2 (nth_error_None mid' k)) by lia. reflexivity.
Qed.

Lemma split_last {A} (l : list A) j :
  length l = S j -> exists x, l = firstn j l ++ [x].
Proof.
  intros H.
  assert (Hs : length (skipn j l) = 1%nat) by (rewrite length_skipn; lia).
  destruct (skipn j l) as [|x [|? ?]] eqn:E; try discriminate.
  exists x. rewrite <- E. symmetry. apply firstn_skipn.
Qed.

End Layout.

Module Checksum.
Import CRC32 Framing CRC32Linear CRC32Bursts Layout AdvancedLicenseKeyGenerator.

Lemma low_bytes c l b3 b2 b1 b0 c' :
  Struct.pack_I c = l ->
  nth_error l 1 = Some b2 -> nth_error l 2 = Some b1 -> nth_error l 3 = Some b0 ->
  Struct.unpack_I [b3; b2; b1; b0] = Some c' ->
  (c mod 16777216 = c' mod 16777216)%Z.
Proof.
  intros <-. unfold Struct.pack_I. cbn [nth_error Struct.unpack_I].
  intros [= <-] [= <-] [= <-] [= <-].
  rewrite !Z_of_byte_of_Z.
  pose proof (Z_of_byte_range b3).
  Z.div_mod_to_equations. lia.
Qed.

(** A payload whose checksum field matches its core, and which differs from
    a generated payload in at most two adjacent bytes, has the core and the
    checksum of that payload. *)
Lemma checksum_binding j (core core' chk' sig sig' : bytes) :
  length core' = length core -> length chk' = 4 ->
  differ_at j (core ++ Struct.pack_I (crc32 core) ++ sig)
              (core' ++ chk' ++ sig') ->
  Struct.unpack_I chk' = Some (crc32 core') ->
  core' = core /\ chk' = Struct.pack_I (crc32 core).
Proof.
  intros Hl Hc Hd Hu.
  destruct (Nat.lt_ge_cases j (length core)) as [Hlt|Hge].
  2:{ pose proof (same_core j _ _ _ _ Hl Hge Hd) as ->.
      split; [reflexivity|]. symmetry. now apply pack_unpack_I. }
  destruct (Nat.eq_dec (S j) (length core)) as [Heq|Hne].
  - (* the last byte of the core and the first of the checksum *)
    destruct (split_last core j (eq_sym Heq)) as (x & Ex).
    destruct (split_last core' j ltac:(lia)) as (x' & Ex').
    assert (HA : firstn j core' = firstn j core).
    { destruct (differ_core j _ _ _ _ Hl Hd) as [_ Hk].
      symmetry. apply nth_error_ext. intros k. rewrite !nth_error_firstn.
      destruct (k <? j)%nat eqn:E; [|reflexivity].
      apply Nat.ltb_lt in E. apply Hk; lia. }
    destruct chk' as [|b3 [|b2 [|b1 [|b0 [|? ?]]]]]; try discriminate.
    destruct Hd as [_ Hk].
    assert (Hpos : forall i b, (1 <= i < 4)%nat ->
              nth_error [b3; b2; b1; b0] i = Some b ->
              nth_error (Struct.pack_I (crc32 core)) i = Some b).
    { intros i b Hi Hb.
      specialize (Hk (length core + i)%nat ltac:(lia) ltac:(lia)).
      rewrite (nth_error_app2 core), (nth_error_app2 core') in Hk by lia.
      replace (length core + i - length core')%nat with i in Hk by lia.
      replace (length core + i - length core)%nat with i in Hk by lia.
      rewrite (nth_error_app1 (Struct.pack_I (crc32 core))) in Hk
        by (rewrite pack_I_length; lia).
      rewrite (nth_error_app1 [b3; b2; b1; b0]) in Hk by (cbn [length]; lia).
      now rewrite Hk. }
    pose proof (low_bytes (crc32 core) _ b3 b2 b1 b0 (crc32 core') eq_refl
                  (Hpos 1%nat b2 ltac:(lia) eq_refl)
                  (Hpos 2%nat b1 ltac:(lia) eq_refl)
                  (Hpos 3%nat b0 ltac:(lia) eq_refl) Hu) as Hlow.
    rewrite Ex, Ex', HA in Hlow.
    apply crc32_last_byte in Hlow. subst x'.
    assert (Ecore : core' = core) by (rewrite Ex, Ex', HA; reflexivity).
    split; [exact Ecore|].
    symmetry. rewrite <- Ecore. now apply pack_unpack_I.
  - (* both bytes inside the core *)
    assert (Hchk : chk' = Struct.pack_I (crc32 core))
      by (apply (same_middle j core core' _ _ sig sig'); auto; lia).
    rewrite Hchk, unpack_pack_I in Hu by apply crc32_word.
    injection Hu as Hu.
    split; [|exact Hchk]. symmetry.
    apply (crc32_differ core core' j); [|exact Hu].
    now apply differ_core in Hd.
Qed.

Section Tamper.
Context {prims : Primitives}.

Lemma str_eqb_neq s t : s <> t -> str_eqb s t = false.
Proof.
  intros H. destruct (str_eqb s t) eqn:E; [|reflexivity].
  apply str_eqb_eq in E. contradiction.
Qed.

(** The verdict on a payload that differs from a generated one in at most
    two adjacent bytes. *)
Lemma decode_tampered now j (core sig p' : bytes) :
  (5 <= length core)%nat -> length sig = 16%nat ->
  sig = firstn 16 (hmac_sha256 (utf8 SECRET_KEY)
                     (core ++ Struct.pack_I (crc32 core))) ->
  differ_at j (core ++ Struct.pack_I (crc32 core) ++ sig) p' ->
  p' <> core ++ Struct.pack_I (crc32 core) ++ sig ->
  (exists v, decode_payload now p' = inl (UnsupportedVersion v))
  \/ decode_payload now p' = inl ChecksumFailed
  \/ decode_payload now p' = inl SignatureFailed.
Proof.
  intros Hcore Hsig Esig Hd Hne.
  set (m := length core).
  assert (Hn : length p' = (m + 20)%nat).
  { destruct Hd as [Hl _]. rewrite <- Hl, !length_app, pack_I_length. lia. }
  set (core' := firstn m p').
  set (chk' := firstn 4 (skipn m p')).
  set (sig' := skipn (m + 4) p').
  assert (Ep : p' = core' ++ chk' ++ sig').
  { unfold core', chk', sig'.
    rewrite <- (firstn_skipn m p') at 1. f_equal.
    rewrite <- (firstn_skipn 4 (skipn m p')) at 1. f_equal.
    rewrite skipn_skipn. f_equal. lia. }
  assert (Hl : length core' = length core)
    by (unfold core'; rewrite length_firstn; lia).
  assert (Hc : length chk' = 4%nat)
    by (unfold chk'; rewrite length_firstn, length_skipn; lia).
  unfold decode_payload.
  replace (length p' <? 25)%nat with false by (symmetry; apply Nat.ltb_ge; lia).
  destruct (unpack_BI_total (firstn 5 p')) as (v & t & Hv);
    [rewrite length_firstn; lia|].
  rewrite Hv.
  destruct (negb (v =? VERSION)%Z); [left; now exists v|right].
  replace (length p' - 20)%nat with m by lia.
  replace (length p' - 16)%nat with (m + 4)%nat by lia.
  fold core' chk' sig'.
  destruct (unpack_I_total chk' Hc) as (c' & Hc').
  rewrite Hc'.
  destruct (negb (c' =? Z.land (crc32 core') 4294967295)%Z) eqn:Echk;
    [now left|right].
  apply negb_false_iff, Z.eqb_eq in Echk. rewrite crc32_masked in Echk.
  subst c'. rewrite Ep in Hd, Hne.
  destruct (checksum_binding j core core' chk' sig sig' Hl Hc Hd Hc')
    as [Ecore Echk].
  rewrite Ecore. rewrite <- Esig.
  rewrite str_eqb_neq; [reflexivity|].
  intros Es. apply Hne. now rewrite Ecore, Echk, Es.
Qed.

End Tamper.
End Checksum.

Module Base32Locality.
Import Base32 Base32Facts Framing Properties CRC32Bursts.

Lemma bits_of_char_length c g : bits_of_char c = Some g -> length g = 5.
Proof.
  unfold bits_of_char. destruct (find_index c alphabet 0); [|discriminate].
  now intros [= <-].
Qed.

Lemma bits_of_chars_length s : forall B,
  bits_of_chars s = Some B -> length B = 5 * length s.
Proof.
  induction s as [|x r IH]; intros B; cbn [bits_of_chars].
  - now intros [= <-].
  - destruct (bits_of_char x) as [bx|] eqn:Ex; [|discriminate].
    destruct (bits_of_chars r) as [Br|]; [|discriminate].
    intros [= <-]. rewrite length_app, (bits_of_char_length x bx Ex), (IH Br eq_refl).
    cbn [length]. lia.
Qed.

(** Substituting one digit changes only its five bits. *)
Lemma bits_of_chars_substitute c g s : forall i B,
  bits_of_char c = Some g -> bits_of_chars s = Some B -> i < length s ->
  exists B',
    bits_of_chars (substitute i c s) = Some B'
    /\ length B' = length B
    /\ forall q, q < 5 * i \/ 5 * i + 5 <= q -> nth_error B' q = nth_error B q.
Proof.
  induction s as [|x r IH]; intros i B Hc HB Hi; [cbn in Hi; lia|].
  cbn [bits_of_chars] in HB.
  destruct (bits_of_char x) as [bx|] eqn:Ex; [|discriminate].
  destruct (bits_of_chars r) as [Br|] eqn:Er; [|discriminate].
  injection HB as <-.
  pose proof (bits_of_char_length x bx Ex) as Lx.
  pose proof (bits_of_char_length c g Hc) as Lg.
  destruct i as [|i].
  - exists (g ++ Br). cbn [substitute bits_of_chars]. rewrite Hc, Er.
    split; [reflexivity|]. split; [rewrite !length_app; lia|].
    intros q [Hq|Hq]; [lia|].
    rewrite !nth_error_app2 by lia. now rewrite Lx, Lg.
  - destruct (IH i Br Hc eq_refl ltac:(cbn in Hi; lia)) as (Br' & E' & L' & Hq').
    exists (bx ++ Br'). cbn [substitute bits_of_chars]. rewrite Ex, E'.
    split; [reflexivity|]. split; [rewrite !length_app; lia|].
    intros q Hq.
    destruct (Nat.lt_ge_cases q 5) as [Hlt|Hge].
    + rewrite !nth_error_app1 by lia. reflexivity.
    + rewrite !nth_error_app2 by lia. apply Hq'. lia.
Qed.

(** Induction on bit strings eight bits at a time. *)
Lemma list_ind8 {A} (P : list A -> Prop) :
  (forall l, length l < 8 -> P l) ->
  (forall a b c d e f g h r, P r -> P (a :: b :: c :: d :: e :: f :: g :: h :: r)) ->
  forall l, P l.
Proof.
  intros H0 H8. fix IH 1. intros l.
  destruct l as [|a [|b [|c [|d [|e [|f [|g [|h r]]]]]]]];
    try (apply H0; cbn [length]; lia).
  apply H8. apply IH.
Qed.

Lemma byte_of_window_short w : length w < 8 -> byte_of_window w = None.
Proof.
  intros H. do 8 (destruct w as [|? w]; [reflexivity|]). cbn [length] in H. lia.
Qed.

(** The [k]-th byte is made of bits [8k .. 8k+7]. *)
Lemma nth_error_bytes_of_bits k : forall B,
  nth_error (bytes_of_bits B) k = byte_of_window (firstn 8 (skipn (8 * k) B)).
Proof.
  induction k as [|k IH]; intros B.
  - replace (8 * 0) with 0 by reflexivity. cbn [skipn].
    induction B as [B HB|a b c d e f g h r _] using list_ind8.
    + rewrite bytes_of_bits_short by exact HB.
      rewrite byte_of_window_short; [reflexivity|].
      rewrite length_firstn. lia.
    + reflexivity.
  - induction B as [B HB|a b c d e f g h r _] using list_ind8.
    + rewrite bytes_of_bits_short by exact HB.
      rewrite skipn_all2 by lia. reflexivity.
    + cbn [bytes_of_bits nth_error]. rewrite IH.
      replace (8 * S k) with (8 * k + 8) by lia.
      rewrite <- skipn_skipn. reflexivity.
Qed.

Lemma bytes_of_bits_length B : length (bytes_of_bits B) = length B / 8.
Proof.
  induction B as [B HB|a b c d e f g h r IH] using list_ind8.
  - rewrite bytes_of_bits_short by exact HB. cbn [length].
    symmetry. now apply Nat.div_small.
  - cbn [bytes_of_bits length]. rewrite IH.
    replace (S (S (S (S (S (S (S (S (length r))))))))) with (1 * 8 + length r) by lia.
    rewrite Nat.div_add_l by lia. reflexivity.
Qed.

Lemma window_agree k (B B' : list bool) :
  (forall q, 8 * k <= q < 8 * k + 8 -> nth_error B' q = nth_error B q) ->
  firstn 8 (skipn (8 * k) B') = firstn 8 (skipn (8 * k) B).
Proof.
  intros H. apply nth_error_ext. intros q.
  rewrite !nth_error_firstn. destruct (q <? 8) eqn:E; [|reflexivity].
  apply Nat.ltb_lt in E. rewrite !nth_error_skipn. apply H. lia.
Qed.

(** Bits that agree outside one digit give bytes that agree outside two
    adjacent positions. *)
Lemma bytes_differ_at i (B B' : list bool) :
  length B' = length B ->
  (forall q, q < 5 * i \/ 5 * i + 5 <= q -> nth_error B' q = nth_error B q) ->
  differ_at (5 * i / 8) (bytes_of_bits B) (bytes_of_bits B').
Proof.
  intros Hl Hq. split; [now rewrite !bytes_of_bits_length, Hl|].
  intros k H1 H2. rewrite !nth_error_bytes_of_bits. f_equal. symmetry.
  apply window_agree. intros q Hw. apply Hq.
  pose proof (Nat.div_mod_eq (5 * i) 8) as Hd.
  pose proof (Nat.mod_upper_bound (5 * i) 8 ltac:(lia)) as Hm.
  set (j := 5 * i / 8) in *. clearbody j.
  destruct (Nat.lt_ge_cases k j); lia.
Qed.

End Base32Locality.

Module Tamper.
Import Base32 Base32Facts Framing Properties CRC32Bursts Layout Checksum Base32Locality Tokens Codec AdvancedLicenseKeyGenerator.

Lemma substitute_length i c s : length (substitute i c s) = length s.
Proof.
  revert i. induction s as [|x r IH]; intros [|i]; cbn [substitute length];
    auto.
Qed.

Lemma Forall_substitute (P : ascii -> Prop) i c s :
  P c -> Forall P s -> Forall P (substitute i c s).
Proof.
  intros Hc Hs. revert i. induction Hs as [|x r Hx Hr IH]; intros [|i];
    cbn [substitute]; constructor; auto.
Qed.

Lemma payload_of_clean_text cs :
  Forall clean cs ->
  payload_of_text cs
  = match bits_of_chars cs with
    | None => inl NonBase32Digit
    | Some bits =>
        if valid_padchars (pad_count (length cs))
        then inr (bytes_of_bits bits)
        else inl IncorrectPadding
    end.
Proof.
  intros Hclean.
  assert (Hpad : Forall (fun x => x <> pad) cs)
    by (eapply Forall_impl; [|exact Hclean]; now intros c [H _]).
  unfold payload_of_text, b32decode.
  rewrite length_app, repeat_length, pad_count_total. cbn [Nat.eqb negb].
  rewrite rstrip_app_repeat by exact Hpad.
  replace (length cs + pad_count (length cs) - length cs)
    with (pad_count (length cs)) by lia.
  reflexivity.
Qed.

Lemma encoded_key_padding p :
  valid_padchars (pad_count (length (encoded_key p))) = true.
Proof.
  rewrite encoded_key_chars, chars_of_bits_length, bits_of_bytes_length.
  apply pad_count_valid.
Qed.

Section Tamper.
Context {prims : Primitives}.
Hypothesis sha256_length : forall x, length (sha256 x) = 32.
Hypothesis hmac_length : forall k m, length (hmac_sha256 k m) = 32.

Lemma tamper_detection now t cid name email exp mu feats p i c :
  final_payload t cid name email exp mu feats = Some p ->
  i < length (encoded_key p) -> in_alphabet c ->
  payload_of_text (substitute i c (encoded_key p)) <> inr p ->
  let k' := token_of (substitute i c (encoded_key p)) in
  (exists v, validate_license_key now k' = inl (UnsupportedVersion v))
  \/ validate_license_key now k' = inl ChecksumFailed
  \/ validate_license_key now k' = inl SignatureFailed.
Proof.
  intros Hp Hi Hc Hne k'. unfold k'. clear k'.
  set (cs := encoded_key p) in *.
  assert (Hclean' : Forall clean (substitute i c cs)).
  { apply Forall_substitute; [now apply in_alphabet_clean|].
    apply encoded_key_clean. }
  destruct (bits_of_chars_of_bits (bits_of_bytes p)) as (z & Hz & EB).
  rewrite <- encoded_key_chars in EB. fold cs in EB.
  unfold in_alphabet in Hc.
  destruct (bits_of_char c) as [g|] eqn:Eg; [clear Hc|congruence].
  destruct (bits_of_chars_substitute c g cs i _ Eg EB Hi)
    as (B' & EB' & LB' & Hq).
  assert (Hv : valid_padchars (pad_count (length (substitute i c cs))) = true)
    by (rewrite substitute_length; apply encoded_key_padding).
  rewrite payload_of_clean_text, EB', Hv in Hne by exact Hclean'.
  rewrite validate_token_of, EB', Hv by exact Hclean'.
  pose proof (bytes_differ_at i _ B' LB' Hq) as Hd.
  rewrite bytes_of_bits_of_bytes in Hd by lia.
  destruct (final_payload_layout sha256_length hmac_length
              _ _ _ _ _ _ _ _ Hp)
    as (header & ch & Hu & Hh & Hch & Hlay & Hs).
  cbv zeta in Hlay, Hs. rewrite crc32_masked in Hlay, Hs.
  set (core := header ++ ch ++ zlib_compress
                 (utf8 (Json.dumps
                    (Json.Obj (metadata_dict t cid email exp mu feats))))) in *.
  rewrite Hlay in Hd.
  eapply (decode_tampered now (5 * i / 8) core); [| | |exact Hd|].
  - unfold core. rewrite !length_app. lia.
  - exact Hs.
  - reflexivity.
  - intros E. apply Hne. now rewrite E, Hlay.
Qed.

End Tamper.
End Tamper.

Module Substitution.
Import Base32 Base32Facts Framing Properties Base32Locality Tokens Tamper AdvancedLicenseKeyGenerator.

(** A Base32 digit is determined by its five bits. *)
Lemma char_of_bits5 x g :
  bits_of_char x = Some g ->
  exists a b c d e, g = [a; b; c; d; e] /\ x = char5 a b c d e.
Proof.
  destruct x as [[] [] [] [] [] [] [] []]; cbv; intros [= <-];
    do 5 eexists; split; reflexivity.
Qed.

Lemma bits_of_char_inj x y g :
  bits_of_char x = Some g -> bits_of_char y = Some g -> x = y.
Proof.
  intros Hx Hy.
  destruct (char_of_bits5 x g Hx) as (a & b & c & d & e & -> & ->).
  destruct (char_of_bits5 y _ Hy) as (a' & b' & c' & d' & e' & [= -> -> -> -> ->] & ->).
  reflexivity.
Qed.

(** The [i]-th character is made of bits [5i .. 5i+4]. *)
Lemma bits_of_chars_at s : forall B i,
  bits_of_chars s = Some B -> i < length s ->
  bits_of_char (nth i s pad) = Some (firstn 5 (skipn (5 * i) B)).
Proof.
  induction s as [|x r IH]; intros B i HB Hi; [cbn in Hi; lia|].
  cbn [bits_of_chars] in HB.
  destruct (bits_of_char x) as [bx|] eqn:Ex; [|discriminate].
  destruct (bits_of_chars r) as [Br|] eqn:Er; [|discriminate].
  injection HB as <-.
  pose proof (bits_of_char_length x bx Ex) as Lx.
  destruct i as [|i].
  - cbn [nth]. rewrite Ex. f_equal.
    replace (5 * 0) with 0 by reflexivity. cbn [skipn].
    rewrite <- Lx at 1. now rewrite firstn_app_exact.
  - cbn [nth]. rewrite (IH Br i eq_refl) by (cbn [length] in Hi; lia).
    f_equal. f_equal.
    replace (5 * S i) with (length bx + 5 * i) by lia.
    now rewrite Nat.add_comm, <- skipn_skipn, skipn_app_exact.
Qed.

Lemma nth_substitute i c s d : i < length s -> nth i (substitute i c s) d = c.
Proof.
  revert i. induction s as [|x r IH]; intros [|i] H; cbn [length] in H;
    try lia; cbn [substitute nth]; [reflexivity|].
  apply IH. lia.
Qed.

(** Reading bytes off a bit string keeps its whole octets. *)
Lemma bits_of_bytes_of_bits X :
  bits_of_bytes (bytes_of_bits X) = firstn (8 * (length X / 8)) X.
Proof.
  induction X as [X HX|a b c d e f g h r IH] using list_ind8.
  - rewrite bytes_of_bits_short by exact HX.
    rewrite Nat.div_small by exact HX. reflexivity.
  - cbn [bytes_of_bits]. 
    replace (length (a :: b :: c :: d :: e :: f :: g :: h :: r))
      with (1 * 8 + length r) by (cbn [length]; lia).
    rewrite Nat.div_add_l by lia.
    replace (8 * (1 + length r / 8)) with (8 + 8 * (length r / 8)) by lia.
    change (bits_of_bytes (Ascii h g f e d c b a :: bytes_of_bits r))
      with ([a; b; c; d; e; f; g; h] ++ bits_of_bytes (bytes_of_bits r)).
    rewrite IH. reflexivity.
Qed.

Lemma window5 (L : list bool) i n :
  5 * i + 5 <= n ->
  firstn 5 (skipn (5 * i) (firstn n L)) = firstn 5 (skipn (5 * i) L).
Proof.
  intros H. rewrite skipn_firstn_comm, firstn_firstn.
  f_equal. lia.
Qed.

(** Replacing a character whose five bits lie within the octets by another
    digit changes the bytes the text stands for. *)
Lemma substitution_changes_payload p i c :
  in_alphabet c -> c <> nth i (encoded_key p) pad ->
  5 * i + 5 <= 8 * length p ->
  payload_of_text (substitute i c (encoded_key p)) <> inr p.
Proof.
  intros Hc Hne Hi.
  set (cs := encoded_key p) in *.
  assert (Hlen : i < length cs).
  { unfold cs. rewrite encoded_key_chars, chars_of_bits_length,
      bits_of_bytes_length.
    apply Nat.div_le_lower_bound with (b := 5) (q := S i); lia. }
  assert (Hclean' : Forall clean (substitute i c cs)).
  { apply Forall_substitute; [now apply in_alphabet_clean|].
    apply encoded_key_clean. }
  destruct (bits_of_chars_of_bits (bits_of_bytes p)) as (z & Hz & EB).
  rewrite <- encoded_key_chars in EB. fold cs in EB.
  unfold in_alphabet in Hc.
  destruct (bits_of_char c) as [g|] eqn:Eg; [clear Hc|congruence].
  destruct (bits_of_chars_substitute c g cs i _ Eg EB Hlen)
    as (B' & EB' & LB' & _).
  rewrite payload_of_clean_text, EB' by exact Hclean'.
  destruct (valid_padchars _); [|discriminate].
  intros [= E].
  pose proof (bits_of_bytes_of_bits B') as HB'.
  assert (L8 : 8 * (length B' / 8) = 8 * length p).
  { rewrite <- bytes_of_bits_length, E. reflexivity. }
  rewrite L8, E in HB'.
  pose proof (bits_of_chars_at _ _ i EB' ltac:(now rewrite substitute_length))
    as H'.
  pose proof (bits_of_chars_at _ _ i EB Hlen) as H.
  rewrite nth_substitute in H' by exact Hlen.
  rewrite <- (window5 B' i (8 * length p)) in H' by exact Hi.
  rewrite <- HB' in H'.
  rewrite <- (window5 _ i (8 * length p)) in H by exact Hi.
  rewrite <- bits_of_bytes_length, firstn_app_exact in H.
  rewrite <- H' in H.
  apply Hne. eapply bits_of_char_inj; [exact H'|]. rewrite H. exact H'.
Qed.

End Substitution.

Module Consequences.
Import Base32 Base32Facts Framing Properties Tokens Codec Tamper Usage Policy JsonRoundTrip AdvancedLicenseKeyGenerator Models Views.

Section Extra.
Context {prims : Primitives}.

(** A token text that stands for the same payload is decoded like it. *)
Lemma validate_same_payload now cs p :
  Forall clean cs -> payload_of_text cs = inr p ->
  validate_license_key now (token_of cs) = decode_payload now p.
Proof.
  intros Hc Hp. rewrite validate_token_of by exact Hc.
  rewrite payload_of_clean_text in Hp by exact Hc.
  destruct (bits_of_chars cs); [|discriminate].
  destruct (valid_padchars _); [|discriminate].
  now injection Hp as ->.
Qed.

Lemma chars_of_bits_cons5 a b c d e r :
  chars_of_bits (a :: b :: c :: d :: e :: r) = char5 a b c d e :: chars_of_bits r.
Proof. reflexivity. Qed.

Lemma bits_of_chars_cons c r :
  bits_of_chars (c :: r)
  = match bits_of_char c, bits_of_chars r with
    | Some b, Some bs => Some (b ++ bs)
    | _, _ => None
    end.
Proof. reflexivity. Qed.

(** The first character carries the top five bits of the version byte. *)
Lemma version_digit_substituted now rest :
  24 <= length rest ->
  validate_license_key now
    (token_of (substitute 0 "B"%char (encoded_key ("001"%char :: rest))))
  = inl (UnsupportedVersion 9).
Proof.
  intros Hl.
  assert (Hclean : Forall clean
            (substitute 0 "B"%char (encoded_key ("001"%char :: rest)))).
  { apply Forall_substitute; [split; discriminate|apply encoded_key_clean]. }
  rewrite validate_token_of by exact Hclean.
  rewrite substitute_length, encoded_key_padding.
  rewrite encoded_key_chars.
  change (bits_of_bytes ("001"%char :: rest))
    with (false :: false :: false :: false :: false :: false :: false :: true
          :: bits_of_bytes rest).
  rewrite chars_of_bits_cons5. cbn [substitute]. rewrite bits_of_chars_cons.
  destruct (bits_of_chars_of_bits (false :: false :: true :: bits_of_bytes rest))
    as (z & Hz & E).
  rewrite E.
  change (bits_of_char "B"%char) with (Some [false; false; false; false; true]).
  cbn [app bytes_of_bits].
  rewrite bytes_of_bits_of_bytes by lia.
  unfold decode_payload.
  replace (length ("009"%char :: rest) <? 25) with false
    by (symmetry; apply Nat.ltb_ge; cbn [length]; lia).
  destruct rest as [|a [|b [|c [|d rest]]]]; try (cbn [length] in Hl; lia).
  reflexivity.
Qed.

Lemma final_payload_version_byte t cid name email exp mu feats p :
  (forall x, length (sha256 x) = 32) ->
  (forall k m, length (hmac_sha256 k m) = 32) ->
  final_payload t cid name email exp mu feats = Some p ->
  exists rest, p = "001"%char :: rest /\ 24 <= length rest.
Proof.
  intros Hsha Hhmac Hp.
  destruct (final_payload_layout Hsha Hhmac _ _ _ _ _ _ _ _ Hp)
    as (header & ch & Hu & Hh & Hch & Hlay & Hs).
  cbv zeta in Hlay, Hs.
  destruct header as [|v h4]; [discriminate|].
  assert (Hv : v = "001"%char).
  { cbn [Struct.unpack_BI] in Hu.
    destruct (Struct.unpack_I h4); [|discriminate].
    injection Hu as Hv _. rewrite <- (byte_of_Z_of_byte v), Hv. reflexivity. }
  subst v. rewrite Hlay. rewrite <- !app_assoc. cbn [app].
  eexists. split; [reflexivity|].
  cbn [length] in Hh. rewrite !length_app, length_firstn, Hhmac, pack_I_length.
  lia.
Qed.

(** *** One call of [post] *)

Lemma objects_get_row db k l :
  consistent db ->
  objects_get db (fun r => str_eqb (key r) k) = inr (Some l) ->
  row db k = Some l.
Proof.
  intros Hc. unfold objects_get.
  destruct (filter _ db) as [|x [|y r]] eqn:E; try discriminate.
  intros [= ->].
  assert (Hin : In l (filter (fun r => str_eqb (key r) k) db))
    by (rewrite E; now left).
  apply filter_In in Hin as [Hin Hk]. apply str_eqb_eq in Hk.
  rewrite <- Hk. now apply row_in.
Qed.

Lemma post_ok now db rq n db' :
  consistent db -> post now db rq = (Ok200 n, db') ->
  exists data l,
    validated_fields rq = Some data
    /\ row db (license_key data) = Some l
    /\ is_valid now l (ip_address data) None
         (req_hardware_fingerprint data) = Valid
    /\ row db' (license_key data)
       = Some (used now l (req_hardware_fingerprint data)).
Proof.
  intros Hc Hp.
  destruct (validated_fields rq) as [data|] eqn:Hd.
  2:{ destruct (post_refused now db rq Hd) as [H|[e H]];
        rewrite H in Hp; discriminate. }
  exists data.
  destruct (row db (license_key data)) as [l|] eqn:Hrow.
  - exists l. split; [reflexivity|]. split; [reflexivity|].
    pose proof (post_stored now db rq data l Hc Hd Hrow) as Hs.
    cbv zeta in Hs.
    destruct (is_valid now l (ip_address data) None
                (req_hardware_fingerprint data))
      eqn:Hv; cbn [verdict_ok] in Hs; try (rewrite Hs in Hp; discriminate).
    split; [reflexivity|].
    destruct (post_valid now db rq data l Hc Hd Hrow Hv)
      as (Hp' & _ & _ & Hr).
    cbv zeta in Hp', Hr. rewrite Hp' in Hp. injection Hp as _ <-. exact Hr.
  - rewrite (post_missing_key now db rq data Hd Hrow) in Hp. discriminate.
Qed.

(** *** Bulk generation within one second *)

Lemma save_errors now db l e :
  save now db l = inl e -> e = IntegrityError \/ e = StructError.
Proof.
  unfold save.
  destruct (match key l with [] => _ | _ => _ end); [|intros [= <-]; now right].
  unfold db_save. destruct (existsb _ db); [intros [= <-]; now left|].
  destruct (existsb _ db); discriminate.
Qed.

Lemma bulk_loop_fails clock uuid c expires seats feats s :
  same_second clock s -> fresh uuid ->
  forall n i db licenses,
  exists e db',
    bulk_loop clock uuid c expires seats feats (S (S n)) i db licenses
    = inl (e, db')
    /\ (e = IntegrityError \/ e = StructError)
    /\ (db' = db
        \/ exists l1,
             save (clock i) db (new_license (uuid i) c expires seats feats)
             = inr (l1, db')).
Proof.
  intros Hs Hf n i db licenses.
  change (bulk_loop clock uuid c expires seats feats (S (S n)) i db licenses)
    with (match save (clock i) db (new_license (uuid i) c expires seats feats) with
          | inl e => inl (e, db)
          | inr (license_obj, db') =>
              match save (clock (S i)) db'
                      (new_license (uuid (S i)) c expires seats feats) with
              | inl e => inl (e, db')
              | inr (license_obj', db'') =>
                  bulk_loop clock uuid c expires seats feats n (S (S i)) db''
                    ((licenses ++ [license_obj]) ++ [license_obj'])
              end
          end).
  destruct (save (clock i) db _) as [e|[l1 db1]] eqn:E1.
  { exists e, db. split; [reflexivity|].
    split; [now apply save_errors in E1|now left]. }
  destruct (save_new _ _ _ _ _ _ _ _ _ E1) as (Hin & Hid & Hk).
  destruct (save (clock (S i)) db1 _) as [e|[l2 db2]] eqn:E2.
  { exists e, db1. split; [reflexivity|].
    split; [now apply save_errors in E2|]. right. now exists l1. }
  exfalso. unfold save in E2.
  cbn [new_license key client email expires_at max_users features] in E2.
  rewrite Hs, <- (Hs i), Hk in E2.
  rewrite db_save_key_taken in E2; [discriminate|].
  exists l1. repeat split; [exact Hin|].
  cbn [with_key new_license id]. rewrite Hid. intros H.
  apply Hf in H. lia.
Qed.

(** *** Serialised metadata *)

Lemma dumps_injective v1 v2 :
  Json.wf v1 = true -> Json.wf v2 = true ->
  Json.dumps v1 = Json.dumps v2 -> v1 = v2.
Proof.
  intros H1 H2 E. apply loads_dumps in H1, H2. rewrite E in H1.
  congruence.
Qed.

End Extra.
End Consequences.

(** * The claims *)

Import Base32 Properties AdvancedLicenseKeyGenerator Models Views.
Import Base32Facts Framing JsonRoundTrip Codec Usage Policy Tokens Tamper
  Substitution Consequences.

Lemma sample_sha256_length x : length (@sha256 Data.sp x) = 32.
Proof. reflexivity. Qed.

Lemma sample_hmac_length k m : length (@hmac_sha256 Data.sp k m) = 32.
Proof. reflexivity. Qed.

Lemma sample_zlib_round_trip x :
  @zlib_decompress Data.sp (@zlib_compress Data.sp x) = Some x.
Proof. reflexivity. Qed.

Lemma sample_consistent l : consistent [l].
Proof.
  split; cbn [map]; (constructor; [intros []|constructor]).
Qed.

(** ** C1: minting and decoding *)

Section ClaimC1.
Context {prims : Primitives}.
Hypothesis sha256_length : forall x, length (sha256 x) = 32.
Hypothesis hmac_length : forall k m, length (hmac_sha256 k m) = 32.
Hypothesis zlib_round_trip :
  forall x, zlib_decompress (zlib_compress x) = Some x.

(** C1, as amended. Take parameters whose features are a dictionary
    (distinct keys at every level) and a clock reading [t] that fits the
    four-byte field, and let [datetime.fromtimestamp] accept [t] and the
    second of the expiry. Then minting returns a token, decoding it
    succeeds, and the decoded metadata has exactly the fields client_id,
    email_hash, expires, max_users, features and issued = [t] of the
    parameters. The token depends on the expiry through its whole second
    only: parameters that agree up to there, identical ones among them,
    give the same token at [t]. *)
Theorem C1_mint_decode_round_trip :
  forall (t client_id : Z) (client_name email : str) (expires_at : option Z)
         (max_seats : Z) (features : Json.dict) (now : Z),
    Json.wf (Json.Obj features) = true ->
    (0 <= t < 4294967296)%Z ->
    datable t expires_at ->
    exists k,
      generate_advanced_license_key t client_id client_name email
        expires_at max_seats features = Some k
      /\ (exists md,
            validate_license_key now k = inr md
            /\ fields md
               = [ (lit "client_id", Json.Int client_id);
                   (lit "email_hash",
                     Json.Str (match email with
                               | [] => []
                               | _ => firstn 8 (md5_hexdigest (utf8 email))
                               end));
                   (lit "expires",
                     Json.Int (match expires_at with
                               | Some dt => int_seconds dt
                               | None => 0%Z
                               end));
                   (lit "max_users", Json.Int max_seats);
                   (lit "features", Json.Obj features);
                   (lit "issued", Json.Int t) ])
      /\ forall expires_at',
           match expires_at' with Some dt => int_seconds dt | None => 0%Z end
           = match expires_at with
             | Some dt => int_seconds dt
             | None => 0%Z
             end ->
           generate_advanced_license_key t client_id client_name email
             expires_at' max_seats features = Some k.
Proof.
  intros t cid name email exp mu feats now Hwf Ht Hd.
  destruct (final_payload t cid name email exp mu feats) as [p|] eqn:Ep.
  - assert (Hg : generate_advanced_license_key t cid name email exp mu feats
                 = Some (format_key p))
      by (unfold generate_advanced_license_key; now rewrite Ep).
    destruct (decode_final_payload sha256_length hmac_length zlib_round_trip
                now _ _ _ _ _ _ _ _ Ep Hwf Hd) as (md & Hdec & Hf).
    exists (format_key p). split; [exact Hg|]. split.
    + exists md. split; [|exact Hf].
      rewrite validate_format_key. exact Hdec.
    + intros exp' He. rewrite <- Hg.
      unfold generate_advanced_license_key, final_payload, metadata_dict.
      now rewrite He.
  - exfalso. unfold final_payload, Struct.pack_BI in Ep.
    replace (Struct.in_u8 VERSION && Struct.in_u32 t) with true in Ep;
      [discriminate|].
    symmetry. unfold Struct.in_u32. apply andb_true_iff. split; [reflexivity|].
    apply andb_true_iff. split; [apply Z.leb_le|apply Z.ltb_lt]; lia.
Qed.

End ClaimC1.

Lemma sample_datable t e :
  (-62135596800 <= t <= 253402300799)%Z ->
  (-62135596800 <= int_seconds e <= 253402300799)%Z ->
  @datable Data.sp t (Some e).
Proof.
  intros Ht He. unfold datable. cbn [fromtimestamp Data.sp Sample.primitives].
  unfold Sample.utc_fromtimestamp.
  rewrite (proj2 (Z.leb_le _ t)), (proj2 (Z.leb_le t _)) by lia.
  rewrite (proj2 (Z.leb_le _ (int_seconds e))),
    (proj2 (Z.leb_le (int_seconds e) _)) by lia.
  split; [discriminate|intros _; discriminate].
Qed.

Lemma C1_witness :
  exists k,
    @generate_advanced_license_key Data.sp 1700000000 42 (lit "Acme")
      (lit "a@acme.com") (Some 1800000000000000%Z) 5
      [(lit "api", Json.Bool true)] = Some k
    /\ (exists md,
          @validate_license_key Data.sp 1700000001 k = inr md
          /\ fields md
             = [ (lit "client_id", Json.Int 42);
                 (lit "email_hash",
                   Json.Str (match lit "a@acme.com" with
                             | [] => []
                             | _ => firstn 8 (@md5_hexdigest Data.sp
                                                (utf8 (lit "a@acme.com")))
                             end));
                 (lit "expires",
                   Json.Int (match Some 1800000000000000%Z with
                             | Some dt => int_seconds dt
                             | None => 0%Z
                             end));
                 (lit "max_users", Json.Int 5);
                 (lit "features", Json.Obj [(lit "api", Json.Bool true)]);
                 (lit "issued", Json.Int 1700000000) ])
    /\ forall expires_at',
         match expires_at' with Some dt => int_seconds dt | None => 0%Z end
         = match Some 1800000000000000%Z with
           | Some dt => int_seconds dt
           | None => 0%Z
           end ->
         @generate_advanced_license_key Data.sp 1700000000 42 (lit "Acme")
           (lit "a@acme.com") expires_at' 5
           [(lit "api", Json.Bool true)] = Some k.
Proof.
  apply (@C1_mint_decode_round_trip Data.sp sample_sha256_length
           sample_hmac_length sample_zlib_round_trip).
  - reflexivity.
  - lia.
  - apply sample_datable; [lia|]. vm_compute. split; discriminate.
Defined.

(** At the clock reading [2^32] nothing is minted, so there is no token to
    decode. And for the expiry [datetime.max], whose [timestamp()] is the
    float 253402300800.0, a token is minted that [validate_license_key]
    refuses at every time: [datetime.fromtimestamp] raises on its
    [expires]. *)
Lemma C1_counterexample :
  @generate_advanced_license_key Data.sp 4294967296 42 (lit "Acme")
    (lit "a@acme.com") None 5 [(lit "api", Json.Bool true)] = None
  /\ exists k,
       @generate_advanced_license_key Data.sp 1700000000 42 (lit "Acme")
         (lit "a@acme.com") (Some 253402300799999999%Z) 5
         [(lit "api", Json.Bool true)] = Some k
       /\ forall now,
            @validate_license_key Data.sp now k = inl TimestampRange.
Proof.
  split; [reflexivity|].
  destruct (@final_payload Data.sp 1700000000 42 (lit "Acme")
              (lit "a@acme.com") (Some 253402300799999999%Z) 5
              [(lit "api", Json.Bool true)]) as [p|] eqn:Ep;
    [|vm_compute in Ep; discriminate].
  exists (format_key p). split.
  - unfold generate_advanced_license_key. now rewrite Ep.
  - intros now. rewrite validate_format_key.
    rewrite (decode_final_payload_parsed sample_sha256_length
               sample_hmac_length sample_zlib_round_trip now _ _ _ _ _ _ _ _
               Ep eq_refl).
    reflexivity.
Qed.

(** ** C2: substituting one character *)

Section ClaimC2.
Context {prims : Primitives}.
Hypothesis sha256_length : forall x, length (sha256 x) = 32.
Hypothesis hmac_length : forall k m, length (hmac_sha256 k m) = 32.

(** C2, as amended. In the Base32 text of an honestly minted token,
    replace one character by a character of the Base32 alphabet. If the
    character is a different one and its five bits lie within the payload
    bytes (so at every position but possibly the last), or, at any
    position, if the resulting text does not stand for the same payload
    bytes, then decoding the resulting token fails with an
    unsupported-version, checksum or signature error. *)
Theorem C2_substitution_rejected :
  forall (now t cid : Z) (name mail : str)
         (expires : option Z) (seats : Z) (feats : Json.dict)
         (payload : bytes) (i : nat) (c : ascii),
    final_payload t cid name mail expires seats feats = Some payload ->
    i < length (encoded_key payload) ->
    in_alphabet c ->
    (c <> nth i (encoded_key payload) pad
     /\ 5 * i + 5 <= 8 * length payload)
    \/ payload_of_text (substitute i c (encoded_key payload))
       <> inr payload ->
    let k' := token_of (substitute i c (encoded_key payload)) in
    (exists v, validate_license_key now k' = inl (UnsupportedVersion v))
    \/ validate_license_key now k' = inl ChecksumFailed
    \/ validate_license_key now k' = inl SignatureFailed.
Proof.
  intros now t cid name mail expires seats feats payload i c Hp Hi Hc Hd.
  apply (tamper_detection sha256_length hmac_length)
    with (t := t) (cid := cid) (name := name) (email := mail)
         (exp := expires) (mu := seats) (feats := feats); try assumption.
  destruct Hd as [[Hne Hin]|Hd]; [|exact Hd].
  now apply substitution_changes_payload.
Qed.

(** Replacing the first character [A] by [B] makes the version byte 9:
    the token is refused before the checksum is looked at. *)
Lemma first_digit_substituted now t cid name email exp mu feats payload :
  final_payload t cid name email exp mu feats = Some payload ->
  validate_license_key now
    (token_of (substitute 0 "B"%char (encoded_key payload)))
  = inl (UnsupportedVersion 9).
Proof.
  intros Hp.
  destruct (final_payload_version_byte _ _ _ _ _ _ _ _
              sha256_length hmac_length Hp) as (rest & -> & Hl).
  now apply version_digit_substituted.
Qed.

End ClaimC2.

Lemma C2_witness :
  let k' := token_of (substitute 100 "B"%char (encoded_key Data.payload0)) in
  (exists v, @validate_license_key Data.sp 1700000001 k'
             = inl (UnsupportedVersion v))
  \/ @validate_license_key Data.sp 1700000001 k' = inl ChecksumFailed
  \/ @validate_license_key Data.sp 1700000001 k' = inl SignatureFailed.
Proof.
  apply (@C2_substitution_rejected Data.sp sample_sha256_length
           sample_hmac_length 1700000001 Data.t0 7 (lit "Acme") [] None 1 []).
  - vm_compute. reflexivity.
  - vm_compute. lia.
  - vm_compute. discriminate.
  - left. split; [vm_compute; discriminate|vm_compute; lia].
Defined.

(** The claim as stated fails twice on the token of client 7 minted at
    1700000000: with the first character [A] replaced by [B] the error is
    the unsupported version, neither checksum nor signature; with the last
    character [Y] replaced by [Z] only bits that belong to no byte change,
    and the token is decoded successfully. *)
Lemma C2_counterexample :
  let cs := encoded_key Data.payload0 in
  token_of cs = Data.key_of None
  /\ @validate_license_key Data.sp 1700000001
       (token_of (substitute 0 "B"%char cs)) = inl (UnsupportedVersion 9)
  /\ nth 201 cs "="%char = "Y"%char
  /\ token_of (substitute 201 "Z"%char cs) <> token_of cs
  /\ @validate_license_key Data.sp 1700000001
       (token_of (substitute 201 "Z"%char cs))
     = @validate_license_key Data.sp 1700000001 (token_of cs)
  /\ exists md,
       @validate_license_key Data.sp 1700000001
         (token_of (substitute 201 "Z"%char cs)) = inr md.
Proof.
  cbv zeta.
  split; [|split; [|split; [|split; [|split]]]].
  - vm_compute. reflexivity.
  - vm_compute. reflexivity.
  - vm_compute. reflexivity.
  - vm_compute. discriminate.
  - vm_compute. reflexivity.
  - eexists. vm_compute. reflexivity.
Qed.

(** ** C3: seats *)

Section ClaimC3.
Context {prims : Primitives}.

(** C3. A stored record with [max_users = k] and no use so far receives
    [k + 1] calls of the usage endpoint. The fields of the serializer
    accept each request and make the record's key of its [license_key],
    and at each call no rule of [is_valid] other than the usage limit
    rejects. Then the first [k] calls succeed and the last is refused with
    "Maximum usage limit exceeded", the counter then being [k]. Whatever
    the table, a successful call adds exactly one to [usage_count] and
    sets [last_used] to the time of the call, and a call that does not
    succeed leaves the table as it was. *)
Theorem C3_seats_exhausted_after_k_uses :
  forall (db : table) (l : License) (k : nat)
         (calls : list (Z * usage_request)),
    consistent db -> In l db ->
    usage_count l = 0%Z -> max_users l = Z.of_nat k ->
    length calls = S k ->
    Forall (fun c => names_key (key l) (snd c)) calls ->
    others_pass db calls ->
    (map fst (consume db calls)
     = map (fun j => Ok200 (Z.of_nat (k - S j))) (seq 0 k)
       ++ [Forbidden403 UsageExceeded]
     /\ exists r,
          row (last (map snd (consume db calls)) db) (key l) = Some r
          /\ usage_count r = Z.of_nat k)
    /\ (forall now db0 rq n db1,
          consistent db0 -> post now db0 rq = (Ok200 n, db1) ->
          exists data l0 l1,
            validated_fields rq = Some data
            /\ row db0 (license_key data) = Some l0
            /\ row db1 (license_key data) = Some l1
            /\ usage_count l1 = (usage_count l0 + 1)%Z
            /\ last_used l1 = Some now)
    /\ (forall now db0 rq,
          (forall n, fst (post now db0 rq) <> Ok200 n) ->
          snd (post now db0 rq) = db0).
Proof.
  intros db l k calls Hc Hin Hu Hm Hlen Hkeys Hpass.
  split; [split|split].
  - apply (seats_run k db l calls); auto. lia.
  - destruct (seats_run k db l calls Hc Hin ltac:(lia) Hlen Hkeys Hpass)
      as (_ & r & Hr & Hur & _).
    exists r. split; [exact Hr|]. congruence.
  - intros now db0 rq n db1 Hc0 Hp.
    destruct (post_ok now db0 rq n db1 Hc0 Hp)
      as (data & l0 & Hd & Hr0 & _ & Hr1).
    exists data, l0, (used now l0 (req_hardware_fingerprint data)).
    split; [exact Hd|]. split; [exact Hr0|]. split; [exact Hr1|].
    split; apply used_fields.
  - intros now db0 rq. apply post_unchanged.
Qed.

End ClaimC3.

Lemma C3_witness :
  let db := [Data.license_with None 2] in
  let calls := [(1700000010000000%Z, Data.request None);
                (1700000020000000%Z, Data.request None);
                (1700000030000000%Z, Data.request None)] in
  map fst (@consume Data.sp db calls)
  = [Ok200 1; Ok200 0; Forbidden403 UsageExceeded].
Proof.
  cbv zeta.
  apply (@C3_seats_exhausted_after_k_uses Data.sp
           [Data.license_with None 2] (Data.license_with None 2) 2).
  - apply sample_consistent.
  - now left.
  - reflexivity.
  - reflexivity.
  - reflexivity.
  - repeat (constructor;
            [exists (Data.request None); split; vm_compute; reflexivity|]).
    constructor.
  - cbn [others_pass].
    repeat (split; [intros data l Hd Hl; vm_compute in Hd;
                    injection Hd as <-; vm_compute in Hl;
                    injection Hl as <-; vm_compute; auto|]).
    exact I.
Defined.

(** ** C4: expiry carried by the key *)

Section ClaimC4.
Context {prims : Primitives}.

(** C4, as amended. Take an active record that has not expired as a
    record, whose key decodes to metadata with [expires = e], and a
    validation at clock reading [now], in whole seconds [int_seconds now].
    The decoded key is flagged expired exactly when
    [0 < e < int_seconds now]; in that case [is_valid] answers "License
    key has expired", and when [e <= 0] or [int_seconds now <= e], the
    boundary [int_seconds now = e] included, it does not. *)
Theorem C4_key_expired_strictly_after :
  forall (now : Z) (l : License) (ip dom hw : option str)
         (md : key_metadata) (e : Z),
    is_active l = true -> record_not_expired now l ->
    validate_license_key (int_seconds now) (key l) = inr md ->
    Json.get (fields md) (lit "expires") = Some (Json.Int e) ->
    (is_expired md = true <-> (0 < e < int_seconds now)%Z)
    /\ ((0 < e < int_seconds now)%Z ->
        is_valid now l ip dom hw = KeyExpired)
    /\ ((e <= 0 \/ int_seconds now <= e)%Z ->
        is_valid now l ip dom hw <> KeyExpired).
Proof.
  intros now l ip dom hw md e Ha Hr Hv He.
  pose proof (validate_expired _ _ _ _ Hv He) as Hx.
  destruct (is_valid_key_stage now l ip dom hw md Ha Hr Hv) as [Ht Hf].
  assert (Hiff : is_expired md = true <-> (0 < e < int_seconds now)%Z).
  { rewrite Hx, andb_true_iff, !Z.ltb_lt. tauto. }
  split; [exact Hiff|]. split.
  - intros H. apply Ht, Hiff, H.
  - intros H. apply Hf. destruct (is_expired md); [|reflexivity].
    destruct Hiff as [Hiff _]. specialize (Hiff eq_refl). lia.
Qed.

End ClaimC4.

Lemma C4_witness :
  let l := {| id := 1; key := Data.key_of (Some 1800000000000000%Z);
              client := Data.acme; email := None; expires_at := None;
              is_active := true; max_users := 1; features := [];
              usage_count := 0; last_used := None;
              hardware_fingerprint := None; ip_restrictions := [];
              domain_restrictions := [] |} in
  @is_valid Data.sp 1800000001000000 l None None None = KeyExpired.
Proof.
  intros l.
  destruct (@validate_license_key Data.sp (int_seconds 1800000001000000) (key l))
    as [err|md] eqn:E.
  - vm_compute in E. discriminate.
  - apply (@C4_key_expired_strictly_after Data.sp 1800000001000000 l
             None None None md 1800000000).
    + reflexivity.
    + exact I.
    + exact E.
    + vm_compute in E. injection E as <-. reflexivity.
    + vm_compute. split; reflexivity.
Defined.

(** The record and its key both expire at second 1800000000. At that very
    second the decoded [expires] is not 0 and [now >= expires], yet the key
    is not flagged expired and [is_valid] accepts. *)
Lemma C4_counterexample :
  let l := Data.license_with (Some 1800000000000000%Z) 1 in
  let now := 1800000000000000%Z in
  (exists md,
     @validate_license_key Data.sp (int_seconds now) (key l) = inr md
     /\ Json.get (fields md) (lit "expires") = Some (Json.Int 1800000000)
     /\ (int_seconds now >= 1800000000)%Z
     /\ is_expired md = false)
  /\ @is_valid Data.sp now l None None None = Valid.
Proof.
  cbv zeta. split.
  - eexists. split; [vm_compute; reflexivity|].
    split; [reflexivity|]. split; [vm_compute; discriminate|reflexivity].
  - vm_compute. reflexivity.
Qed.

(** ** C5: bulk minting within one second *)

Section ClaimC5.
Context {prims : Primitives}.

(** C5 (the code departs from the claim). When the clock stays within one
    second, [bulk_generate_licenses] asked for two or more licences does
    not return a list of tokens at all: the second [save] mints the same
    key as the first and the insertion is refused (or the clock does not
    fit the four-byte field, and minting itself fails). The table is then
    as it was, or as the first [save] left it. *)
Theorem C5_bulk_same_second_fails :
  forall (clock uuid : nat -> Z) (db : table) (c : Client) (count : Z)
         (expires : option Z) (seats : Z) (feats : Json.dict) (s : Z),
    same_second clock s -> fresh uuid -> (2 <= count)%Z ->
    exists e db',
      bulk_generate_licenses clock uuid db c count expires seats feats
      = inl (e, db')
      /\ (e = IntegrityError \/ e = StructError)
      /\ (db' = db
          \/ exists l1,
               save (clock 0) db (new_license (uuid 0) c expires seats feats)
               = inr (l1, db')).
Proof.
  intros clock uuid db c count expires seats feats s Hs Hf Hc.
  unfold bulk_generate_licenses.
  destruct (Z.to_nat count) as [|[|n]] eqn:E; try lia.
  exact (bulk_loop_fails clock uuid c expires seats feats s Hs Hf n 0 db []).
Qed.

End ClaimC5.

Lemma C5_witness :
  exists e db',
    @bulk_generate_licenses Data.sp (fun _ => 1700000000500000%Z) Z.of_nat
      [] Data.acme 2 None 1 [] = inl (e, db')
    /\ (e = IntegrityError \/ e = StructError)
    /\ (db' = []
        \/ exists l1,
             @save Data.sp 1700000000500000 []
               (new_license (Z.of_nat 0) Data.acme None 1 [])
             = inr (l1, db')).
Proof.
  apply (@C5_bulk_same_second_fails Data.sp (fun _ => 1700000000500000%Z)
           Z.of_nat [] Data.acme 2 None 1 [] 1700000000).
  - intros i. reflexivity.
  - intros i j. apply Nat2Z.inj.
  - lia.
Defined.

(** The failing input, evaluated: two licences for one client within second
    1700000000 on an empty table. The exception is the [IntegrityError],
    and the first licence stays in the table. *)
Example bulk_two_same_second :
  exists l1,
    @bulk_generate_licenses Data.sp (fun _ => 1700000000500000%Z) Z.of_nat
      [] Data.acme 2 None 1 [] = inl (IntegrityError, [l1])
    /\ id l1 = 0%Z /\ key l1 = Data.key_of None.
Proof. eexists. vm_compute. repeat split. Qed.

(** ** C6: the order of the feature keys *)

Section ClaimC6.
Context {prims : Primitives}.

(** C6, as amended. The serialized metadata lists the members of the
    features object in the order of the input mapping: the text is the
    members in that order, separated by commas, and reading it back gives
    the mapping in the same order. Two feature mappings (distinct keys at
    every level) give the same serialized metadata exactly when they are
    equal as sequences of pairs. *)
Theorem C6_features_in_insertion_order :
  forall (t cid : Z) (mail : str) (expires : option Z) (seats : Z)
         (f1 f2 : Json.dict),
    Json.wf (Json.Obj f1) = true -> Json.wf (Json.Obj f2) = true ->
    Json.dumps (Json.Obj f1)
    = "{"%char :: join Json.comma (map member f1) ++ ["}"%char]
    /\ Json.loads (Json.dumps (Json.Obj f1)) = Some (Json.Obj f1)
    /\ Json.loads
         (Json.dumps (Json.Obj (metadata_dict t cid mail expires seats f1)))
       = Some (Json.Obj (metadata_dict t cid mail expires seats f1))
    /\ (Json.dumps (Json.Obj (metadata_dict t cid mail expires seats f1))
        = Json.dumps (Json.Obj (metadata_dict t cid mail expires seats f2))
        <-> f1 = f2).
Proof.
  intros t cid mail expires seats f1 f2 H1 H2.
  split; [reflexivity|].
  split; [now apply loads_dumps|].
  split; [now apply loads_dumps, metadata_wf|].
  split; [|now intros ->].
  intros E. apply dumps_injective in E; try now apply metadata_wf.
  unfold metadata_dict in E. congruence.
Qed.

End ClaimC6.

Lemma C6_witness :
  Json.loads (Json.dumps (Json.Obj (fst Data.two_orders)))
  = Some (Json.Obj (fst Data.two_orders)).
Proof.
  apply (@C6_features_in_insertion_order Data.sp Data.t0 7 [] None 1
           (fst Data.two_orders) (snd Data.two_orders)); reflexivity.
Defined.

(** The same two pairs in two orders: the one inserted as b, a is emitted
    as b, a, which is not ascending, and the two serialized metadata, hence
    the two payloads, differ. *)
Lemma C6_counterexample :
  let f1 := fst Data.two_orders in
  let f2 := snd Data.two_orders in
  Permutation f1 f2
  /\ Json.dumps (Json.Obj f1)
     = lit "{" ++ Data.quoted "b" ++ lit ":1," ++ Data.quoted "a" ++ lit ":2}"
  /\ Json.dumps (Json.Obj (@metadata_dict Data.sp Data.t0 7 [] None 1 f1))
     <> Json.dumps (Json.Obj (@metadata_dict Data.sp Data.t0 7 [] None 1 f2))
  /\ @final_payload Data.sp Data.t0 7 (lit "Acme") [] None 1 f1
     <> @final_payload Data.sp Data.t0 7 (lit "Acme") [] None 1 f2.
Proof.
  cbv zeta. split; [apply perm_swap|].
  split; [reflexivity|].
  split; vm_compute; discriminate.
Qed.

(** ** C7: short payloads *)

Section LengthCheck.
Context {prims : Primitives}.

(** From 25 bytes on, the length check is not what refuses a payload. *)
Lemma decode_long now payload :
  25 <= length payload -> decode_payload now payload <> inl InvalidLength.
Proof.
  intros H. unfold decode_payload.
  replace (length payload <? 25) with false
    by (symmetry; apply Nat.ltb_ge; exact H).
  destruct (Struct.unpack_BI _) as [[v t]|]; [|discriminate].
  destruct (negb (v =? VERSION)%Z); [discriminate|].
  destruct (Struct.unpack_I _) as [c|]; [|discriminate].
  destruct (negb (c =? _)%Z); [discriminate|].
  destruct (negb (str_eqb _ _)); [discriminate|].
  destruct (zlib_decompress _) as [j|]; [|discriminate].
  destruct (utf8_decode j) as [s|]; [|discriminate].
  destruct (Json.loads s) as [[| | | | |m]|]; try discriminate.
  unfold add_status.
  repeat match goal with
         | |- context [match ?x with _ => _ end] => destruct x
         end; discriminate.
Qed.

End LengthCheck.

Section ClaimC7.
Context {prims : Primitives}.
Hypothesis decompress_empty : zlib_decompress [] = None.

(** C7, as amended. A payload shorter than 25 bytes is refused with
    "Invalid license key length". A payload shorter than 33 bytes is
    never decoded successfully, given that the empty byte string is not
    a zlib stream; between 25 and 32 bytes the failure is one of the later
    checks, not the length check. *)
Theorem C7_short_payload_refused :
  forall (now : Z) (payload : bytes),
    (length payload < 25 -> decode_payload now payload = inl InvalidLength)
    /\ (length payload < 33 ->
        forall md, decode_payload now payload <> inr md)
    /\ (25 <= length payload ->
        decode_payload now payload <> inl InvalidLength).
Proof.
  intros now payload. split; [apply decode_short|].
  split; [now apply decode_below_33|apply decode_long].
Qed.

End ClaimC7.

Lemma C7_witness :
  @decode_payload Data.sp 0 (repeat "000"%char 24) = inl InvalidLength.
Proof.
  apply (@C7_short_payload_refused Data.sp eq_refl 0 (repeat "000"%char 24)).
  vm_compute. lia.
Defined.

(** Twenty-five bytes, fewer than 33, pass the length check and the version
    check and are refused by the checksum. *)
Lemma C7_counterexample :
  let payload := "001"%char :: repeat "000"%char 24 in
  length payload = 25
  /\ @decode_payload Data.sp 0 payload = inl ChecksumFailed.
Proof. cbv zeta. split; [reflexivity|vm_compute; reflexivity]. Qed.

(** ** C8: lower case *)

Section ClaimC8.
Context {prims : Primitives}.

(** C8, as amended. Decoding is case-sensitive. A minted token with one
    or more of its letters after the prefix put in lower case is refused
    by the Base32 decoder ("Non-base32 digit found"). The token with all
    of them in lower case is one of these: it differs from the token,
    whose first Base32 digit is the letter A, and is refused. *)
Theorem C8_lowercase_refused :
  forall (now t cid : Z) (name mail : str) (expires : option Z)
         (seats : Z) (feats : Json.dict) (k : str),
    generate_advanced_license_key t cid name mail expires seats feats
    = Some k ->
    (forall k',
       partly_lowercased k k' -> k' <> k ->
       validate_license_key now k' = inl (Base32Error NonBase32Digit))
    /\ partly_lowercased k (lowercased k)
    /\ lowercased k <> k
    /\ validate_license_key now (lowercased k)
       = inl (Base32Error NonBase32Digit).
Proof.
  intros now t cid name mail expires seats feats k.
  unfold generate_advanced_license_key.
  destruct (final_payload _ _ _ _ _ _ _) as [payload|] eqn:Hp;
    [|discriminate].
  intros [= <-].
  destruct (final_payload_head _ _ _ _ _ _ _ _ Hp) as (rest & ->).
  assert (H : forall k',
             partly_lowercased (format_key ("001"%char :: rest)) k' ->
             k' <> format_key ("001"%char :: rest) ->
             validate_license_key now k' = inl (Base32Error NonBase32Digit))
    by (intros k'; apply validate_partly_lowercased).
  split; [exact H|]. split; [apply lowercased_partly|].
  split; [apply lowercased_differs|].
  apply H; [apply lowercased_partly|apply lowercased_differs].
Qed.

End ClaimC8.

Lemma C8_witness :
  @validate_license_key Data.sp 1700000001 (lowercased (Data.key_of None))
  = inl (Base32Error NonBase32Digit).
Proof.
  destruct (@C8_lowercase_refused Data.sp 1700000001 Data.t0 7 (lit "Acme") []
              None 1 [] (Data.key_of None)) as (_ & _ & _ & H).
  - vm_compute. reflexivity.
  - exact H.
Defined.

(** One letter is enough: the token of client 7 with its third digit [S]
    written [s]. *)
Example one_letter_lowered :
  nth 6 (Data.key_of None) "="%char = "S"%char
  /\ @validate_license_key Data.sp 1700000001
       (substitute 6 "s"%char (Data.key_of None))
     = inl (Base32Error NonBase32Digit).
Proof. split; vm_compute; reflexivity. Qed.

(** The token of client 7: as minted it decodes, lowercased it does not. *)
Lemma C8_counterexample :
  let k := Data.key_of None in
  firstn 9 k = lit "ALK-AFSVH"
  /\ firstn 9 (lowercased k) = lit "ALK-afsvh"
  /\ (exists md, @validate_license_key Data.sp 1700000001 k = inr md)
  /\ @validate_license_key Data.sp 1700000001 (lowercased k)
     = inl (Base32Error NonBase32Digit).
Proof.
  cbv zeta.
  split; [vm_compute; reflexivity|].
  split; [vm_compute; reflexivity|].
  split; [eexists; vm_compute; reflexivity|vm_compute; reflexivity].
Qed.

(** ** C9: a caller claiming another client *)

Section ClaimC9.
Context {prims : Primitives}.

(** C9, as amended. A record of client [c] is stored under its key in a
    table with unique keys. Validating that key for a caller who claims
    another client [c'] finds no record: the answer is invalid with the
    message "License not found", no licence, no metadata and no
    remaining uses. *)
Theorem C9_other_client_not_found :
  forall (now : Z) (db : table) (l : License) (c' : Z)
         (ip dom hw : option str),
    consistent db -> In l db -> c' <> client_id (client l) ->
    validate_license_with_context now db (key l) c' ip dom hw
    = inr {| valid := false; message := inr tt; license := None;
             metadata := None; remaining_uses := 0 |}.
Proof.
  intros now db l c' ip dom hw [Hk _] Hin Hne.
  unfold validate_license_with_context, objects_get.
  rewrite (lookup_other_client db (key l) (client_id (client l)) c');
    [reflexivity| |exact Hne].
  intros r Hr Hkey. now rewrite (NoDup_map_eq key db r l Hk Hr Hin Hkey).
Qed.

End ClaimC9.

Lemma C9_witness :
  @validate_license_with_context Data.sp 1700000001000000
    [Data.license_with None 1] (Data.key_of None) 8 None None None
  = inr {| valid := false; message := inr tt; license := None;
           metadata := None; remaining_uses := 0 |}.
Proof.
  apply (@C9_other_client_not_found Data.sp 1700000001000000
           [Data.license_with None 1] (Data.license_with None 1) 8).
  - apply sample_consistent.
  - now left.
  - discriminate.
Defined.

(** The token is minted for client 7 and stored under client 7; the caller
    claims client 8. The answer is "License not found", not the client
    mismatch of [is_valid]. *)
Lemma C9_counterexample :
  let l := Data.license_with None 1 in
  client_id (client l) = 7%Z
  /\ (exists md,
        @validate_license_key Data.sp 1700000001 (key l) = inr md
        /\ Json.get (fields md) (lit "client_id") = Some (Json.Int 7))
  /\ exists r,
       @validate_license_with_context Data.sp 1700000001000000 [l] (key l) 8
         None None None = inr r
       /\ valid r = false /\ message r = inr tt
       /\ message r <> inl ClientMismatch.
Proof.
  cbv zeta. split; [reflexivity|]. split.
  - eexists. split; [vm_compute; reflexivity|reflexivity].
  - eexists. split; [vm_compute; reflexivity|].
    split; [reflexivity|]. split; [reflexivity|discriminate].
Qed.

(** ** C10: the hardware fingerprint *)

Section ClaimC10.
Context {prims : Primitives}.

(** C10. When a call of the usage endpoint succeeds, the serializer has
    accepted the request, and the stored record changes from [l0] to [l1]
    as follows, the fingerprint supplied being the validated one: if the
    caller supplied a fingerprint and [l0] had none, [l1] has the supplied
    one; if [l0] had a fingerprint, or the caller supplied none, [l1]
    keeps that of [l0]. *)
Theorem C10_fingerprint_bound_on_first_use :
  forall (now : Z) (db db' : table) (rq : usage_request) (n : Z),
    consistent db -> post now db rq = (Ok200 n, db') ->
    exists data l0 l1,
      validated_fields rq = Some data
      /\ row db (license_key data) = Some l0
      /\ row db' (license_key data) = Some l1
      /\ (truthy (req_hardware_fingerprint data) = true ->
          truthy (hardware_fingerprint l0) = false ->
          hardware_fingerprint l1 = req_hardware_fingerprint data)
      /\ (truthy (hardware_fingerprint l0) = true ->
          hardware_fingerprint l1 = hardware_fingerprint l0)
      /\ (truthy (req_hardware_fingerprint data) = false ->
          hardware_fingerprint l1 = hardware_fingerprint l0)
      /\ (req_hardware_fingerprint rq = None ->
          hardware_fingerprint l1 = hardware_fingerprint l0).
Proof.
  intros now db db' rq n Hc Hp.
  destruct (post_ok now db rq n db' Hc Hp)
    as (data & l0 & Hd & Hr0 & _ & Hr1).
  exists data, l0, (used now l0 (req_hardware_fingerprint data)).
  split; [exact Hd|]. split; [exact Hr0|]. split; [exact Hr1|].
  cbn [used hardware_fingerprint].
  split; [|split; [|split]]; intros;
    repeat match goal with H : truthy _ = _ |- _ => rewrite H end;
    try reflexivity.
  - now rewrite andb_false_r.
  - unfold validated_fields in Hd.
    destruct (char_field 512 _); [|discriminate].
    destruct (optional ip_address_field _); [|discriminate].
    match goal with H : req_hardware_fingerprint rq = None |- _ =>
      rewrite H in Hd end.
    cbn [optional] in Hd. injection Hd as <-. reflexivity.
Qed.

End ClaimC10.

Lemma C10_witness :
  exists l0 l1,
    row [Data.license_with None 2] (Data.key_of None) = Some l0
    /\ row (snd (@post Data.sp 1700000010000000 [Data.license_with None 2]
                   (Data.request (Some (lit "HW-1")))))
         (Data.key_of None) = Some l1
    /\ hardware_fingerprint l0 = None
    /\ hardware_fingerprint l1 = Some (lit "HW-1").
Proof.
  destruct (@C10_fingerprint_bound_on_first_use Data.sp 1700000010000000
              [Data.license_with None 2]
              (snd (@post Data.sp 1700000010000000 [Data.license_with None 2]
                      (Data.request (Some (lit "HW-1")))))
              (Data.request (Some (lit "HW-1"))) 1)
    as (data & l0 & l1 & Hd & H0 & H1 & Hset & _).
  - apply sample_consistent.
  - vm_compute. reflexivity.
  - vm_compute in Hd. injection Hd as <-.
    exists l0, l1. split; [exact H0|]. split; [exact H1|].
    assert (E : hardware_fingerprint l0 = None).
    { vm_compute in H0. injection H0 as <-. reflexivity. }
    split; [exact E|]. apply Hset; [reflexivity|].
    rewrite E. reflexivity.
Defined.

(** * Further properties of the code *)

Local Open Scope nat_scope.

(** ** Further facts about the token codec *)

Module MintFacts.
Import Base32 Base32Facts Framing Properties AdvancedLicenseKeyGenerator
  Codec Tokens Tamper Policy Models.

(** The Base32 text of a payload stands for that payload. *)
Lemma payload_of_encoded_key p : payload_of_text (encoded_key p) = inr p.
Proof.
  rewrite payload_of_clean_text by apply encoded_key_clean.
  destruct (bits_of_chars_of_bits (bits_of_bytes p)) as (z & Hz & EB).
  rewrite <- encoded_key_chars in EB. rewrite EB, encoded_key_padding.
  now rewrite bytes_of_bits_of_bytes by lia.
Qed.

(** The text is read back from the token. *)
Lemma text_of_token cs :
  Forall clean cs -> remove_char dash (skipn 4 (token_of cs)) = cs.
Proof.
  intros H. unfold token_of.
  change (skipn 4 (prefix ++ ?x)) with (skipn (length prefix) (prefix ++ x)).
  rewrite skipn_app_exact.
  apply (remove_join_groups dash 4); [|lia].
  eapply Forall_impl; [|exact H]. now intros c [_ Hc].
Qed.

Lemma format_key_inj p1 p2 : format_key p1 = format_key p2 -> p1 = p2.
Proof.
  rewrite <- !token_of_encoded. intros E.
  assert (E' : encoded_key p1 = encoded_key p2).
  { rewrite <- (text_of_token (encoded_key p1)) by apply encoded_key_clean.
    rewrite <- (text_of_token (encoded_key p2)) by apply encoded_key_clean.
    now rewrite E. }
  pose proof (payload_of_encoded_key p1) as H1.
  rewrite E', payload_of_encoded_key in H1. congruence.
Qed.

Section Mint.
Context {prims : Primitives}.

Lemma generate_payload t cid name email exp mu feats k :
  generate_advanced_license_key t cid name email exp mu feats = Some k ->
  exists p, final_payload t cid name email exp mu feats = Some p
            /\ k = format_key p.
Proof.
  unfold generate_advanced_license_key.
  destruct (final_payload _ _ _ _ _ _ _) as [p|]; [|discriminate].
  intros [= <-]. now exists p.
Qed.

Lemma final_payload_range t cid name email exp mu feats :
  final_payload t cid name email exp mu feats = None
  <-> ~ (0 <= t < 4294967296)%Z.
Proof.
  unfold final_payload, Struct.pack_BI, Struct.in_u32.
  change (Struct.in_u8 VERSION) with true. cbn [andb].
  destruct (0 <=? t)%Z eqn:E1; destruct (t <? 4294967296)%Z eqn:E2;
    cbn [andb]; split; intros H; try discriminate; try reflexivity;
    try (apply Z.leb_le in E1); try (apply Z.leb_gt in E1);
    try (apply Z.ltb_lt in E2); try (apply Z.ltb_ge in E2); lia.
Qed.

(** What in [decode_payload] depends on the time of validation. *)
Lemma add_status_time now now' v md :
  add_status now v = inr md ->
  exists md',
    add_status now' v = inr md'
    /\ fields md' = fields md
    /\ issued_datetime md' = issued_datetime md
    /\ expires_datetime md' = expires_datetime md
    /\ ((now <= now')%Z -> is_expired md = true -> is_expired md' = true).
Proof.
  unfold add_status.
  destruct v as [| | | | |m]; try discriminate.
  destruct (as_number _) as [e|]; [|discriminate].
  destruct (Json.get m (lit "issued")) as [iv|]; [|discriminate].
  destruct (as_number iv) as [i|]; [|discriminate].
  destruct (fromtimestamp i); [|discriminate].
  destruct (e =? 0)%Z; [|destruct (fromtimestamp e); [|discriminate]];
    (intros [= <-]; eexists; split; [reflexivity|]; cbn;
     repeat split; intros Hle H;
     apply andb_true_iff in H as [H1 H2]; apply Z.ltb_lt in H2;
     rewrite H1; cbn; apply Z.ltb_lt; lia).
Qed.

Lemma decode_payload_parsed now payload md :
  decode_payload now payload = inr md ->
  exists parsed,
    add_status now parsed = inr md
    /\ forall now', decode_payload now' payload = add_status now' parsed.
Proof.
  unfold decode_payload.
  destruct (_ <? 25); [discriminate|].
  destruct (Struct.unpack_BI _) as [[v t]|]; [|discriminate].
  destruct (negb (v =? VERSION)%Z); [discriminate|].
  destruct (Struct.unpack_I _) as [c|]; [|discriminate].
  destruct (negb (c =? _)%Z); [discriminate|].
  destruct (negb (str_eqb _ _)); [discriminate|].
  destruct (zlib_decompress _) as [j|]; [|discriminate].
  destruct (utf8_decode j) as [s|]; [|discriminate].
  destruct (Json.loads s) as [parsed|]; [|discriminate].
  intros H. exists parsed. split; [exact H|reflexivity].
Qed.

Lemma validate_time now now' k md :
  validate_license_key now k = inr md ->
  exists md',
    validate_license_key now' k = inr md'
    /\ fields md' = fields md
    /\ issued_datetime md' = issued_datetime md
    /\ expires_datetime md' = expires_datetime md
    /\ ((now <= now')%Z -> is_expired md = true -> is_expired md' = true).
Proof.
  unfold validate_license_key.
  destruct (negb (startswith k prefix)); [discriminate|].
  destruct (b32decode _) as [e|p]; [discriminate|].
  intros H. destruct (decode_payload_parsed _ _ _ H) as (parsed & Hs & Hall).
  rewrite Hall. now apply add_status_time with (now := now).
Qed.

Lemma add_status_error now now' v e :
  add_status now v = inl e -> add_status now' v = inl e.
Proof.
  unfold add_status.
  destruct v as [| | | | |m]; try (now intros H).
  destruct (as_number _) as [x|]; [|now intros H].
  destruct (Json.get m (lit "issued")) as [iv|]; [|now intros H].
  destruct (as_number iv) as [i|]; [|now intros H].
  destruct (fromtimestamp i); [|now intros H].
  destruct (x =? 0)%Z; [discriminate|].
  destruct (fromtimestamp x); [discriminate|now intros H].
Qed.

Lemma decode_payload_error now now' payload e :
  decode_payload now payload = inl e -> decode_payload now' payload = inl e.
Proof.
  unfold decode_payload.
  destruct (_ <? 25); [now intros H|].
  destruct (Struct.unpack_BI _) as [[v t]|]; [|now intros H].
  destruct (negb (v =? VERSION)%Z); [now intros H|].
  destruct (Struct.unpack_I _) as [c|]; [|now intros H].
  destruct (negb (c =? _)%Z); [now intros H|].
  destruct (negb (str_eqb _ _)); [now intros H|].
  destruct (zlib_decompress _) as [j|]; [|now intros H].
  destruct (utf8_decode j) as [s|]; [|now intros H].
  destruct (Json.loads s) as [parsed|]; [|now intros H].
  apply add_status_error.
Qed.

Lemma validate_error now now' k e :
  validate_license_key now k = inl e -> validate_license_key now' k = inl e.
Proof.
  unfold validate_license_key.
  destruct (negb (startswith k prefix)); [now intros H|].
  destruct (b32decode _) as [x|p]; [now intros H|].
  apply decode_payload_error.
Qed.

Hypothesis sha256_length : forall x, length (sha256 x) = 32.
Hypothesis hmac_length : forall k m, length (hmac_sha256 k m) = 32.
Hypothesis zlib_round_trip :
  forall x, zlib_decompress (zlib_compress x) = Some x.

(** A minted token decodes to the metadata it was minted from. *)
Lemma mint_decodes now t cid name email exp mu feats k :
  generate_advanced_license_key t cid name email exp mu feats = Some k ->
  Json.wf (Json.Obj feats) = true ->
  datable t exp ->
  exists md,
    validate_license_key now k = inr md
    /\ fields md = metadata_dict t cid email exp mu feats
    /\ is_expired md
       = (let e := match exp with Some dt => int_seconds dt | None => 0%Z end in
          (0 <? e) && (e <? now))%Z.
Proof.
  intros Hg Hwf Hdt.
  destruct (generate_payload _ _ _ _ _ _ _ _ Hg) as (p & Hp & ->).
  destruct (decode_final_payload sha256_length hmac_length zlib_round_trip
              now _ _ _ _ _ _ _ _ Hp Hwf Hdt) as (md & Hd & Hf).
  exists md. rewrite validate_format_key. split; [exact Hd|]. split; [exact Hf|].
  destruct (decode_payload_status _ _ _ Hd) as (parsed & Hs).
  rewrite (add_status_expired _ _ _
             (match exp with Some dt => int_seconds dt | None => 0%Z end) Hs);
    [reflexivity|].
  rewrite Hf. reflexivity.
Qed.

(** A payload that differs from a minted one within two adjacent bytes. *)
Lemma payload_tampered now t cid name email exp mu feats p p' j :
  final_payload t cid name email exp mu feats = Some p ->
  differ_at j p p' -> p' <> p ->
  (exists v, decode_payload now p' = inl (UnsupportedVersion v))
  \/ decode_payload now p' = inl ChecksumFailed
  \/ decode_payload now p' = inl SignatureFailed.
Proof.
  intros Hp Hd Hne.
  destruct (final_payload_layout sha256_length hmac_length
              _ _ _ _ _ _ _ _ Hp)
    as (header & ch & Hu & Hh & Hch & Hlay & Hs).
  cbv zeta in Hlay, Hs. rewrite CRC32Bursts.crc32_masked in Hlay, Hs.
  set (core := header ++ ch ++ zlib_compress
                 (utf8 (Json.dumps
                    (Json.Obj (metadata_dict t cid email exp mu feats))))) in *.
  rewrite Hlay in Hd.
  eapply (Checksum.decode_tampered now j core); [| | |exact Hd|].
  - unfold core. rewrite !length_app. lia.
  - exact Hs.
  - reflexivity.
  - intros E. apply Hne. now rewrite E, Hlay.
Qed.

End Mint.
End MintFacts.

Import Base32 Properties AdvancedLicenseKeyGenerator Models Views.
Import MintFacts.

Section ExtraCodec.
Context {prims : Primitives}.
Hypothesis sha256_length : forall x, length (sha256 x) = 32.
Hypothesis hmac_length : forall k m, length (hmac_sha256 k m) = 32.
Hypothesis zlib_round_trip :
  forall x, zlib_decompress (zlib_compress x) = Some x.

(** X1. A token determines what it was minted from: if two mints, each
    with features that are dictionaries, give the same token, then their
    embedded metadata are equal, and so are their clock readings, client
    ids, seat counts, features and expiry seconds. *)
Theorem X1_token_determines_metadata :
  forall (t1 t2 c1 c2 : Z) (n1 n2 m1 m2 : str) (e1 e2 : option Z)
         (s1 s2 : Z) (f1 f2 : Json.dict) (k : str),
    Json.wf (Json.Obj f1) = true -> Json.wf (Json.Obj f2) = true ->
    generate_advanced_license_key t1 c1 n1 m1 e1 s1 f1 = Some k ->
    generate_advanced_license_key t2 c2 n2 m2 e2 s2 f2 = Some k ->
    metadata_dict t1 c1 m1 e1 s1 f1 = metadata_dict t2 c2 m2 e2 s2 f2
    /\ t1 = t2 /\ c1 = c2 /\ s1 = s2 /\ f1 = f2
    /\ match e1 with Some dt => int_seconds dt | None => 0%Z end
       = match e2 with Some dt => int_seconds dt | None => 0%Z end.
Proof.
  intros t1 t2 c1 c2 n1 n2 m1 m2 e1 e2 s1 s2 f1 f2 k W1 W2 G1 G2.
  (* The generator does not read the clock's calendar: decode where every
     second has a date. *)
  set (anywhere :=
         {| sha256 := sha256; md5_hexdigest := md5_hexdigest;
            hmac_sha256 := hmac_sha256; zlib_compress := zlib_compress;
            zlib_decompress := zlib_decompress;
            fromtimestamp := fun s => Some s;
            char_field := char_field;
            ip_address_field := ip_address_field |}).
  assert (D : forall t e, @datable anywhere t e).
  { intros t e. split; [discriminate|]. destruct e; [|exact I].
    intros _. discriminate. }
  destruct (@mint_decodes anywhere sha256_length hmac_length zlib_round_trip
              0 _ _ _ _ _ _ _ _ G1 W1 (D _ _)) as (md1 & V1 & F1 & _).
  destruct (@mint_decodes anywhere sha256_length hmac_length zlib_round_trip
              0 _ _ _ _ _ _ _ _ G2 W2 (D _ _)) as (md2 & V2 & F2 & _).
  assert (E : metadata_dict t1 c1 m1 e1 s1 f1 = metadata_dict t2 c2 m2 e2 s2 f2).
  { rewrite V1 in V2. injection V2 as <-. rewrite F1 in F2. exact F2. }
  split; [exact E|]. unfold metadata_dict in E.
  injection E as Ec _ Ee Es Ef Et. repeat split; congruence.
Qed.

End ExtraCodec.

Lemma X1_witness :
  @metadata_dict Sample.primitives 1700000000 7 [] None 1 []
  = @metadata_dict Sample.primitives 1700000000 7 [] None 1 []
  /\ 1700000000%Z = 1700000000%Z /\ 7%Z = 7%Z /\ 1%Z = 1%Z
  /\ @nil (str * Json.value) = []
  /\ 0%Z = 0%Z.
Proof.
  apply (@X1_token_determines_metadata Sample.primitives
           sample_sha256_length sample_hmac_length sample_zlib_round_trip
           1700000000 1700000000 7 7 (lit "Acme") (lit "Acme") [] [] None None
           1 1 [] [] (Data.key_of None)).
  - reflexivity.
  - reflexivity.
  - vm_compute. reflexivity.
  - vm_compute. reflexivity.
Defined.

(** X2. At a clock reading whose seconds do not fit the four-byte field
    (negative, or at least 2^32) nothing is minted, whatever the other
    arguments: [struct.pack] raises. [License.save] of a licence without a
    key then raises too and stores nothing. *)
Theorem X2_mint_fails_outside_clock_range :
  forall (prims : Primitives) (t cid : Z) (name mail : str)
         (expires : option Z) (seats : Z) (feats : Json.dict),
    ~ (0 <= t < 4294967296)%Z ->
    generate_advanced_license_key t cid name mail expires seats feats = None
    /\ forall (now : Z) (db : table) (l : License),
         int_seconds now = t -> key l = [] ->
         save now db l = inl StructError.
Proof.
  intros prims t cid name mail expires seats feats Ht.
  assert (H : forall c n m e s f,
             generate_advanced_license_key t c n m e s f = None).
  { intros c n m e s f. unfold generate_advanced_license_key.
    now rewrite (proj2 (final_payload_range t c n m e s f) Ht). }
  split; [apply H|].
  intros now db l Hn Hk. unfold save. now rewrite Hk, Hn, H.
Qed.

Lemma X2_witness :
  @generate_advanced_license_key Sample.primitives 4294967296 7 (lit "Acme")
    [] None 1 [] = None
  /\ @save Sample.primitives 4294967296000000 []
       (new_license 1 Data.acme None 1 []) = inl StructError.
Proof.
  destruct (X2_mint_fails_outside_clock_range Sample.primitives 4294967296
              7 (lit "Acme") [] None 1 []) as [H1 H2]; [lia|].
  split; [exact H1|]. apply H2; reflexivity.
Defined.

(** X3. Every minted token starts with [ALK-]; what follows consists of
    Base32 digits (A-Z, 2-7) and dashes only, so it holds no padding
    character and no lowercase letter. *)
Theorem X3_minted_token_shape :
  forall (prims : Primitives) (t cid : Z) (name mail : str)
         (expires : option Z) (seats : Z) (feats : Json.dict) (k : str),
    generate_advanced_license_key t cid name mail expires seats feats
    = Some k ->
    firstn 4 k = lit "ALK-"
    /\ Forall (fun c => in_alphabet c \/ c = dash) (skipn 4 k).
Proof.
  intros prims t cid name mail expires seats feats k H.
  destruct (generate_payload _ _ _ _ _ _ _ _ H) as (p & _ & ->).
  apply format_key_shape.
Qed.

Lemma X3_witness :
  firstn 4 (Data.key_of None) = lit "ALK-"
  /\ Forall (fun c => in_alphabet c \/ c = dash) (skipn 4 (Data.key_of None)).
Proof.
  apply (X3_minted_token_shape Sample.primitives 1700000000 7 (lit "Acme") []
           None 1 []).
  vm_compute. reflexivity.
Defined.

(** X4. The framing of a payload as a token loses nothing: two byte
    strings with the same token are equal. *)
Theorem X4_format_key_injective :
  forall p1 p2 : bytes, format_key p1 = format_key p2 -> p1 = p2.
Proof. exact format_key_inj. Qed.

Lemma X4_witness : lit "abc" = lit "abc".
Proof. apply (X4_format_key_injective (lit "abc") (lit "abc")). reflexivity. Defined.

(** X5. Decoding depends on the time of validation only through the
    expiry flag: a key that decodes at one time decodes at every time to
    the same fields and dates, a key flagged expired stays flagged at every
    later time, and a key that fails to decode fails with the same error at
    every time. *)
Theorem X5_decoding_and_time :
  forall (prims : Primitives) (now now' : Z) (k : str),
    (forall md,
       validate_license_key now k = inr md ->
       exists md',
         validate_license_key now' k = inr md'
         /\ fields md' = fields md
         /\ issued_datetime md' = issued_datetime md
         /\ expires_datetime md' = expires_datetime md
         /\ ((now <= now')%Z -> is_expired md = true ->
             is_expired md' = true))
    /\ (forall e,
          validate_license_key now k = inl e ->
          validate_license_key now' k = inl e).
Proof.
  intros prims now now' k. split.
  - intros md. apply validate_time.
  - intros e. apply validate_error.
Qed.

Section ExtraTamper.
Context {prims : Primitives}.
Hypothesis sha256_length : forall x, length (sha256 x) = 32.
Hypothesis hmac_length : forall k m, length (hmac_sha256 k m) = 32.

(** X6. Let [p] be a minted payload and [p'] a byte string of the same
    length that differs from [p], and only within two adjacent bytes. Then
    the token of [p'] is refused, with an unsupported-version, checksum or
    signature error. *)
Theorem X6_two_byte_change_rejected :
  forall (now t cid : Z) (name mail : str) (expires : option Z) (seats : Z)
         (feats : Json.dict) (p p' : bytes) (j : nat),
    final_payload t cid name mail expires seats feats = Some p ->
    differ_at j p p' -> p' <> p ->
    (exists v, validate_license_key now (format_key p')
               = inl (UnsupportedVersion v))
    \/ validate_license_key now (format_key p') = inl ChecksumFailed
    \/ validate_license_key now (format_key p') = inl SignatureFailed.
Proof.
  intros now t cid name mail expires seats feats p p' j Hp Hd Hne.
  rewrite Codec.validate_format_key.
  now apply (payload_tampered sha256_length hmac_length now t cid name mail
               expires seats feats p p' j).
Qed.

End ExtraTamper.

Lemma X6_witness :
  let p' := firstn 60 Data.payload0 ++ ["000"%char; "255"%char]
            ++ skipn 62 Data.payload0 in
  (exists v, @validate_license_key Sample.primitives 1700000001 (format_key p')
             = inl (UnsupportedVersion v))
  \/ @validate_license_key Sample.primitives 1700000001 (format_key p')
     = inl ChecksumFailed
  \/ @validate_license_key Sample.primitives 1700000001 (format_key p')
     = inl SignatureFailed.
Proof.
  cbv zeta.
  apply (@X6_two_byte_change_rejected Sample.primitives sample_sha256_length
           sample_hmac_length 1700000001 Data.t0 7 (lit "Acme") [] None 1 []
           Data.payload0 _ 60).
  - vm_compute. reflexivity.
  - split; [vm_compute; reflexivity|].
    intros k H1 H2.
    destruct (Nat.lt_ge_cases k 60) as [Hl|Hg].
    + rewrite nth_error_app1 by (vm_compute; lia).
      rewrite nth_error_firstn.
      replace (k <? 60) with true by (symmetry; now apply Nat.ltb_lt).
      reflexivity.
    + rewrite nth_error_app2 by (vm_compute; lia).
      replace (length (firstn 60 Data.payload0)) with 60 by (vm_compute; reflexivity).
      destruct (k - 60) as [|[|m]] eqn:E; try lia.
      cbn [app nth_error]. rewrite nth_error_skipn.
      f_equal. lia.
  - vm_compute. discriminate.
Defined.

(** ** Further facts about the policy and the table *)

Module PolicyFacts.
Import Base32 Framing Properties AdvancedLicenseKeyGenerator Codec Tokens
  Usage Policy Models Views Rules MintFacts LicenseOps.

Section Facts.
Context {prims : Primitives}.

(** [is_valid], rule by rule. *)
Lemma is_valid_unfold now l ip dom hw :
  is_valid now l ip dom hw
  = if negb (is_active l) then Inactive
    else if record_expired now l then Expired
    else
      match validate_license_key (int_seconds now) (key l) with
      | inl e => InvalidKey e
      | inr md =>
          if is_expired md then KeyExpired
          else if client_differs md (client_id (client l)) then ClientMismatch
          else if ip_refused ip l then IpNotAuthorized
          else if domain_refused dom l then DomainNotAuthorized
          else if hardware_refused hw l then HardwareMismatch
          else if (max_users l <=? usage_count l)%Z then UsageExceeded
          else Valid
      end.
Proof. reflexivity. Qed.

(** What the verdict "License is valid" says of the record. *)
Lemma is_valid_Valid now l ip dom hw :
  is_valid now l ip dom hw = Valid ->
  is_active l = true /\ record_expired now l = false
  /\ (exists md,
        validate_license_key (int_seconds now) (key l) = inr md
        /\ is_expired md = false
        /\ client_differs md (client_id (client l)) = false)
  /\ ip_refused ip l = false /\ domain_refused dom l = false
  /\ hardware_refused hw l = false
  /\ (usage_count l < max_users l)%Z.
Proof.
  rewrite is_valid_unfold. rules. intros _. bounds.
  repeat split; try assumption. eexists. now repeat split.
Qed.

Lemma is_valid_UsageExceeded now l ip dom hw :
  is_valid now l ip dom hw = UsageExceeded ->
  is_active l = true /\ record_expired now l = false
  /\ (exists md,
        validate_license_key (int_seconds now) (key l) = inr md
        /\ is_expired md = false
        /\ client_differs md (client_id (client l)) = false)
  /\ ip_refused ip l = false /\ domain_refused dom l = false
  /\ hardware_refused hw l = false
  /\ (max_users l <= usage_count l)%Z.
Proof.
  rewrite is_valid_unfold. rules. intros _. bounds.
  repeat split; try assumption. eexists. now repeat split.
Qed.

(** The other direction: a record that passes every rule. *)
Lemma is_valid_passes now l ip dom hw md :
  is_active l = true -> record_expired now l = false ->
  validate_license_key (int_seconds now) (key l) = inr md ->
  is_expired md = false ->
  client_differs md (client_id (client l)) = false ->
  ip_refused ip l = false -> domain_refused dom l = false ->
  hardware_refused hw l = false ->
  is_valid now l ip dom hw
  = if (max_users l <=? usage_count l)%Z then UsageExceeded else Valid.
Proof.
  intros H1 H2 H3 H4 H5 H6 H7 H8. rewrite is_valid_unfold.
  now rewrite H1, H2, H3, H4, H5, H6, H7, H8.
Qed.

Lemma is_valid_refusal now l ip dom hw :
  (is_valid now l ip dom hw = Inactive -> is_active l = false)
  /\ (is_valid now l ip dom hw = Expired -> record_expired now l = true)
  /\ (is_valid now l ip dom hw = IpNotAuthorized -> ip_refused ip l = true)
  /\ (is_valid now l ip dom hw = DomainNotAuthorized ->
      domain_refused dom l = true)
  /\ (is_valid now l ip dom hw = HardwareMismatch ->
      hardware_refused hw l = true).
Proof.
  rewrite is_valid_unfold.
  split; [|split; [|split; [|split]]]; rules; reflexivity.
Qed.

Lemma existsb_false {A} (f : A -> bool) l :
  existsb f l = false -> forall x, In x l -> f x = false.
Proof.
  induction l as [|a r IH]; intros H x; [intros []|].
  cbn in H. apply orb_false_iff in H as [Ha Hr].
  intros [<-|Hx]; [exact Ha|now apply IH].
Qed.

Lemma existsb_str_eqb x l : existsb (str_eqb x) l = true <-> In x l.
Proof.
  rewrite existsb_exists. split.
  - intros (y & Hy & E). apply str_eqb_eq in E. now subst.
  - intros H. exists x. split; [exact H|apply str_eqb_refl].
Qed.

(** *** [super().save()] and the table *)

Lemma replaced_other db l r :
  In r db -> id r <> id l -> In r (replaced db l).
Proof.
  intros Hr Hn. unfold replaced. apply in_map_iff. exists r.
  split; [|exact Hr].
  destruct (id r =? id l)%Z eqn:E; [|reflexivity].
  apply Z.eqb_eq in E. contradiction.
Qed.

Lemma replaced_absent db l :
  ~ In (id l) (map id db) -> replaced db l = db.
Proof.
  induction db as [|a r IH]; intros H; [reflexivity|].
  cbn [map] in H. cbn [replaced map]. fold (replaced r l).
  rewrite IH by (intros Hin; apply H; now right).
  destruct (id a =? id l)%Z eqn:E; [|reflexivity].
  apply Z.eqb_eq in E. exfalso. apply H. left. exact E.
Qed.

Lemma replaced_ids db l : map id (replaced db l) = map id db.
Proof.
  unfold replaced. rewrite map_map. apply map_ext. intros a.
  destruct (id a =? id l)%Z eqn:E; [|reflexivity].
  apply Z.eqb_eq in E. now symmetry.
Qed.

Lemma replaced_keys_NoDup db l :
  NoDup (map key db) -> NoDup (map id db) ->
  (forall r, In r db -> id r <> id l -> key r <> key l) ->
  NoDup (map key (replaced db l)).
Proof.
  induction db as [|a r IH]; intros Hk Hi Hl; [constructor|].
  cbn [map] in Hk, Hi. inversion Hk as [|? ? Hka Hkr]; subst.
  inversion Hi as [|? ? Hia Hir]; subst.
  cbn [replaced map]. fold (replaced r l).
  destruct (id a =? id l)%Z eqn:E.
  - apply Z.eqb_eq in E.
    rewrite replaced_absent by (rewrite <- E; exact Hia).
    constructor; [|exact Hkr].
    intros Hin. apply in_map_iff in Hin as (x & Hx & Hin).
    apply (Hl x); [now right| |exact Hx].
    intros E'. apply Hia. rewrite E, <- E'. now apply in_map.
  - apply Z.eqb_neq in E. constructor.
    + intros Hin. apply in_map_iff in Hin as (x & Hx & Hin).
      unfold replaced in Hin. apply in_map_iff in Hin as (y & Hy & Hin).
      destruct (id y =? id l)%Z; subst x.
      * apply (Hl a); [now left|exact E|now symmetry].
      * apply Hka. rewrite <- Hx. now apply in_map.
    + apply IH; [exact Hkr|exact Hir|]. intros x Hx. apply Hl. now right.
Qed.

Lemma db_save_consistent db l db' :
  consistent db -> db_save db l = inr db' ->
  consistent db' /\ In l db'
  /\ (forall r, In r db -> id r <> id l -> In r db')
  /\ (forall r, In r db' -> r = l \/ In r db).
Proof.
  intros [Hk Hi]. unfold db_save.
  destruct (existsb (fun r => negb (id r =? id l)%Z && str_eqb (key r) (key l)) db)
    eqn:E1; [discriminate|].
  assert (Hl : forall r, In r db -> id r <> id l -> key r <> key l).
  { intros r Hr Hn Hkey. pose proof (existsb_false _ _ E1 r Hr) as H.
    cbn in H. apply Z.eqb_neq in Hn. rewrite Hn, Hkey, str_eqb_refl in H.
    discriminate. }
  destruct (existsb (fun r => (id r =? id l)%Z) db) eqn:E2; intros [= <-].
  - fold (replaced db l). split; [split|].
    + now apply replaced_keys_NoDup.
    + now rewrite replaced_ids.
    + split; [|split].
      * apply existsb_exists in E2 as (x & Hx & E). apply Z.eqb_eq in E.
        unfold replaced. apply in_map_iff. exists x.
        split; [|exact Hx]. apply Z.eqb_eq in E. now rewrite E.
      * intros r. apply replaced_other.
      * intros r Hr. unfold replaced in Hr.
        apply in_map_iff in Hr as (y & Hy & Hin).
        destruct (id y =? id l)%Z; subst r; [now left|now right].
  - assert (Hid : forall r, In r db -> id r <> id l).
    { intros r Hr E. pose proof (existsb_false _ _ E2 r Hr) as H.
      cbn in H. apply Z.eqb_neq in H. contradiction. }
    split; [split|].
    + rewrite map_app. cbn [map].
      apply NoDup_app; [exact Hk|repeat constructor; intros []|].
      intros k Hin [E|[]]. subst k.
      apply in_map_iff in Hin as (r & Hr & Hin).
      now apply (Hl r Hin (Hid r Hin)).
    + rewrite map_app. cbn [map].
      apply NoDup_app; [exact Hi|repeat constructor; intros []|].
      intros k Hin [E|[]]. subst k.
      apply in_map_iff in Hin as (r & Hr & Hin).
      now apply (Hid r Hin).
    + split; [|split].
      * apply in_or_app. right. now left.
      * intros r Hr _. apply in_or_app. now left.
      * intros r Hr. apply in_app_or in Hr as [Hr|[Hr|[]]]; [now right|now left].
Qed.

Lemma format_key_nonempty p : format_key p <> [].
Proof.
  destruct (format_key_shape p) as [H _]. intros E. rewrite E in H.
  discriminate.
Qed.

(** What a successful [License.save] returns. *)
Lemma save_inv now db l l' db' :
  save now db l = inr (l', db') ->
  l' = with_key l (key l') /\ key l' <> [] /\ db_save db l' = inr db'
  /\ (key l <> [] -> l' = l).
Proof.
  unfold save.
  destruct (key l) as [|c k] eqn:Ek.
  - destruct (generate_advanced_license_key _ _ _ _ _ _ _) as [g|] eqn:Eg;
      [|discriminate].
    destruct (db_save db (with_key l g)) as [e|d] eqn:Ed; [discriminate|].
    intros [= <- <-]. cbn [key with_key].
    split; [reflexivity|]. split; [|split; [exact Ed|now intros H]].
    destruct (generate_payload _ _ _ _ _ _ _ _ Eg) as (p & _ & ->).
    apply format_key_nonempty.
  - destruct (db_save db (with_key l (c :: k))) as [e|d] eqn:Ed; [discriminate|].
    intros [= <- <-]. cbn [key with_key].
    split; [reflexivity|]. split; [discriminate|]. split; [exact Ed|].
    intros _. rewrite <- Ek. apply with_key_same.
Qed.

Lemma validated_key_nonempty now k md :
  validate_license_key now k = inr md -> k <> [].
Proof. intros H ->. now rewrite validate_empty in H. Qed.

Lemma legacy_length (rb : list ascii) :
  length (lit "LIC-" ++ map Legacy.upper (Legacy.hex rb)) = 4 + 2 * length rb.
Proof.
  cbn [lit list_ascii_of_string app length]. do 4 f_equal.
  rewrite length_map. unfold Legacy.hex.
  induction rb as [|x r IH]; [reflexivity|].
  cbn [flat_map length app]. rewrite IH. lia.
Qed.

Lemma endswith_app p d : endswith (p ++ d) d = true.
Proof. unfold endswith. rewrite rev_app_distr. apply startswith_app. Qed.

Lemma Z_quot_seconds a b : (a <= b)%Z -> (int_seconds a <= int_seconds b)%Z.
Proof. apply Seconds.int_seconds_mono. Qed.

Lemma save_generated now db l l' db' :
  key l = [] -> save now db l = inr (l', db') ->
  exists k,
    generate_advanced_license_key (int_seconds now)
      (client_id (client l)) (client_name (client l))
      (first_truthy (email l) (client_email (client l)))
      (expires_at l) (max_users l) (features l) = Some k
    /\ l' = with_key l k.
Proof.
  unfold save. intros ->.
  destruct (generate_advanced_license_key _ _ _ _ _ _ _) as [g|];
    [|discriminate].
  destruct (db_save db (with_key l g)) as [e|d]; [discriminate|].
  intros [= <- <-]. now exists g.
Qed.

Lemma not_expired_flag now exp :
  match exp with Some e => (e <? now)%Z | None => false end = false ->
  (let e := match exp with Some dt => int_seconds dt | None => 0%Z end in
   (0 <? e) && (e <? int_seconds now))%Z = false.
Proof.
  cbv zeta. destruct exp as [e|]; [|reflexivity].
  intros H. apply Z.ltb_ge in H. apply Z_quot_seconds in H.
  apply andb_false_iff. right. now apply Z.ltb_ge.
Qed.

Lemma client_matches md t cid email exp mu feats :
  fields md = metadata_dict t cid email exp mu feats ->
  client_differs md cid = false.
Proof.
  intros H. unfold client_differs. rewrite H.
  unfold metadata_dict. cbn [Json.get].
  replace (str_eqb (lit "client_id") (lit "client_id")) with true
    by reflexivity.
  cbn [as_number]. now rewrite Z.eqb_refl.
Qed.

Lemma row_id_key db l r :
  consistent db -> In l db -> In r db -> key r <> key l -> id r <> id l.
Proof.
  intros [_ Hi] Hl Hr Hk E. apply Hk. f_equal.
  now apply (NoDup_map_eq id db r l).
Qed.

End Facts.
End PolicyFacts.

Import Base32 Properties AdvancedLicenseKeyGenerator Models Views.
Import Usage Policy Rules MintFacts PolicyFacts LicenseOps.

(** X7. A key from the fallback of the legacy [generate_license_key] (no
    client given) is [LIC-] followed by two hexadecimal digits per random
    byte. It is never accepted as a token: decoding fails with "Invalid
    license key format", and a stored, active, unexpired licence that holds
    such a key is reported invalid for that reason. *)
Theorem X7_legacy_keys_never_validate :
  forall (prims : Primitives) (now t : Z) (random_bytes : bytes)
         (expires : option Z) (seats : Z) (feats : Json.dict) (k : str)
         (l : License) (ip dom hw : option str),
    Legacy.generate_license_key t random_bytes None expires seats feats
    = Some k ->
    key l = k -> is_active l = true -> record_expired now l = false ->
    firstn 4 k = lit "LIC-"
    /\ length k = 4 + 2 * length random_bytes
    /\ validate_license_key (int_seconds now) k = inl InvalidFormat
    /\ is_valid now l ip dom hw = InvalidKey InvalidFormat.
Proof.
  intros prims now t rb expires seats feats k l ip dom hw [= <-] Hk Ha He.
  assert (Hv : forall n, validate_license_key n
                 (lit "LIC-" ++ map Legacy.upper (Legacy.hex rb))
               = inl InvalidFormat) by reflexivity.
  split; [reflexivity|]. split; [|split; [apply Hv|]].
  - apply legacy_length.
  - rewrite is_valid_unfold, Ha, He, Hk, Hv. reflexivity.
Qed.

Lemma X7_witness :
  let k := lit "LIC-0123456789ABCDEF" in
  let l := {| id := 1; key := k; client := Data.acme; email := None;
              expires_at := None; is_active := true; max_users := 1;
              features := []; usage_count := 0; last_used := None;
              hardware_fingerprint := None; ip_restrictions := [];
              domain_restrictions := [] |} in
  firstn 4 k = lit "LIC-"
  /\ length k = 4 + 2 * 8
  /\ @validate_license_key Sample.primitives (int_seconds 1700000000000000) k
     = inl InvalidFormat
  /\ @is_valid Sample.primitives 1700000000000000 l None None None
     = InvalidKey InvalidFormat.
Proof.
  cbv zeta.
  apply (X7_legacy_keys_never_validate Sample.primitives 1700000000000000
           1700000000
           ["001"; "035"; "069"; "103"; "137"; "171"; "205"; "239"]%char
           None 1 []);
    reflexivity.
Defined.

(** X8. [License.save] keeps the table's unique indexes: from a table with
    pairwise distinct keys and primary keys, a save that succeeds gives
    such a table again, which holds the saved record; the saved record has
    a non-empty key and differs from the one passed in at most in the key
    (not at all if that had a key); every row with another primary key is
    still there. *)
Theorem X8_save_keeps_table_consistent :
  forall (prims : Primitives) (now : Z) (db db' : table) (l l' : License),
    consistent db -> save now db l = inr (l', db') ->
    consistent db' /\ In l' db' /\ key l' <> []
    /\ l' = with_key l (key l') /\ (key l <> [] -> l' = l)
    /\ (forall r, In r db -> id r <> id l -> In r db').
Proof.
  intros prims now db db' l l' Hc Hs.
  destruct (save_inv _ _ _ _ _ Hs) as (Hl & Hk & Hd & Hsame).
  destruct (db_save_consistent _ _ _ Hc Hd) as (Hc' & Hin & Hother & _).
  repeat split; try assumption; try apply Hc'.
  intros r Hr Hn. apply Hother; [exact Hr|]. rewrite Hl. exact Hn.
Qed.

Lemma X8_witness :
  exists l' db',
    @save Sample.primitives 1700000005000000 [Data.license_with None 1]
      (new_license 2 Data.acme None 1 []) = inr (l', db')
    /\ consistent db' /\ In l' db' /\ key l' <> [].
Proof.
  destruct (@save Sample.primitives 1700000005000000
              [Data.license_with None 1]
              (new_license 2 Data.acme None 1 [])) as [e|[l' db']] eqn:E.
  - vm_compute in E. discriminate.
  - exists l', db'. split; [reflexivity|].
    destruct (X8_save_keeps_table_consistent Sample.primitives
                1700000005000000 [Data.license_with None 1] db'
                (new_license 2 Data.acme None 1 []) l'
                (sample_consistent _) E) as (H1 & H2 & H3 & _).
    split; [exact H1|]. split; [exact H2|exact H3].
Defined.

Section ExtraFresh.
Context {prims : Primitives}.
Hypothesis sha256_length : forall x, length (sha256 x) = 32.
Hypothesis hmac_length : forall k m, length (hmac_sha256 k m) = 32.
Hypothesis zlib_round_trip :
  forall x, zlib_decompress (zlib_compress x) = Some x.

(** X9. A licence saved without a key gets a key that passes the
    licence's own validation: if the record is active, has seats left, its
    features are a dictionary, [datetime.fromtimestamp] accepts the second
    of the save and the second of its expiry, and at the time of
    validation it has not expired and its IP, domain and fingerprint rules
    do not refuse the caller, then [is_valid] answers "License is
    valid". *)
Theorem X9_saved_licence_is_valid :
  forall (now now' : Z) (db db' : table) (l0 l : License)
         (ip dom hw : option str),
    key l0 = [] -> save now db l0 = inr (l, db') ->
    Json.wf (Json.Obj (features l0)) = true ->
    datable (int_seconds now) (expires_at l0) ->
    is_active l0 = true -> record_expired now' l0 = false ->
    ip_refused ip l0 = false -> domain_refused dom l0 = false ->
    hardware_refused hw l0 = false ->
    (usage_count l0 < max_users l0)%Z ->
    is_valid now' l ip dom hw = Valid.
Proof.
  intros now now' db db' l0 l ip dom hw Hk Hs Hwf Hdt Ha He Hip Hdom Hhw Hu.
  destruct (save_generated _ _ _ _ _ Hk Hs) as (k & Hg & ->).
  destruct (mint_decodes sha256_length hmac_length zlib_round_trip
              (int_seconds now') _ _ _ _ _ _ _ _ Hg Hwf Hdt)
    as (md & Hv & Hf & Hx).
  rewrite (is_valid_passes now' (with_key l0 k) ip dom hw md);
    try assumption.
  - cbn [max_users usage_count with_key].
    now replace (max_users l0 <=? usage_count l0)%Z with false
      by (symmetry; apply Z.leb_gt; exact Hu).
  - rewrite Hx. now apply not_expired_flag.
  - cbn [client with_key]. now apply (client_matches md _ _ _ _ _ _ Hf).
Qed.

End ExtraFresh.

Lemma X9_witness :
  match @save Sample.primitives 1700000000000000 []
          (new_license 1 Data.acme (Some 1800000000000000%Z) 2 []) with
  | inr (l, _) =>
      @is_valid Sample.primitives 1750000000000000 l None None None = Valid
  | inl _ => False
  end.
Proof.
  destruct (@save Sample.primitives 1700000000000000 []
              (new_license 1 Data.acme (Some 1800000000000000%Z) 2 []))
    as [e|[l db']] eqn:E.
  - vm_compute in E. discriminate.
  - apply (@X9_saved_licence_is_valid Sample.primitives sample_sha256_length
             sample_hmac_length sample_zlib_round_trip 1700000000000000
             1750000000000000 [] db'
             (new_license 1 Data.acme (Some 1800000000000000%Z) 2 []) l);
      try reflexivity.
    + exact E.
    + apply sample_datable; vm_compute; split; discriminate.
Defined.

(** X10. A call of the usage endpoint changes at most the row of the key it
    names: the table keeps its unique indexes, its keys and primary keys
    stay the same, in the same order, and every row with a key other than
    the validated key of the request is still there, whatever the
    response. A request the serializer's fields refuse changes nothing. *)
Theorem X10_post_changes_one_row :
  forall (prims : Primitives) (now : Z) (db : table) (rq : usage_request),
    consistent db ->
    let db' := snd (post now db rq) in
    consistent db' /\ map key db' = map key db /\ map id db' = map id db
    /\ (forall r, In r db ->
          (forall data, validated_fields rq = Some data ->
                        key r <> license_key data) ->
          In r db')
    /\ (validated_fields rq = None -> db' = db).
Proof.
  intros prims now db rq Hc db'. subst db'.
  destruct (validated_fields rq) as [data|] eqn:Hd.
  2:{ rewrite (post_refused_400 now db rq Hc Hd). cbn [snd].
      split; [exact Hc|]. split; [reflexivity|]. split; [reflexivity|].
      split; [now intros|reflexivity]. }
  destruct (row db (license_key data)) as [l|] eqn:Hr.
  - pose proof (post_stored now db rq data l Hc Hd Hr) as Hp.
    cbv zeta in Hp. rewrite Hp. clear Hp.
    destruct (row_some _ _ _ Hr) as [Hin Hk].
    destruct (verdict_ok _); cbn [snd];
      [|split; [exact Hc|]; split; [reflexivity|]; split; [reflexivity|];
        split; [now intros|discriminate]].
    set (l' := used now l (req_hardware_fingerprint data)).
    destruct (replaced_fields db l l' Hc Hin eq_refl eq_refl) as (H1 & H2 & _).
    split; [now apply (replaced_consistent db l l')|].
    split; [exact H1|]. split; [exact H2|]. split; [|discriminate].
    intros r Hrin Hne. apply replaced_other; [exact Hrin|].
    apply (row_id_key db l r Hc Hin Hrin). rewrite Hk.
    now apply Hne.
  - rewrite (post_missing_key _ _ _ _ Hd Hr). cbn [snd].
    split; [exact Hc|]. split; [reflexivity|]. split; [reflexivity|].
    split; [now intros|discriminate].
Qed.

Lemma X10_witness :
  let db := [Data.license_with None 2] in
  let db' := snd (@post Sample.primitives 1700000010000000 db
                    (Data.request None)) in
  consistent db' /\ map key db' = map key db /\ map id db' = map id db.
Proof.
  cbv zeta.
  destruct (X10_post_changes_one_row Sample.primitives 1700000010000000
              [Data.license_with None 2] (Data.request None)
              (sample_consistent _)) as (H1 & H2 & H3 & _).
  split; [exact H1|]. split; [exact H2|exact H3].
Defined.

(** X11. The usage endpoint never answers 404: a key that is not stored is
    already refused by the serializer with 400. It never refuses a call
    for the domain rule either, since it passes no domain to [is_valid]:
    domain restrictions are not enforced when usage is tracked. *)
Theorem X11_post_never_404_nor_domain :
  forall (prims : Primitives) (now : Z) (db : table) (rq : usage_request),
    fst (post now db rq) <> NotFound404
    /\ fst (post now db rq) <> Forbidden403 DomainNotAuthorized.
Proof.
  intros prims now db rq. unfold post, serializer_is_valid.
  destruct (char_field 512 (license_key rq)) as [k|] eqn:Ek; cbn [fst];
    [|split; discriminate].
  destruct (objects_get db _) as [e|[l|]] eqn:Eo; cbn [fst];
    try (split; discriminate).
  destruct (validated_fields rq) as [data|] eqn:Hd; cbn [fst];
    [|split; discriminate].
  rewrite (validated_key rq data Hd) in Ek. injection Ek as <-.
  unfold record_usage. rewrite Eo.
  destruct (verdict_ok _) eqn:Ev.
  - destruct (increment_usage _ _ _ _ _) as [e|[l' db']]; cbn [fst];
      split; discriminate.
  - cbn [fst]. split; [discriminate|]. intros [= H].
    apply (is_valid_refusal now l (ip_address data) None
             (req_hardware_fingerprint data)) in H.
    discriminate.
Qed.

(** X12. When the usage endpoint answers 200, the [remaining_uses] it
    reports is [max_users - usage_count - 1] of the record stored under
    the validated key as it was before the call, and it is not
    negative. *)
Theorem X12_remaining_uses_reported :
  forall (prims : Primitives) (now : Z) (db db' : table)
         (rq : usage_request) (n : Z),
    consistent db -> post now db rq = (Ok200 n, db') ->
    exists data l,
      validated_fields rq = Some data
      /\ row db (license_key data) = Some l
      /\ n = (max_users l - usage_count l - 1)%Z /\ (0 <= n)%Z
      /\ get_remaining_uses l = (n + 1)%Z.
Proof.
  intros prims now db db' rq n Hc Hp.
  destruct (Consequences.post_ok now db rq n db' Hc Hp)
    as (data & l & Hd & Hr & Hv & _).
  exists data, l. split; [exact Hd|]. split; [exact Hr|].
  pose proof (post_stored now db rq data l Hc Hd Hr) as Hs. cbv zeta in Hs.
  rewrite Hv in Hs. cbn [verdict_ok] in Hs. rewrite Hs in Hp.
  injection Hp as Hn _.
  apply is_valid_seats in Hv.
  unfold get_remaining_uses in *. cbn [used max_users usage_count] in Hn.
  lia.
Qed.

Lemma X12_witness :
  exists data l,
    @validated_fields Sample.primitives (Data.request None) = Some data
    /\ row [Data.license_with None 2] (license_key data) = Some l
    /\ 1%Z = (max_users l - usage_count l - 1)%Z /\ (0 <= 1)%Z
    /\ get_remaining_uses l = (1 + 1)%Z.
Proof.
  apply (X12_remaining_uses_reported Sample.primitives 1700000010000000
           [Data.license_with None 2]
           (snd (@post Sample.primitives 1700000010000000
                   [Data.license_with None 2] (Data.request None)))
           (Data.request None) 1).
  - apply sample_consistent.
  - vm_compute. reflexivity.
Defined.

(** X13. A licence bound to a hardware fingerprint is never consumed by a
    call that supplies a different fingerprint: for a request the
    serializer's fields accept, with the licence's key and another
    fingerprint as validated values, the usage endpoint answers 403 and
    the table is unchanged. *)
Theorem X13_other_fingerprint_never_consumes :
  forall (prims : Primitives) (now : Z) (db : table) (l : License)
         (rq data : usage_request) (fp hw : str),
    consistent db -> In l db ->
    hardware_fingerprint l = Some fp -> fp <> [] ->
    validated_fields rq = Some data ->
    license_key data = key l ->
    req_hardware_fingerprint data = Some hw -> hw <> [] -> hw <> fp ->
    exists v, post now db rq = (Forbidden403 v, db) /\ v <> Valid.
Proof.
  intros prims now db l rq data fp hw Hc Hin Hfp Hne Hd Hk Hhw Hne' Hdf.
  assert (Hr : row db (license_key data) = Some l)
    by (rewrite Hk; now apply row_in).
  assert (Hv : is_valid now l (ip_address data) None
                 (req_hardware_fingerprint data) <> Valid).
  { intros H. apply is_valid_Valid in H.
    destruct H as (_ & _ & _ & _ & _ & H & _).
    unfold hardware_refused in H. rewrite Hfp, Hhw in H.
    destruct fp as [|a fp]; [contradiction|].
    destruct hw as [|b hw]; [contradiction|].
    cbn [truthy andb] in H.
    rewrite Checksum.str_eqb_neq in H by congruence. discriminate. }
  eexists. split; [apply (post_rejected now db rq data l Hc Hd Hr Hv)|exact Hv].
Qed.

Lemma X13_witness :
  let l := {| id := 1; key := Data.key_of None; client := Data.acme;
              email := None; expires_at := None; is_active := true;
              max_users := 2; features := []; usage_count := 0;
              last_used := None; hardware_fingerprint := Some (lit "HW-1");
              ip_restrictions := []; domain_restrictions := [] |} in
  exists v,
    @post Sample.primitives 1700000010000000 [l]
      (Data.request (Some (lit " HW-2 "))) = (Forbidden403 v, [l])
    /\ v <> Valid.
Proof.
  cbv zeta.
  eapply (X13_other_fingerprint_never_consumes Sample.primitives
            1700000010000000 _ _ (Data.request (Some (lit " HW-2 ")))
            (Data.request (Some (lit "HW-2")))
            (lit "HW-1") (lit "HW-2")).
  - apply sample_consistent.
  - now left.
  - reflexivity.
  - discriminate.
  - vm_compute. reflexivity.
  - reflexivity.
  - reflexivity.
  - discriminate.
  - discriminate.
Defined.

(** X14. [validate_license_with_context] answers [valid] only for a stored
    licence of the claimed client that is active, not expired, holds a key
    that decodes, is not expired by its key and carries the licence's
    client id, and has seats left; the answer then holds that licence, its
    decoded metadata and its positive number of remaining uses. *)
Theorem X14_valid_answer_is_sound :
  forall (prims : Primitives) (now : Z) (db : table) (k : str) (cid : Z)
         (ip dom hw : option str) (r : validation_result),
    validate_license_with_context now db k cid ip dom hw = inr r ->
    valid r = true ->
    exists l md,
      license r = Some l /\ In l db /\ key l = k
      /\ client_id (client l) = cid
      /\ is_active l = true /\ record_expired now l = false
      /\ metadata r = Some md
      /\ validate_license_key (int_seconds now) k = inr md
      /\ is_expired md = false /\ client_differs md cid = false
      /\ (usage_count l < max_users l)%Z
      /\ remaining_uses r = (max_users l - usage_count l)%Z
      /\ message r = inl Valid.
Proof.
  intros prims now db k cid ip dom hw r.
  unfold validate_license_with_context, objects_get.
  destruct (filter _ db) as [|l [|l2 rest]] eqn:Ef; try discriminate.
  - intros [= <-]. discriminate.
  - intros [= <-]. cbn [valid license metadata remaining_uses message].
    intros Hv.
    assert (Hin : In l (filter
              (fun r => str_eqb (key r) k && (client_id (client r) =? cid)%Z)
              db)) by (rewrite Ef; now left).
    apply filter_In in Hin as [Hin Hf].
    apply andb_true_iff in Hf as [Hk Hc].
    apply str_eqb_eq in Hk. apply Z.eqb_eq in Hc.
    destruct (is_valid now l ip dom hw) eqn:E; try discriminate.
    destruct (is_valid_Valid _ _ _ _ _ E)
      as (Ha & He & (md & Hmd & Hx & Hcl) & _ & _ & _ & Hu).
    exists l, md. unfold get_key_metadata, get_remaining_uses.
    rewrite Hk in Hmd. subst k cid. rewrite Hmd.
    repeat split; try assumption; try reflexivity. lia.
Qed.

Lemma X14_witness :
  exists r,
    @validate_license_with_context Sample.primitives 1700000010000000
      [Data.license_with None 2] (Data.key_of None) 7 None None None = inr r
    /\ valid r = true /\ remaining_uses r = 2%Z.
Proof.
  destruct (@validate_license_with_context Sample.primitives 1700000010000000
              [Data.license_with None 2] (Data.key_of None) 7 None None None)
    as [e|r] eqn:E.
  - vm_compute in E. discriminate.
  - exists r. split; [reflexivity|].
    assert (Hv : valid r = true)
      by (vm_compute in E; injection E as <-; reflexivity).
    split; [exact Hv|].
    destruct (X14_valid_answer_is_sound Sample.primitives _ _ _ _ _ _ _ r E Hv)
      as (l & md & Hl & Hin & _ & _ & _ & _ & _ & _ & _ & _ & _ & Hr & _).
    destruct Hin as [<-|[]]. exact Hr.
Defined.

(** X15. [reset_usage] gives seats back: if a licence with at least one
    seat is refused only because its usage limit is reached, then after
    [reset_usage] the same call is accepted, the counter is 0 and the
    remaining uses are [max_users]. *)
Theorem X15_reset_usage_restores_validity :
  forall (prims : Primitives) (now now' : Z) (db db' : table)
         (l l' : License) (ip dom hw : option str),
    is_valid now l ip dom hw = UsageExceeded -> (0 < max_users l)%Z ->
    LicenseOps.reset_usage now' db l = inr (l', db') ->
    is_valid now l' ip dom hw = Valid
    /\ usage_count l' = 0%Z
    /\ get_remaining_uses l' = max_users l.
Proof.
  intros prims now now' db db' l l' ip dom hw Hv Hm Hs.
  destruct (is_valid_UsageExceeded _ _ _ _ _ Hv)
    as (Ha & He & (md & Hmd & Hx & Hc) & Hip & Hdom & Hhw & _).
  unfold LicenseOps.reset_usage in Hs.
  destruct (save_inv _ _ _ _ _ Hs) as (_ & _ & _ & Hsame).
  rewrite (Hsame (validated_key_nonempty _ _ _ Hmd)).
  split; [|split].
  - rewrite (is_valid_passes now (with_usage_count l 0) ip dom hw md);
      try assumption.
    cbn [max_users usage_count with_usage_count].
    now replace (max_users l <=? 0)%Z with false
      by (symmetry; apply Z.leb_gt; exact Hm).
  - reflexivity.
  - unfold get_remaining_uses. cbn [max_users usage_count with_usage_count].
    lia.
Qed.

Lemma X15_witness :
  let l := {| id := 1; key := Data.key_of None; client := Data.acme;
              email := None; expires_at := None; is_active := true;
              max_users := 2; features := []; usage_count := 2;
              last_used := None; hardware_fingerprint := None;
              ip_restrictions := []; domain_restrictions := [] |} in
  match @LicenseOps.reset_usage Sample.primitives 1700000020000000 [l] l with
  | inr (l', _) =>
      @is_valid Sample.primitives 1700000010000000 l' None None None = Valid
      /\ usage_count l' = 0%Z /\ get_remaining_uses l' = 2%Z
  | inl _ => False
  end.
Proof.
  intros l.
  destruct (@LicenseOps.reset_usage Sample.primitives 1700000020000000 [l] l)
    as [e|[l' db']] eqn:E.
  - vm_compute in E. discriminate.
  - apply (X15_reset_usage_restores_validity Sample.primitives
             1700000010000000 1700000020000000 [l] db' l l' None None None);
      [| |exact E].
    + vm_compute. reflexivity.
    + reflexivity.
Defined.

(** X16. After [add_ip_restriction] the address is on the licence's list
    together with all addresses that were there, a list without repetitions
    stays without repetitions, a call from the address is not refused by
    the IP rule while a call from any address that is not on the list is,
    and adding the address once more changes nothing. *)
Theorem X16_add_ip_restriction :
  forall (prims : Primitives) (now : Z) (db db' : table) (l l' : License)
         (ip : str),
    ip <> [] ->
    LicenseOps.add_ip_restriction now db l ip = inr (l', db') ->
    In ip (ip_restrictions l')
    /\ (forall x, In x (ip_restrictions l) -> In x (ip_restrictions l'))
    /\ (NoDup (ip_restrictions l) -> NoDup (ip_restrictions l'))
    /\ ip_refused (Some ip) l' = false
    /\ (forall x, x <> [] -> ~ In x (ip_restrictions l') ->
        ip_refused (Some x) l' = true)
    /\ (forall now2 db2,
          LicenseOps.add_ip_restriction now2 db2 l' ip = inr (l', db2)).
Proof.
  intros prims now db db' l l' ip Hne Ha.
  assert (Hlist : In ip (ip_restrictions l')
                  /\ (forall x, In x (ip_restrictions l) ->
                                In x (ip_restrictions l'))
                  /\ (NoDup (ip_restrictions l) ->
                      NoDup (ip_restrictions l'))).
  { unfold LicenseOps.add_ip_restriction in Ha.
    destruct (existsb (str_eqb ip) (ip_restrictions l)) eqn:E;
      cbn [negb] in Ha.
    - injection Ha as <- <-. apply existsb_str_eqb in E. now repeat split.
    - destruct (save_inv _ _ _ _ _ Ha) as (-> & _).
      cbn [ip_restrictions with_key with_ip_restrictions].
      split; [apply in_or_app; right; now left|].
      split; [intros x Hx; apply in_or_app; now left|].
      intros Hnd. apply NoDup_app; [exact Hnd|repeat constructor; intros []|].
      intros x Hx [<-|[]]. apply existsb_str_eqb in Hx. congruence. }
  destruct Hlist as (Hin & Hold & Hnd).
  assert (Hex : existsb (str_eqb ip) (ip_restrictions l') = true)
    by now apply existsb_str_eqb.
  split; [exact Hin|]. split; [exact Hold|]. split; [exact Hnd|].
  split; [|split].
  - unfold ip_refused. destruct ip as [|c s]; [contradiction|].
    destruct (ip_restrictions l'); [reflexivity|]. now rewrite Hex.
  - intros x Hx Hnin. unfold ip_refused. destruct x as [|c s]; [contradiction|].
    destruct (ip_restrictions l') as [|y r] eqn:El; [destruct Hin|].
    destruct (existsb (str_eqb (c :: s)) (y :: r)) eqn:E; [|reflexivity].
    apply existsb_str_eqb in E. contradiction.
  - intros now2 db2. unfold LicenseOps.add_ip_restriction. now rewrite Hex.
Qed.

Lemma X16_witness :
  match @LicenseOps.add_ip_restriction Sample.primitives 1700000020000000
          [Data.license_with None 2] (Data.license_with None 2)
          (lit "10.0.0.1") with
  | inr (l', _) =>
      In (lit "10.0.0.1") (ip_restrictions l')
      /\ ip_refused (Some (lit "10.0.0.1")) l' = false
  | inl _ => False
  end.
Proof.
  match goal with
  | |- match ?s with _ => _ end => destruct s as [e|[l' db']] eqn:E
  end.
  - vm_compute in E. discriminate.
  - destruct (X16_add_ip_restriction Sample.primitives 1700000020000000
                [Data.license_with None 2] db' (Data.license_with None 2) l'
                (lit "10.0.0.1") ltac:(discriminate) E)
      as (H1 & _ & _ & H2 & _).
    split; [exact H1|exact H2].
Defined.

(** X17. The domain rule accepts by suffix: a domain that ends with an
    entry of the licence's list is never refused with "Domain not
    authorized", whatever precedes the entry in it. *)
Theorem X17_domain_rule_accepts_suffix :
  forall (prims : Primitives) (now : Z) (l : License) (ip hw : option str)
         (p d : str),
    In d (domain_restrictions l) ->
    domain_refused (Some (p ++ d)) l = false
    /\ is_valid now l ip (Some (p ++ d)) hw <> DomainNotAuthorized.
Proof.
  intros prims now l ip hw p d Hin.
  assert (H : domain_refused (Some (p ++ d)) l = false).
  { unfold domain_refused. destruct (p ++ d) as [|c s] eqn:E; [reflexivity|].
    destruct (domain_restrictions l) as [|y r] eqn:El; [reflexivity|].
    destruct (existsb (endswith (c :: s)) (y :: r)) eqn:Ex; [reflexivity|].
    pose proof (existsb_false _ _ Ex d Hin) as Hf.
    now rewrite <- E, endswith_app in Hf. }
  split; [exact H|]. intros Hv.
  apply (is_valid_refusal now l ip (Some (p ++ d)) hw) in Hv. congruence.
Qed.

Lemma X17_witness :
  let l := {| id := 1; key := Data.key_of None; client := Data.acme;
              email := None; expires_at := None; is_active := true;
              max_users := 2; features := []; usage_count := 0;
              last_used := None; hardware_fingerprint := None;
              ip_restrictions := [];
              domain_restrictions := [lit "example.com"] |} in
  domain_refused (Some (lit "notexample.com")) l = false
  /\ @is_valid Sample.primitives 1700000010000000 l None
       (Some (lit "notexample.com")) None <> DomainNotAuthorized.
Proof.
  cbv zeta.
  apply (X17_domain_rule_accepts_suffix Sample.primitives 1700000010000000
           _ None None (lit "not") (lit "example.com")).
  now left.
Defined.

(** X18. The [is_expired] field of [LicenseSerializer] is "not valid", not
    "expired": it is true for every licence that is inactive or has no
    seat left, also when the licence has no expiry date. *)
Theorem X18_serializer_is_expired_means_not_valid :
  forall (prims : Primitives) (now : Z) (l : License),
    is_active l = false \/ (max_users l <= usage_count l)%Z ->
    get_is_expired now l = true.
Proof.
  intros prims now l H. unfold get_is_expired.
  destruct (is_valid now l None None None) eqn:E; try reflexivity.
  apply is_valid_Valid in E. destruct E as (Ha & _ & _ & _ & _ & _ & Hu).
  destruct H as [H|H]; [congruence|lia].
Qed.

Lemma X18_witness :
  let l := {| id := 1; key := Data.key_of None; client := Data.acme;
              email := None; expires_at := None; is_active := true;
              max_users := 2; features := []; usage_count := 2;
              last_used := None; hardware_fingerprint := None;
              ip_restrictions := []; domain_restrictions := [] |} in
  expires_at l = None
  /\ @get_is_expired Sample.primitives 1700000010000000 l = true.
Proof.
  cbv zeta. split; [reflexivity|].
  apply (X18_serializer_is_expired_means_not_valid Sample.primitives).
  right. cbn. lia.
Defined.

(** ** Facts about [LicenseManager] and the list views *)

Module ManagerFacts.
Import Properties AdvancedLicenseKeyGenerator Models Views Rules Usage
  LicenseManager PolicyFacts.

(** *** The order of strings *)

Lemma str_ltb_irrefl a : str_ltb a a = false.
Proof.
  induction a as [|x a IH]; [reflexivity|].
  cbn [str_ltb]. now rewrite Z.ltb_irrefl.
Qed.

Lemma str_ltb_trans a : forall b c,
  str_ltb a b = true -> str_ltb b c = true -> str_ltb a c = true.
Proof.
  induction a as [|x a IH]; intros [|y b] [|z c]; cbn [str_ltb];
    try discriminate; try reflexivity.
  destruct (Z.ltb_spec (Z_of_byte x) (Z_of_byte y)) as [Hxy|Hxy];
    destruct (Z.ltb_spec (Z_of_byte y) (Z_of_byte x)) as [Hyx|Hyx];
    destruct (Z.ltb_spec (Z_of_byte y) (Z_of_byte z)) as [Hyz|Hyz];
    destruct (Z.ltb_spec (Z_of_byte z) (Z_of_byte y)) as [Hzy|Hzy];
    destruct (Z.ltb_spec (Z_of_byte x) (Z_of_byte z)) as [Hxz|Hxz];
    destruct (Z.ltb_spec (Z_of_byte z) (Z_of_byte x)) as [Hzx|Hzx];
    try lia; try discriminate; try reflexivity.
  apply IH.
Qed.

Lemma str_ltb_connex a : forall b,
  str_ltb a b = false -> str_ltb b a = false -> a = b.
Proof.
  induction a as [|x a IH]; intros [|y b]; cbn [str_ltb];
    try discriminate; try reflexivity.
  destruct (Z.ltb_spec (Z_of_byte x) (Z_of_byte y)) as [Hxy|Hxy];
    destruct (Z.ltb_spec (Z_of_byte y) (Z_of_byte x)) as [Hyx|Hyx];
    try lia; try discriminate.
  intros H1 H2. f_equal; [|now apply IH].
  apply CRC32Linear.Z_of_byte_inj. lia.
Qed.

Lemma str_ltb_asym a b : str_ltb a b = true -> str_ltb b a = false.
Proof.
  intros H. destruct (str_ltb b a) eqn:E; [|reflexivity].
  pose proof (str_ltb_trans _ _ _ H E) as T.
  now rewrite str_ltb_irrefl in T.
Qed.

Lemma str_le_trans a b c :
  str_ltb b a = false -> str_ltb c b = false -> str_ltb c a = false.
Proof.
  intros H1 H2. destruct (str_ltb c a) eqn:E; [|reflexivity].
  destruct (str_ltb a b) eqn:Eab.
  - now rewrite (str_ltb_trans _ _ _ E Eab) in H2.
  - rewrite (str_ltb_connex _ _ Eab H1) in E. congruence.
Qed.

(** *** [sorted] *)

Lemma insert_sorted_perm k l : Permutation (insert_sorted k l) (k :: l).
Proof.
  induction l as [|x r IH]; [reflexivity|].
  cbn [insert_sorted]. destruct (str_ltb x k); [|reflexivity].
  rewrite IH. apply perm_swap.
Qed.

Lemma sorted_perm l : Permutation (sorted l) l.
Proof.
  induction l as [|x r IH]; [reflexivity|].
  cbn [sorted fold_right]. fold (sorted r).
  rewrite insert_sorted_perm. now constructor.
Qed.

Lemma insert_sorted_ordered k l :
  StronglySorted (fun a b => str_ltb b a = false) l ->
  StronglySorted (fun a b => str_ltb b a = false) (insert_sorted k l).
Proof.
  induction 1 as [|x r Hr IH Hx]; [repeat constructor|].
  cbn [insert_sorted]. destruct (str_ltb x k) eqn:E.
  - constructor; [exact IH|].
    apply (Permutation_Forall (Permutation_sym (insert_sorted_perm k r))).
    constructor; [now apply str_ltb_asym|exact Hx].
  - constructor; [now constructor|].
    constructor; [exact E|].
    eapply Forall_impl; [|exact Hx]. intros y Hy.
    now apply (str_le_trans k x y).
Qed.

Lemma sorted_ordered l :
  StronglySorted (fun a b => str_ltb b a = false) (sorted l).
Proof.
  induction l as [|x r IH]; [constructor|].
  cbn [sorted fold_right]. now apply insert_sorted_ordered.
Qed.

Lemma ordered_unique l1 : forall l2,
  StronglySorted (fun a b => str_ltb b a = false) l1 ->
  StronglySorted (fun a b => str_ltb b a = false) l2 ->
  Permutation l1 l2 -> l1 = l2.
Proof.
  induction l1 as [|a r1 IH]; intros l2 H1 H2 P.
  - apply Permutation_nil in P. now subst.
  - destruct l2 as [|b r2];
      [apply Permutation_sym, Permutation_nil in P; discriminate|].
    apply StronglySorted_inv in H1 as [S1 F1].
    apply StronglySorted_inv in H2 as [S2 F2].
    assert (Hab : str_ltb b a = false).
    { assert (Hin : In b (a :: r1))
        by (apply (Permutation_in _ (Permutation_sym P)); now left).
      destruct Hin as [<-|Hin]; [apply str_ltb_irrefl|].
      now apply (proj1 (Forall_forall _ _) F1). }
    assert (Hba : str_ltb a b = false).
    { assert (Hin : In a (b :: r2))
        by (apply (Permutation_in _ P); now left).
      destruct Hin as [<-|Hin]; [apply str_ltb_irrefl|].
      now apply (proj1 (Forall_forall _ _) F2). }
    pose proof (str_ltb_connex _ _ Hba Hab) as <-.
    f_equal. apply IH; [exact S1|exact S2|].
    now apply Permutation_cons_inv in P.
Qed.

(** The sorted keys do not depend on the order of insertion. *)
Lemma sorted_permutation l1 l2 :
  Permutation l1 l2 -> sorted l1 = sorted l2.
Proof.
  intros P. apply ordered_unique; try apply sorted_ordered.
  rewrite !sorted_perm. exact P.
Qed.

Lemma lookup_permutation (d1 d2 : list (str * str)) :
  Permutation d1 d2 -> NoDup (map fst d1) ->
  forall k, lookup d1 k = lookup d2 k.
Proof.
  induction 1 as [|[k1 v1] r1 r2 P IH|[k1 v1] [k2 v2] r|d1 d2 d3 P1 IH1 P2 IH2];
    intros Hnd k.
  - reflexivity.
  - cbn [lookup]. cbn [map fst] in Hnd. inversion Hnd; subst.
    now rewrite IH.
  - cbn [lookup]. cbn [map fst] in Hnd.
    destruct (str_eqb k2 k) eqn:E2; destruct (str_eqb k1 k) eqn:E1;
      try reflexivity.
    apply str_eqb_eq in E1, E2. subst. inversion Hnd as [|? ? Hn _]; subst.
    exfalso. apply Hn. now left.
  - rewrite IH1 by exact Hnd. apply IH2.
    apply (Permutation_NoDup (l := map fst d1)); [|exact Hnd].
    now apply Permutation_map.
Qed.

(** *** Counting rows *)

Lemma filter_length_le {A} (f : A -> bool) l : length (filter f l) <= length l.
Proof.
  induction l as [|a r IH]; [reflexivity|].
  cbn [filter]. destruct (f a); cbn [length]; lia.
Qed.

Lemma filter_replaced (p : License -> bool) db l l' :
  NoDup (map id db) -> In l db -> id l' = id l -> p l' = p l ->
  length (filter p (replaced db l')) = length (filter p db).
Proof.
  intros Hnd Hin Hid Hp.
  assert (H : forall r, In r db -> p (if (id r =? id l')%Z then l' else r) = p r).
  { intros r Hr. destruct (id r =? id l')%Z eqn:E; [|reflexivity].
    apply Z.eqb_eq in E. rewrite Hp. f_equal.
    apply (NoDup_map_eq id db l r Hnd Hin Hr). congruence. }
  clear Hnd Hin. unfold replaced.
  induction db as [|a r IH]; [reflexivity|].
  cbn [map filter]. rewrite (H a) by now left.
  destruct (p a); cbn [length]; rewrite IH; try reflexivity;
    intros x Hx; apply H; now right.
Qed.

Lemma sum_usage_replaced db l l' :
  NoDup (map id db) -> In l db -> id l' = id l ->
  sum_usage (replaced db l')
  = (sum_usage db + (usage_count l' - usage_count l))%Z.
Proof.
  intros Hnd Hin Hid. induction db as [|a r IH]; [destruct Hin|].
  cbn [map] in Hnd. inversion Hnd as [|? ? Ha Hr]; subst.
  cbn [replaced map sum_usage fold_right]. fold (replaced r l').
  fold (sum_usage (replaced r l')). fold (sum_usage r).
  destruct Hin as [->|Hin].
  - rewrite <- Hid, Z.eqb_refl.
    rewrite replaced_absent by (rewrite Hid; exact Ha). lia.
  - destruct (id a =? id l')%Z eqn:E.
    + apply Z.eqb_eq in E. exfalso. apply Ha. rewrite E, Hid.
      now apply in_map.
    + rewrite IH by assumption. lia.
Qed.

End ManagerFacts.

Import Properties AdvancedLicenseKeyGenerator Models Views Rules.
Import Usage LicenseManager ManagerFacts PolicyFacts.

(** X19. The hardware fingerprint does not depend on the order in which
    the system information was entered: two dictionaries with the same
    entries give the same fingerprint. *)
Theorem X19_fingerprint_ignores_insertion_order :
  forall (prims : Primitives) (info1 info2 : list (str * str)),
    NoDup (map fst info1) -> Permutation info1 info2 ->
    generate_hardware_fingerprint info1 = generate_hardware_fingerprint info2.
Proof.
  intros prims info1 info2 Hnd P. unfold generate_hardware_fingerprint.
  rewrite (sorted_permutation (map fst info1) (map fst info2))
    by now apply Permutation_map.
  do 4 f_equal. apply map_ext. intros k.
  now rewrite (lookup_permutation info1 info2 P Hnd).
Qed.

Lemma X19_witness :
  @generate_hardware_fingerprint Sample.primitives
    [(lit "cpu", lit "x86"); (lit "board", lit "b1")]
  = @generate_hardware_fingerprint Sample.primitives
      [(lit "board", lit "b1"); (lit "cpu", lit "x86")].
Proof.
  apply (X19_fingerprint_ignores_insertion_order Sample.primitives).
  - repeat constructor; cbn; intuition discriminate.
  - apply perm_swap.
Defined.

(** X20. In the analytics of any client filter, the active and the expired
    licences are counted among the total, which is at most the size of the
    table. A [client_id] of [0] is taken as no filter at all: it gives the
    analytics of all clients, and the analytics endpoint answers it without
    looking a client up. The endpoint refuses (with 400) exactly the
    non-zero ids that no client has. *)
Theorem X20_analytics_counts :
  forall (now : Z) (db : table) (cid : option Z) (clients : list Client),
    active_licenses (get_license_analytics now db cid)
    <= total_licenses (get_license_analytics now db cid)
    /\ expired_licenses (get_license_analytics now db cid)
       <= total_licenses (get_license_analytics now db cid)
    /\ total_licenses (get_license_analytics now db cid) <= length db
    /\ get_license_analytics now db (Some 0%Z)
       = get_license_analytics now db None
    /\ analytics_get clients now db (Some 0%Z)
       = Some (get_license_analytics now db None)
    /\ (analytics_get clients now db cid = None
        <-> exists c, cid = Some c /\ c <> 0%Z
                      /\ forall x, In x clients -> client_id x <> c)
    /\ (forall a, analytics_get clients now db cid = Some a ->
                  a = get_license_analytics now db cid).
Proof.
  intros now db cid clients.
  split; [|split; [|split; [|split; [|split; [|split]]]]].
  - apply filter_length_le.
  - apply filter_length_le.
  - unfold get_license_analytics. cbn [total_licenses].
    destruct cid as [c|]; [|reflexivity].
    destruct (c =? 0)%Z; [reflexivity|apply filter_length_le].
  - reflexivity.
  - reflexivity.
  - unfold analytics_get, get_client. destruct cid as [c|].
    + destruct (c =? 0)%Z eqn:E0.
      * split; [discriminate|]. intros (c' & [= <-] & Hc & _).
        apply Z.eqb_eq in E0. contradiction.
      * destruct (find _ clients) as [x|] eqn:Ef.
        -- split; [discriminate|]. intros (c' & [= <-] & _ & Hno).
           apply find_some in Ef as [Hin Hx]. apply Z.eqb_eq in Hx.
           now destruct (Hno x Hin).
        -- split; [|reflexivity]. intros _. exists c.
           split; [reflexivity|]. split; [now apply Z.eqb_neq|].
           intros x Hin Hx. pose proof (find_none _ _ Ef x Hin) as H.
           cbn in H. apply Z.eqb_neq in H. contradiction.
    + split; [discriminate|]. intros (c & H & _). discriminate.
  - intros a. unfold analytics_get. destruct cid as [c|].
    + destruct (c =? 0)%Z; [now intros [= <-]|].
      destruct (get_client clients c); [now intros [= <-]|discriminate].
    + now intros [= <-].
Qed.

(** X21. A successful call of the usage endpoint adds exactly one to the
    total usage over all clients and leaves the numbers of licences, of
    active licences and of expired licences unchanged, under every client
    filter. *)
Theorem X21_usage_shows_in_analytics :
  forall (prims : Primitives) (now now' : Z) (db db' : table)
         (rq : usage_request) (n : Z) (cid : option Z),
    consistent db -> post now db rq = (Ok200 n, db') ->
    total_usage (get_license_analytics now' db' None)
    = (total_usage (get_license_analytics now' db None) + 1)%Z
    /\ total_licenses (get_license_analytics now' db' cid)
       = total_licenses (get_license_analytics now' db cid)
    /\ active_licenses (get_license_analytics now' db' cid)
       = active_licenses (get_license_analytics now' db cid)
    /\ expired_licenses (get_license_analytics now' db' cid)
       = expired_licenses (get_license_analytics now' db cid).
Proof.
  intros prims now now' db db' rq n cid Hc Hp.
  destruct (Consequences.post_ok now db rq n db' Hc Hp)
    as (data & l & Hd & Hr & Hv & _).
  destruct (post_valid now db rq data l Hc Hd Hr Hv) as (Hp' & _).
  cbv zeta in Hp'. rewrite Hp' in Hp. injection Hp as _ <-.
  destruct (row_some _ _ _ Hr) as [Hin _].
  set (l' := used now l (req_hardware_fingerprint data)).
  destruct Hc as [_ Hid].
  unfold get_license_analytics.
  cbn [total_usage total_licenses active_licenses expired_licenses].
  split.
  - rewrite (sum_usage_replaced db l l' Hid Hin eq_refl).
    cbn [usage_count used l']. lia.
  - assert (Hf : forall p : License -> bool, p l' = p l ->
               length (filter p (replaced db l')) = length (filter p db))
      by (intros p Hpl; now apply (filter_replaced p db l l')).
    assert (Hsel : forall (p q : License -> bool),
               p l' = p l -> q l' = q l ->
               length (filter p (filter q (replaced db l')))
               = length (filter p (filter q db))).
    { intros p q Hpl Hql.
      assert (E : forall d, filter p (filter q d)
                            = filter (fun r => q r && p r) d).
      { induction d as [|a r IH]; [reflexivity|].
        cbn [filter]. destruct (q a); cbn [filter andb];
          [destruct (p a)|]; now rewrite IH. }
      rewrite !E. apply Hf. now rewrite Hpl, Hql. }
    destruct cid as [c|]; [destruct (c =? 0)%Z|].
    + repeat split; [unfold replaced; apply length_map| |]; now apply Hf.
    + repeat split; [now apply Hf| |]; now apply Hsel.
    + repeat split; [unfold replaced; apply length_map| |]; now apply Hf.
Qed.

Lemma X21_witness :
  let db := [Data.license_with None 2] in
  let db' := snd (@post Sample.primitives 1700000010000000 db
                    (Data.request None)) in
  total_usage (get_license_analytics 1700000020000000 db' None)
  = (total_usage (get_license_analytics 1700000020000000 db None) + 1)%Z
  /\ total_licenses (get_license_analytics 1700000020000000 db' (Some 7%Z))
     = total_licenses (get_license_analytics 1700000020000000 db (Some 7%Z))
  /\ active_licenses (get_license_analytics 1700000020000000 db' (Some 7%Z))
     = active_licenses (get_license_analytics 1700000020000000 db (Some 7%Z))
  /\ expired_licenses (get_license_analytics 1700000020000000 db' (Some 7%Z))
     = expired_licenses (get_license_analytics 1700000020000000 db (Some 7%Z)).
Proof.
  cbv zeta.
  apply (X21_usage_shows_in_analytics Sample.primitives 1700000010000000
           1700000020000000 [Data.license_with None 2] _ (Data.request None) 1).
  - apply sample_consistent.
  - vm_compute. reflexivity.
Defined.

(** X22. In the licence list, the [expired] query parameter splits the
    listing in two: with [expired=true] the list holds exactly the
    licences with an expiry date before now, with any other value exactly
    the remaining ones. The licences listed as expired are those that
    [is_valid] refuses with "License has expired" when they are active. *)
Theorem X22_expired_parameter_partitions :
  forall (prims : Primitives) (int_of_param : str -> option Z) (now : Z)
         (db q : table) (c a : option str) (yes no : str),
    ViewSets.get_queryset int_of_param now db
      {| ViewSets.q_client_id := c; ViewSets.q_is_active := a;
         ViewSets.q_expired := None |} = inr q ->
    ViewSets.is_true_param yes = true ->
    ViewSets.is_true_param no = false ->
    ViewSets.get_queryset int_of_param now db
      {| ViewSets.q_client_id := c; ViewSets.q_is_active := a;
         ViewSets.q_expired := Some yes |}
    = inr (filter (record_expired now) q)
    /\ ViewSets.get_queryset int_of_param now db
         {| ViewSets.q_client_id := c; ViewSets.q_is_active := a;
            ViewSets.q_expired := Some no |}
       = inr (filter (fun r => negb (record_expired now r)) q)
    /\ forall r ip dom hw,
         is_active r = true ->
         (record_expired now r = true
          <-> is_valid now r ip dom hw = Expired).
Proof.
  intros prims int_of_param now db q c a yes no Hq Hy Hn.
  unfold ViewSets.get_queryset in *.
  cbn [ViewSets.q_client_id ViewSets.q_is_active ViewSets.q_expired] in *.
  destruct (match c with
            | Some (x :: s) =>
                match int_of_param (x :: s) with
                | Some n => inr (filter (fun r => (client_id (client r) =? n)%Z) db)
                | None => inl ViewSets.ValueError
                end
            | _ => inr db
            end) as [e|q0]; [discriminate|].
  injection Hq as <-. rewrite Hy, Hn.
  split; [reflexivity|]. split.
  - f_equal. apply filter_ext. intros r. unfold record_expired.
    destruct (expires_at r) as [e|]; [|reflexivity].
    apply Z.leb_antisym.
  - intros r ip dom hw Ha. rewrite is_valid_unfold, Ha. cbn [negb].
    destruct (record_expired now r); [now split|].
    split; [discriminate|].
    destruct (validate_license_key _ _) as [e|md]; [discriminate|].
    repeat match goal with
           | |- context [if ?b then _ else _] => destruct b
           end; discriminate.
Qed.

Lemma X22_witness :
  let db := [Data.license_with (Some 1600000000000000%Z) 1] in
  ViewSets.get_queryset (fun _ => None) 1700000000000000 db
    {| ViewSets.q_client_id := None; ViewSets.q_is_active := None;
       ViewSets.q_expired := Some (lit "True") |}
  = inr (filter (record_expired 1700000000000000) db)
  /\ ViewSets.get_queryset (fun _ => None) 1700000000000000 db
       {| ViewSets.q_client_id := None; ViewSets.q_is_active := None;
          ViewSets.q_expired := Some (lit "0") |}
     = inr (filter (fun r => negb (record_expired 1700000000000000 r)) db)
  /\ forall r ip dom hw,
       is_active r = true ->
       (record_expired 1700000000000000 r = true
        <-> @is_valid Sample.primitives 1700000000000000 r ip dom hw = Expired).
Proof.
  cbv zeta.
  apply (X22_expired_parameter_partitions Sample.primitives (fun _ => None)
           1700000000000000 _ _ None None (lit "True") (lit "0"));
    reflexivity.
Defined.

(** ** Facts about the licence views and bulk creation *)

Module ViewFacts.
Import Framing Properties AdvancedLicenseKeyGenerator Models Views Rules
  Codec Usage Policy MintFacts PolicyFacts LicenseOps ViewSets.

Section Facts.
Context {prims : Primitives}.
Variable int_of_param : str -> option Z.

Lemma get_queryset_incl now db params q :
  get_queryset int_of_param now db params = inr q ->
  forall r, In r q -> In r db.
Proof.
  unfold get_queryset.
  destruct (match q_client_id params with
            | Some (x :: s) =>
                match int_of_param (x :: s) with
                | Some n => inr (filter (fun r => (client_id (client r) =? n)%Z) db)
                | None => inl ValueError
                end
            | _ => inr db
            end) as [e|q0] eqn:E0; [discriminate|].
  intros [= <-] r Hr.
  assert (H0 : In r q0).
  { destruct (q_expired params) as [x|];
      [destruct (is_true_param x)|];
      try (apply filter_In in Hr as [Hr _]);
      (destruct (q_is_active params);
       [apply filter_In in Hr as [Hr _]|]; exact Hr). }
  destruct (q_client_id params) as [[|x s]|]; try (injection E0 as <-; exact H0).
  destruct (int_of_param (x :: s)); [|discriminate].
  injection E0 as <-. now apply filter_In in H0 as [H0 _].
Qed.

Lemma objects_get_found (db : table) f l :
  objects_get db f = inr (Some l) -> In l db /\ f l = true.
Proof.
  unfold objects_get.
  destruct (filter f db) as [|x [|y r]] eqn:E; try discriminate.
  intros [= <-]. apply filter_In. rewrite E. now left.
Qed.

Lemma filter_id db l :
  NoDup (map id db) -> In l db ->
  filter (fun r => (id r =? id l)%Z) db = [l].
Proof.
  intros Hnd Hin. induction db as [|a r IH]; [destruct Hin|].
  cbn [map] in Hnd. inversion Hnd as [|? ? Ha Hr]; subst.
  cbn [filter]. destruct Hin as [->|Hin].
  - rewrite Z.eqb_refl. f_equal.
    destruct (filter _ r) as [|x t] eqn:E; [reflexivity|].
    assert (Hx : In x (filter (fun r => (id r =? id l)%Z) r))
      by (rewrite E; now left).
    apply filter_In in Hx as [Hx Hid]. apply Z.eqb_eq in Hid.
    exfalso. apply Ha. rewrite <- Hid. now apply in_map.
  - destruct (id a =? id l)%Z eqn:E; [|now apply IH].
    apply Z.eqb_eq in E. exfalso. apply Ha. rewrite E. now apply in_map.
Qed.

Lemma objects_get_id db l :
  consistent db -> In l db ->
  objects_get db (fun r => (id r =? id l)%Z) = inr (Some l).
Proof.
  intros [_ Hi] Hin. unfold objects_get. now rewrite filter_id.
Qed.

Lemma get_object_inv now db params pk l :
  get_object int_of_param now db params pk = inr l ->
  In l db /\ id l = pk.
Proof.
  unfold get_object.
  destruct (get_queryset int_of_param now db params) as [e|q] eqn:Eq;
    [discriminate|].
  destruct (objects_get q _) as [e|[x|]] eqn:Eo; try discriminate.
  intros [= <-]. apply objects_get_found in Eo as [Hin Hid].
  split; [now apply (get_queryset_incl _ _ _ _ Eq)|now apply Z.eqb_eq].
Qed.

Lemma get_object_error now db params pk r :
  get_object int_of_param now db params pk = inl r ->
  forall l, r <> Ok200 l.
Proof.
  unfold get_object.
  destruct (get_queryset int_of_param now db params) as [e|q];
    [now intros [= <-]|].
  destruct (objects_get q _) as [e|[x|]]; try discriminate;
    now intros [= <-].
Qed.

Lemma respond_ok db r l db' :
  respond db r = (Ok200 l, db') -> r = inr (l, db').
Proof.
  unfold respond. destruct r as [e|[x d]]; [discriminate|].
  now intros [= <- <-].
Qed.

Lemma replaced_twice db l l1 :
  NoDup (map id db) -> In l db -> id l1 = id l ->
  replaced (replaced db l1) l = db.
Proof.
  intros Hnd Hin Hid. unfold replaced. rewrite map_map.
  rewrite <- (map_id db) at 2. apply map_ext_in. intros r Hr.
  destruct (id r =? id l1)%Z eqn:E.
  - rewrite Hid, Z.eqb_refl. apply Z.eqb_eq in E.
    apply (NoDup_map_eq id db l r Hnd Hin Hr). congruence.
  - rewrite <- Hid, E. reflexivity.
Qed.

Lemma replaced_in db l r :
  In r (replaced db l) -> r = l \/ (In r db /\ id r <> id l).
Proof.
  unfold replaced. intros H. apply in_map_iff in H as (x & Hx & Hin).
  destruct (id x =? id l)%Z eqn:E; subst r; [now left|].
  right. split; [exact Hin|]. now apply Z.eqb_neq.
Qed.

Lemma row_none db k :
  (forall r, In r db -> key r <> k) -> row db k = None.
Proof.
  intros H. unfold row. induction db as [|a r IH]; [reflexivity|].
  cbn [find]. rewrite (Checksum.str_eqb_neq (key a) k) by (apply H; now left).
  apply IH. intros x Hx. apply H. now right.
Qed.

End Facts.
End ViewFacts.

Import Framing Properties AdvancedLicenseKeyGenerator Models Views Rules.
Import Codec Usage Policy MintFacts PolicyFacts LicenseOps ViewFacts.

(** X23. After a successful [deactivate] the stored licence is inactive,
    the table keeps its unique indexes, and the usage endpoint refuses
    every request that its serializer accepts for that licence's key with
    "License is inactive", leaving the table as it is. *)
Theorem X23_deactivated_licence_is_refused :
  forall (prims : Primitives) (int_of_param : str -> option Z) (now : Z)
         (db db' : table) (params : ViewSets.query_params) (pk : Z)
         (l' : License),
    consistent db ->
    ViewSets.deactivate int_of_param now db params pk
    = (ViewSets.Ok200 l', db') ->
    is_active l' = false /\ id l' = pk /\ consistent db' /\ In l' db'
    /\ forall now' rq data,
         validated_fields rq = Some data ->
         license_key data = key l' ->
         post now' db' rq = (Forbidden403 Inactive, db').
Proof.
  intros prims int_of_param now db db' params pk l' Hc Hd.
  unfold ViewSets.deactivate in Hd.
  destruct (ViewSets.get_object int_of_param now db params pk) as [r|l] eqn:Eg.
  { injection Hd as -> _.
    now destruct (get_object_error _ _ _ _ _ _ Eg l'). }
  apply get_object_inv in Eg as [Hin Hid].
  apply respond_ok in Hd.
  destruct (save_inv _ _ _ _ _ Hd) as (Hl & _ & Hdb & _).
  destruct (db_save_consistent _ _ _ Hc Hdb) as (Hc' & Hin' & _).
  assert (Ha : is_active l' = false) by (rewrite Hl; reflexivity).
  split; [exact Ha|]. split; [rewrite Hl; exact Hid|].
  split; [exact Hc'|]. split; [exact Hin'|].
  intros now' rq data Hv Hk.
  assert (Hr : row db' (license_key data) = Some l')
    by (rewrite Hk; now apply row_in).
  assert (Hi : forall ip hw, is_valid now' l' ip None hw = Inactive)
    by (intros ip hw; rewrite is_valid_unfold, Ha; reflexivity).
  rewrite (post_rejected now' db' rq data l' Hc' Hv Hr)
    by (rewrite Hi; discriminate).
  now rewrite Hi.
Qed.

Lemma X23_witness :
  let db := [Data.license_with None 2] in
  let p := {| ViewSets.q_client_id := None; ViewSets.q_is_active := None;
              ViewSets.q_expired := None |} in
  match @ViewSets.deactivate Sample.primitives (fun _ => None)
          1700000010000000 db p 1 with
  | (ViewSets.Ok200 l', db') =>
      is_active l' = false
      /\ @post Sample.primitives 1700000020000000 db'
           {| license_key := key l'; ip_address := None;
              req_hardware_fingerprint := None |}
         = (Forbidden403 Inactive, db')
  | _ => False
  end.
Proof.
  intros db p.
  destruct (@ViewSets.deactivate Sample.primitives (fun _ => None)
              1700000010000000 db p 1) as [[l'| | |e] db'] eqn:E;
    try (vm_compute in E; discriminate).
  destruct (X23_deactivated_licence_is_refused Sample.primitives
              (fun _ => None) 1700000010000000 db db' p 1 l'
              (sample_consistent _) E) as (H1 & _ & _ & _ & H2).
  split; [exact H1|].
  apply (H2 _ _ {| license_key := key l'; ip_address := None;
                   req_hardware_fingerprint := None |}); [|reflexivity].
  vm_compute in E. injection E as <- <-. vm_compute. reflexivity.
Defined.

(** X24. With no query parameters, [activate] undoes [deactivate]: for an
    active stored licence that has a key, deactivating and then activating
    it succeed and give back the licence and the table as they were. With
    the query parameter [is_active=true] the second step answers 404
    instead, because the deactivated licence is no longer in the
    queryset. *)
Theorem X24_activate_undoes_deactivate :
  forall (prims : Primitives) (int_of_param : str -> option Z)
         (now now' : Z) (db : table) (l : License) (a : str),
    consistent db -> In l db -> is_active l = true -> key l <> [] ->
    ViewSets.is_true_param a = true ->
    let none := {| ViewSets.q_client_id := None;
                   ViewSets.q_is_active := None;
                   ViewSets.q_expired := None |} in
    let only_active := {| ViewSets.q_client_id := None;
                          ViewSets.q_is_active := Some a;
                          ViewSets.q_expired := None |} in
    exists l1 db1,
      ViewSets.deactivate int_of_param now db none (id l)
      = (ViewSets.Ok200 l1, db1)
      /\ is_active l1 = false
      /\ ViewSets.activate int_of_param now' db1 none (id l)
         = (ViewSets.Ok200 l, db)
      /\ ViewSets.activate int_of_param now' db1 only_active (id l)
         = (ViewSets.NotFound404, db1).
Proof.
  intros prims int_of_param now now' db l a Hc Hin Ha Hk Ht none only_active.
  set (l1 := with_is_active l false).
  assert (Hs1 : save now db l1 = inr (l1, replaced db l1))
    by now apply (save_existing now db l l1).
  assert (Hc1 : consistent (replaced db l1))
    by now apply (replaced_consistent db l l1).
  assert (Hin1 : In l1 (replaced db l1))
    by now apply (replaced_fields db l l1).
  exists l1, (replaced db l1).
  split; [|split; [reflexivity|split]].
  - unfold ViewSets.deactivate, ViewSets.get_object, ViewSets.get_queryset.
    cbn [ViewSets.q_client_id ViewSets.q_is_active ViewSets.q_expired none].
    rewrite (objects_get_id db l Hc Hin). fold l1. now rewrite Hs1.
  - unfold ViewSets.activate, ViewSets.get_object, ViewSets.get_queryset.
    cbn [ViewSets.q_client_id ViewSets.q_is_active ViewSets.q_expired none].
    change (id l) with (id l1) at 1.
    rewrite (objects_get_id (replaced db l1) l1 Hc1 Hin1).
    assert (E : with_is_active l1 true = l).
    { destruct l. cbn in Ha. subst. reflexivity. }
    rewrite E.
    rewrite (save_existing now' (replaced db l1) l1 l Hc1 Hin1 eq_refl eq_refl)
      by exact Hk.
    cbn [ViewSets.respond]. f_equal.
    destruct Hc as [_ Hi]. now apply replaced_twice.
  - unfold ViewSets.activate, ViewSets.get_object, ViewSets.get_queryset.
    cbn [ViewSets.q_client_id ViewSets.q_is_active ViewSets.q_expired
         only_active].
    rewrite Ht.
    assert (E : filter (fun r => (id r =? id l)%Z)
                  (filter (fun r => Bool.eqb (is_active r) true)
                     (replaced db l1)) = []).
    { destruct (filter _ (filter _ _)) as [|x r] eqn:Ef; [reflexivity|].
      assert (Hx : In x (filter (fun r => (id r =? id l)%Z)
                  (filter (fun r => Bool.eqb (is_active r) true)
                     (replaced db l1)))) by (rewrite Ef; now left).
      apply filter_In in Hx as [Hx Hid]. apply filter_In in Hx as [Hx Hact].
      apply Z.eqb_eq in Hid. apply replaced_in in Hx as [->|[_ Hne]].
      - discriminate.
      - contradiction. }
    unfold objects_get. now rewrite E.
Qed.

Lemma X24_witness :
  let l := Data.license_with None 2 in
  let none := {| ViewSets.q_client_id := None;
                 ViewSets.q_is_active := None;
                 ViewSets.q_expired := None |} in
  exists l1 db1,
    @ViewSets.deactivate Sample.primitives (fun _ => None) 1700000010000000
      [l] none 1 = (ViewSets.Ok200 l1, db1)
    /\ is_active l1 = false
    /\ @ViewSets.activate Sample.primitives (fun _ => None) 1700000020000000
         db1 none 1 = (ViewSets.Ok200 l, [l]).
Proof.
  intros l none.
  destruct (X24_activate_undoes_deactivate Sample.primitives (fun _ => None)
              1700000010000000 1700000020000000 [l] l (lit "true")
              (sample_consistent _) (or_introl eq_refl) eq_refl
              ltac:(vm_compute; discriminate) eq_refl)
    as (l1 & db1 & H1 & H2 & H3 & _).
  exists l1, db1. split; [exact H1|]. split; [exact H2|exact H3].
Defined.

Section ExtraRegenerate.
Context {prims : Primitives}.
Hypothesis sha256_length : forall x, length (sha256 x) = 32.
Hypothesis hmac_length : forall k m, length (hmac_sha256 k m) = 32.
Hypothesis zlib_round_trip :
  forall x, zlib_decompress (zlib_compress x) = Some x.

(** X25. Regenerating the key of a stored licence whose features are a
    dictionary changes the key only: primary key, client, counters and
    all other fields stay. The table keeps its unique indexes and finds
    the licence under its new key; if the key has changed, the old key is
    no longer stored. When [datetime.fromtimestamp] accepts the second of
    the regeneration and the second of the licence's expiry, the new key
    decodes, at any time, to metadata issued at the second of the
    regeneration and carrying the licence's client id. *)
Theorem X25_regenerated_key :
  forall (now now' : Z) (db db' : table) (l l' : License),
    consistent db -> In l db ->
    Json.wf (Json.Obj (features l)) = true ->
    ViewSets.regenerate_key now db (id l) = (ViewSets.Ok200 l', db') ->
    l' = with_key l (key l')
    /\ consistent db' /\ row db' (key l') = Some l'
    /\ (key l' <> key l -> row db' (key l) = None)
    /\ (datable (int_seconds now) (expires_at l) ->
        exists md,
          validate_license_key (int_seconds now') (key l') = inr md
          /\ Json.get (fields md) (lit "issued")
             = Some (Json.Int (int_seconds now))
          /\ client_differs md (client_id (client l')) = false).
Proof.
  intros now now' db db' l l' Hc Hin Hwf Hr.
  unfold ViewSets.regenerate_key in Hr.
  rewrite (objects_get_id db l Hc Hin) in Hr.
  destruct (generate_advanced_license_key _ _ _ _ _ _ _) as [k|] eqn:Eg;
    [|discriminate].
  apply respond_ok in Hr.
  assert (Hkne : k <> []).
  { destruct (generate_payload _ _ _ _ _ _ _ _ Eg) as (p & _ & ->).
    apply format_key_nonempty. }
  destruct (save_inv _ _ _ _ _ Hr) as (_ & _ & Hdb & Hsame).
  cbn [key with_key] in Hsame. specialize (Hsame Hkne). subst l'.
  cbn [key with_key].
  destruct (db_save_consistent _ _ _ Hc Hdb) as (Hc' & Hin' & _ & _).
  split; [reflexivity|]. split; [exact Hc'|].
  split; [now apply (row_in db' (with_key l k))|]. split.
  - intros Hne. apply row_none. intros r Hrin.
    assert (Hex : existsb (fun r => (id r =? id (with_key l k))%Z) db = true).
    { apply existsb_exists. exists l. split; [exact Hin|apply Z.eqb_refl]. }
    unfold db_save in Hdb.
    destruct (existsb (fun r => negb (id r =? id (with_key l k))%Z
                                && str_eqb (key r) (key (with_key l k))) db);
      [discriminate|].
    rewrite Hex in Hdb. injection Hdb as <-.
    apply (replaced_in db (with_key l k)) in Hrin as [->|[Hrin Hid]];
      [exact Hne|].
    intros Hkey. apply Hid. cbn [id with_key]. f_equal.
    destruct Hc as [Hk _]. now apply (NoDup_map_eq key db r l).
  - intros Hdt.
    destruct (mint_decodes sha256_length hmac_length zlib_round_trip
                (int_seconds now') _ _ _ _ _ _ _ _ Eg Hwf Hdt)
      as (md & Hv & Hf & _).
    exists md. split; [exact Hv|]. split.
    + rewrite Hf. reflexivity.
    + cbn [client with_key]. now apply (client_matches md _ _ _ _ _ _ Hf).
Qed.

End ExtraRegenerate.

Lemma X25_witness :
  let l := Data.license_with None 2 in
  match @ViewSets.regenerate_key Sample.primitives 1700000050000000 [l] 1 with
  | (ViewSets.Ok200 l', db') =>
      l' = with_key l (key l') /\ consistent db'
      /\ row db' (key l') = Some l'
      /\ exists md,
           @validate_license_key Sample.primitives
             (int_seconds 1700000060000000) (key l') = inr md
           /\ Json.get (fields md) (lit "issued")
              = Some (Json.Int (int_seconds 1700000050000000))
  | _ => False
  end.
Proof.
  intros l.
  destruct (@ViewSets.regenerate_key Sample.primitives 1700000050000000 [l] 1)
    as [[l'| | |e] db'] eqn:E;
    try (vm_compute in E; discriminate).
  destruct (@X25_regenerated_key Sample.primitives sample_sha256_length
              sample_hmac_length sample_zlib_round_trip 1700000050000000
              1700000060000000 [l] db' l l' (sample_consistent _)
              (or_introl eq_refl) eq_refl E) as (H1 & H2 & H3 & _ & H4).
  split; [exact H1|]. split; [exact H2|]. split; [exact H3|].
  destruct H4 as (md & Hv & Hi & _).
  - vm_compute. split; [discriminate|exact I].
  - exists md. split; [exact Hv|exact Hi].
Defined.

Module BulkFacts.
Import Framing Properties AdvancedLicenseKeyGenerator Models Views Rules
  Codec Usage Policy MintFacts PolicyFacts LicenseOps.

Section Facts.
Context {prims : Primitives}.

(** The clock reading is read back from the first five bytes. *)
Lemma final_payload_header t cid name email exp mu feats p :
  final_payload t cid name email exp mu feats = Some p ->
  Struct.unpack_BI (firstn 5 p) = Some (VERSION, t).
Proof.
  unfold final_payload.
  destruct (Struct.pack_BI VERSION t) as [h|] eqn:Eh; [|discriminate].
  destruct (unpack_pack_BI _ _ _ Eh) as [Hu Hl].
  intros [= <-]. rewrite <- !app_assoc, <- Hl, firstn_app_exact. exact Hu.
Qed.

Lemma generate_timestamp t1 t2 c1 c2 n1 n2 m1 m2 e1 e2 s1 s2 f1 f2 k :
  generate_advanced_license_key t1 c1 n1 m1 e1 s1 f1 = Some k ->
  generate_advanced_license_key t2 c2 n2 m2 e2 s2 f2 = Some k ->
  t1 = t2.
Proof.
  intros G1 G2.
  destruct (generate_payload _ _ _ _ _ _ _ _ G1) as (p1 & P1 & ->).
  destruct (generate_payload _ _ _ _ _ _ _ _ G2) as (p2 & P2 & E).
  apply format_key_inj in E. subst p2.
  apply final_payload_header in P1, P2. congruence.
Qed.

Lemma db_save_fresh db l :
  (forall r, In r db -> id r <> id l /\ key r <> key l) ->
  db_save db l = inr (db ++ [l]).
Proof.
  intros H. unfold db_save.
  replace (existsb (fun r => negb (id r =? id l)%Z
                             && str_eqb (key r) (key l)) db) with false.
  - replace (existsb (fun r => (id r =? id l)%Z) db) with false;
      [reflexivity|].
    symmetry. apply not_true_is_false. intros E.
    apply existsb_exists in E as (r & Hr & E). apply Z.eqb_eq in E.
    destruct (H r Hr) as [H1 _]. contradiction.
  - symmetry. apply not_true_is_false. intros E.
    apply existsb_exists in E as (r & Hr & E).
    apply andb_true_iff in E as [_ E]. apply str_eqb_eq in E.
    destruct (H r Hr) as [_ H2]. contradiction.
Qed.

Lemma db_save_insert db l db' :
  (forall r, In r db -> id r <> id l) ->
  db_save db l = inr db' -> db' = db ++ [l].
Proof.
  intros H. unfold db_save.
  destruct (existsb (fun r => negb (id r =? id l)%Z
                              && str_eqb (key r) (key l)) db);
    [discriminate|].
  replace (existsb (fun r => (id r =? id l)%Z) db) with false;
    [now intros [= <-]|].
  symmetry. apply not_true_is_false. intros E.
  apply existsb_exists in E as (r & Hr & E). apply Z.eqb_eq in E.
  now apply (H r Hr).
Qed.

Variables (clock uuid : nat -> Z) (c : Client) (e : option Z) (s : Z)
  (f : Json.dict).
Hypothesis uuid_fresh : fresh uuid.

(** What a run of the loop that succeeds has done. *)
Lemma bulk_loop_inv n : forall i db ls ls2 db',
  consistent db ->
  (forall r j, In r db -> i <= j -> id r <> uuid j) ->
  bulk_loop clock uuid c e s f n i db ls = inr (ls2, db') ->
  exists new,
    ls2 = ls ++ new /\ db' = db ++ new /\ length new = n
    /\ consistent db'
    /\ Forall (fun l => client l = c /\ expires_at l = e
                        /\ max_users l = s /\ features l = f
                        /\ usage_count l = 0%Z /\ is_active l = true
                        /\ key l <> []) new.
Proof.
  induction n as [|n IH]; intros i db ls ls2 db' Hc Hid; cbn [bulk_loop].
  - intros [= <- <-]. exists []. rewrite !app_nil_r.
    split; [reflexivity|]. split; [reflexivity|]. split; [reflexivity|].
    split; [exact Hc|constructor].
  - destruct (save (clock i) db (new_license (uuid i) c e s f))
      as [err|[l db1]] eqn:Es; [discriminate|].
    intros Hb.
    destruct (save_inv _ _ _ _ _ Es) as (Hl & Hk & Hdb & _).
    assert (Hidl : id l = uuid i) by (rewrite Hl; reflexivity).
    assert (Hdb1 : db1 = db ++ [l]).
    { apply db_save_insert; [|exact Hdb].
      intros r Hr. rewrite Hidl. now apply (Hid r i). }
    destruct (db_save_consistent _ _ _ Hc Hdb) as (Hc1 & _).
    destruct (IH (S i) db1 (ls ++ [l]) ls2 db' Hc1) as (new & H1 & H2 & H3 & H4 & H5);
      [|exact Hb|].
    + intros r j Hr Hj. rewrite Hdb1 in Hr.
      apply in_app_or in Hr as [Hr|[<-|[]]]; [apply Hid; [exact Hr|lia]|].
      rewrite Hidl. intros E. apply uuid_fresh in E. lia.
    + subst ls2 db' db1. rewrite <- app_assoc in H4.
      exists (l :: new). rewrite <- !app_assoc.
      split; [reflexivity|]. split; [reflexivity|].
      split; [cbn [length]; now rewrite H3|].
      split; [exact H4|].
      constructor; [|exact H5]. rewrite Hl.
      cbn [client expires_at max_users features usage_count is_active key
           with_key new_license].
      repeat split; try reflexivity. exact Hk.
Qed.

Variable rounds : nat.
Hypothesis clock_range :
  forall j, j < rounds -> (0 <= int_seconds (clock j) < 4294967296)%Z.
Hypothesis clock_seconds :
  forall j j', j < rounds -> j' < rounds ->
               int_seconds (clock j) = int_seconds (clock j') -> j = j'.

(** With a new second in every round, every round succeeds. *)
Lemma bulk_loop_total n : forall i db ls,
  i + n <= rounds ->
  consistent db ->
  (forall r j, In r db -> i <= j -> id r <> uuid j) ->
  (forall r j k, In r db -> i <= j < rounds ->
     generate_advanced_license_key (int_seconds (clock j)) (client_id c)
       (client_name c) (first_truthy (client_email c) (client_email c))
       e s f = Some k -> key r <> k) ->
  exists ls2 db', bulk_loop clock uuid c e s f n i db ls = inr (ls2, db').
Proof.
  induction n as [|n IH]; intros i db ls Hn Hc Hid Hkey; cbn [bulk_loop].
  - now exists ls, db.
  - destruct (generate_advanced_license_key (int_seconds (clock i))
                (client_id c) (client_name c)
                (first_truthy (client_email c) (client_email c)) e s f)
      as [k|] eqn:Eg.
    2:{ exfalso. unfold generate_advanced_license_key in Eg.
        destruct (final_payload _ _ _ _ _ _ _) eqn:Ep; [discriminate|].
        apply final_payload_range in Ep. apply Ep.
        apply clock_range. lia. }
    set (l := with_key (new_license (uuid i) c e s f) k).
    assert (Hdb : db_save db l = inr (db ++ [l])).
    { apply db_save_fresh. intros r Hr. split.
      - apply (Hid r i Hr). lia.
      - apply (Hkey r i k Hr); [lia|exact Eg]. }
    assert (Es : save (clock i) db (new_license (uuid i) c e s f)
                 = inr (l, db ++ [l])).
    { unfold save. cbn [key new_license client email expires_at max_users
                        features].
      rewrite Eg. fold l. now rewrite Hdb. }
    rewrite Es.
    destruct (db_save_consistent _ _ _ Hc Hdb) as (Hc1 & _).
    apply IH.
    + lia.
    + exact Hc1.
    + intros r j Hr Hj. apply in_app_or in Hr as [Hr|[<-|[]]];
        [apply Hid; [exact Hr|lia]|].
      cbn [id l with_key new_license]. intros E. apply uuid_fresh in E. lia.
    + intros r j k' Hr Hj Hg. apply in_app_or in Hr as [Hr|[<-|[]]];
        [apply (Hkey r j k' Hr); [lia|exact Hg]|].
      cbn [key l with_key]. intros <-.
      pose proof (generate_timestamp _ _ _ _ _ _ _ _ _ _ _ _ _ _ _ Eg Hg) as Et.
      apply clock_seconds in Et; lia.
Qed.

End Facts.
End BulkFacts.

Import BulkFacts.

(** X26. [bulk_generate_licenses] succeeds when every round falls into a
    second of its own: if the clock readings of the [count] rounds are
    pairwise different seconds that fit four bytes, the primary keys drawn
    are new, and no stored key is one of the keys to be minted, then the
    call returns [count] licences of the client with pairwise distinct
    keys and appends exactly these to the table, which keeps its unique
    indexes. *)
Theorem X26_bulk_succeeds_in_distinct_seconds :
  forall (prims : Primitives) (clock uuid : nat -> Z) (db : table)
         (c : Client) (count : Z) (expires : option Z) (seats : Z)
         (feats : Json.dict),
    fresh uuid ->
    (forall j, j < Z.to_nat count ->
               (0 <= int_seconds (clock j) < 4294967296)%Z) ->
    (forall j j', j < Z.to_nat count -> j' < Z.to_nat count ->
                  int_seconds (clock j) = int_seconds (clock j') -> j = j') ->
    consistent db ->
    (forall r j, In r db -> id r <> uuid j) ->
    (forall r j k, In r db -> j < Z.to_nat count ->
       generate_advanced_license_key (int_seconds (clock j)) (client_id c)
         (client_name c) (first_truthy (client_email c) (client_email c))
         expires seats feats = Some k -> key r <> k) ->
    exists ls,
      bulk_generate_licenses clock uuid db c count expires seats feats
      = inr (ls, db ++ ls)
      /\ length ls = Z.to_nat count
      /\ NoDup (map key ls)
      /\ consistent (db ++ ls)
      /\ Forall (fun l => client l = c /\ max_users l = seats) ls.
Proof.
  intros prims clock uuid db c count expires seats feats
         Hf Hrange Hinj Hc Hid Hkey.
  unfold bulk_generate_licenses.
  destruct (bulk_loop_total clock uuid c expires seats feats Hf
              (Z.to_nat count) Hrange Hinj (Z.to_nat count) 0 db [])
    as (ls2 & db' & Hb).
  - lia.
  - exact Hc.
  - intros r j Hr _. now apply Hid.
  - intros r j k Hr Hj. apply Hkey; [exact Hr|lia].
  - destruct (bulk_loop_inv clock uuid c expires seats feats Hf
                (Z.to_nat count) 0 db [] ls2 db' Hc) as (new & H1 & H2 & H3 & H4 & H5).
    + intros r j Hr _. now apply Hid.
    + exact Hb.
    + cbn [app] in H1. subst ls2 db'. exists new.
      split; [exact Hb|]. split; [exact H3|].
      split.
      * destruct H4 as [H4 _]. rewrite map_app in H4.
        now apply NoDup_app_remove_l in H4.
      * split; [exact H4|].
        eapply Forall_impl; [|exact H5]. intros l H. split; apply H.
Qed.

Lemma X26_witness :
  exists ls,
    @bulk_generate_licenses Sample.primitives
      (fun i => ((1700000000 + Z.of_nat i) * 1000000)%Z) Z.of_nat []
      Data.acme 3 None 1 [] = inr (ls, [] ++ ls)
    /\ length ls = Z.to_nat 3
    /\ NoDup (map key ls)
    /\ consistent ([] ++ ls)
    /\ Forall (fun l => client l = Data.acme /\ max_users l = 1%Z) ls.
Proof.
  apply (X26_bulk_succeeds_in_distinct_seconds Sample.primitives
           (fun i => ((1700000000 + Z.of_nat i) * 1000000)%Z) Z.of_nat []
           Data.acme 3 None 1 []).
  - intros i j. apply Nat2Z.inj.
  - intros j Hj. change (Z.to_nat 3) with 3 in Hj.
    rewrite Seconds.int_seconds_whole by lia. lia.
  - intros j j' Hj Hj'. change (Z.to_nat 3) with 3 in Hj, Hj'.
    rewrite !Seconds.int_seconds_whole by lia. lia.
  - split; constructor.
  - intros r j [].
  - intros r j k [].
Defined.

(** X27. When the bulk-creation endpoint answers 201, the request asked
    for between 1 and 100 licences of an existing client with at least one
    seat each, [created_count] is that number, and, the primary keys drawn
    being new, exactly that many licences of that client, with that seat
    count and pairwise distinct keys, were appended to the table. *)
Theorem X27_bulk_created :
  forall (prims : Primitives) (clock uuid : nat -> Z)
         (clients : list Client) (db db' : table)
         (rq : BulkCreate.bulk_request) (n : nat) (ls : list License),
    consistent db -> fresh uuid ->
    (forall r j, In r db -> id r <> uuid j) ->
    BulkCreate.post clock uuid clients db rq
    = (BulkCreate.Created201 n ls, db') ->
    (1 <= BulkCreate.b_count rq <= 100)%Z
    /\ (1 <= BulkCreate.b_max_users rq)%Z
    /\ Z.of_nat n = BulkCreate.b_count rq /\ length ls = n
    /\ db' = db ++ ls /\ consistent db' /\ NoDup (map key ls)
    /\ exists c,
         In c clients /\ client_id c = BulkCreate.b_client_id rq
         /\ Forall (fun l => client l = c
                             /\ max_users l = BulkCreate.b_max_users rq
                             /\ expires_at l = BulkCreate.b_expires_at rq
                             /\ usage_count l = 0%Z) ls.
Proof.
  intros prims clock uuid clients db db' rq n ls Hc Hf Hid.
  unfold BulkCreate.post, BulkCreate.is_valid_request.
  destruct ((1 <=? BulkCreate.b_count rq)%Z) eqn:E1; [|discriminate].
  destruct ((BulkCreate.b_count rq <=? 100)%Z) eqn:E2; [|discriminate].
  destruct ((1 <=? BulkCreate.b_max_users rq)%Z) eqn:E3; [|discriminate].
  cbn [andb]. bounds.
  destruct (LicenseManager.get_client clients (BulkCreate.b_client_id rq))
    as [c|] eqn:Ec; [|discriminate].
  unfold bulk_generate_licenses.
  destruct (bulk_loop _ _ _ _ _ _ _ _ _ _) as [[e d]|[ls2 db2]] eqn:Eb;
    [discriminate|].
  intros [= <- <- <-].
  destruct (bulk_loop_inv clock uuid c (BulkCreate.b_expires_at rq)
              (BulkCreate.b_max_users rq) (BulkCreate.b_features rq) Hf
              (Z.to_nat (BulkCreate.b_count rq)) 0 db [] ls2 db2 Hc)
    as (new & H1 & H2 & H3 & H4 & H5);
    [intros r j Hr _; now apply Hid|exact Eb|].
  cbn [app] in H1. subst ls2 db2.
  split; [lia|]. split; [exact E3|]. split; [rewrite H3; lia|].
  split; [reflexivity|]. split; [reflexivity|]. split; [exact H4|].
  split.
  - destruct H4 as [H4 _]. rewrite map_app in H4.
    now apply NoDup_app_remove_l in H4.
  - unfold LicenseManager.get_client in Ec. apply find_some in Ec as [Hin Hcid].
    apply Z.eqb_eq in Hcid. exists c. split; [exact Hin|]. split; [exact Hcid|].
    eapply Forall_impl; [|exact H5]. intros l H. repeat split; apply H.
Qed.

Lemma X27_witness :
  let rq := {| BulkCreate.b_client_id := 7; BulkCreate.b_count := 1;
               BulkCreate.b_expires_at := None; BulkCreate.b_max_users := 1;
               BulkCreate.b_features := [] |} in
  match @BulkCreate.post Sample.primitives (fun _ => 1700000000000000%Z)
          Z.of_nat [Data.acme] [] rq with
  | (BulkCreate.Created201 n ls, db') =>
      Z.of_nat n = 1%Z /\ length ls = n /\ db' = [] ++ ls
  | _ => False
  end.
Proof.
  intros rq.
  destruct (@BulkCreate.post Sample.primitives (fun _ => 1700000000000000%Z)
              Z.of_nat [Data.acme] [] rq) as [[n ls| |e] db'] eqn:E;
    try (vm_compute in E; discriminate).
  destruct (X27_bulk_created Sample.primitives (fun _ => 1700000000000000%Z)
              Z.of_nat [Data.acme] [] db' rq n ls)
    as (_ & _ & H1 & H2 & H3 & _).
  - split; constructor.
  - intros i j. apply Nat2Z.inj.
  - intros r j [].
  - exact E.
  - split; [exact H1|]. split; [exact H2|exact H3].
Defined.

(** X28. The [add_domain_restriction] action of the licence view set: a
    request without a domain, or with an empty one, is never answered 200
    and leaves the table as it is. When the action answers 200, the
    licence it returns is the stored one with the primary key asked for,
    the domain is on its list, and the table keeps its unique indexes;
    from then on [is_valid] never refuses a domain that ends with the one
    added as "Domain not authorized", while the domain rule refuses every
    domain that ends with no entry of the list. *)
Theorem X28_domain_restriction_action :
  forall (prims : Primitives) (int_of_param : str -> option Z) (now : Z)
         (db db' : table) (params : ViewSets.query_params) (pk : Z)
         (domain : option str) (r : ViewSets.action_response),
    consistent db ->
    ViewSets.add_domain_restriction int_of_param now db params pk domain
    = (r, db') ->
    (domain = None \/ domain = Some [] ->
     db' = db /\ forall l', r <> ViewSets.Ok200 l')
    /\ forall l',
         r = ViewSets.Ok200 l' ->
         exists d,
           domain = Some d /\ d <> [] /\ id l' = pk
           /\ In l' db' /\ consistent db'
           /\ In d (domain_restrictions l')
           /\ (forall now' ip hw p,
                 is_valid now' l' ip (Some (p ++ d)) hw
                 <> DomainNotAuthorized)
           /\ (forall x, x <> [] ->
                 (forall e, In e (domain_restrictions l') ->
                            endswith x e = false) ->
                 domain_refused (Some x) l' = true).
Proof.
  intros prims int_of_param now db db' params pk domain r Hc Ha.
  unfold ViewSets.add_domain_restriction in Ha.
  destruct (ViewSets.get_object int_of_param now db params pk)
    as [e|l] eqn:Eg.
  { injection Ha as <- <-. split.
    - intros _. split; [reflexivity|].
      exact (get_object_error _ _ _ _ _ _ Eg).
    - intros l' H. now destruct (get_object_error _ _ _ _ _ _ Eg l'). }
  apply get_object_inv in Eg as [Hin Hid].
  destruct domain as [[|c s]|].
  - injection Ha as <- <-. split.
    + intros _. split; [reflexivity|discriminate].
    + discriminate.
  - split; [intros [H|H]; discriminate|].
    intros l' ->. apply respond_ok in Ha.
    exists (c :: s). split; [reflexivity|]. split; [discriminate|].
    assert (H : id l' = pk /\ In l' db' /\ consistent db'
                /\ In (c :: s) (domain_restrictions l')).
    { unfold LicenseOps.add_domain_restriction in Ha.
      destruct (existsb (str_eqb (c :: s)) (domain_restrictions l)) eqn:E;
        cbn [negb] in Ha.
      - injection Ha as <- <-. apply existsb_str_eqb in E.
        split; [exact Hid|]. split; [exact Hin|]. split; [exact Hc|exact E].
      - destruct (save_inv _ _ _ _ _ Ha) as (Hl & _ & Hdb & _).
        destruct (db_save_consistent _ _ _ Hc Hdb) as (Hc' & Hin' & _).
        split; [rewrite Hl; exact Hid|]. split; [exact Hin'|].
        split; [exact Hc'|]. rewrite Hl.
        cbn [domain_restrictions with_key with_domain_restrictions].
        apply in_or_app. right. now left. }
    destruct H as (H1 & H2 & H3 & H4).
    split; [exact H1|]. split; [exact H2|]. split; [exact H3|].
    split; [exact H4|]. split.
    + intros now' ip hw p Hv.
      apply (is_valid_refusal now' l' ip (Some (p ++ c :: s)) hw) in Hv.
      unfold domain_refused in Hv.
      destruct (p ++ c :: s) as [|y t] eqn:Ep; [discriminate|].
      destruct (domain_restrictions l') as [|z u] eqn:El; [discriminate|].
      destruct (existsb (endswith (y :: t)) (z :: u)) eqn:Ex;
        [discriminate|].
      pose proof (existsb_false _ _ Ex (c :: s) H4) as Hf.
      now rewrite <- Ep, endswith_app in Hf.
    + intros x Hx Hno. unfold domain_refused.
      destruct x as [|y t]; [contradiction|].
      destruct (domain_restrictions l') as [|z u] eqn:El; [destruct H4|].
      destruct (existsb (endswith (y :: t)) (z :: u)) eqn:Ex; [|reflexivity].
      apply existsb_exists in Ex as (e & He & Hend).
      rewrite (Hno e He) in Hend. discriminate.
  - injection Ha as <- <-. split.
    + intros _. split; [reflexivity|discriminate].
    + discriminate.
Qed.

Lemma X28_witness :
  let db := [Data.license_with None 2] in
  let p := {| ViewSets.q_client_id := None; ViewSets.q_is_active := None;
              ViewSets.q_expired := None |} in
  match @ViewSets.add_domain_restriction Sample.primitives (fun _ => None)
          1700000010000000 db p 1 (Some (lit "example.com")) with
  | (ViewSets.Ok200 l', db') =>
      In l' db'
      /\ @is_valid Sample.primitives 1700000020000000 l' None
           (Some (lit "notexample.com")) None <> DomainNotAuthorized
      /\ domain_refused (Some (lit "example.org")) l' = true
  | _ => False
  end.
Proof.
  intros db p.
  destruct (@ViewSets.add_domain_restriction Sample.primitives (fun _ => None)
              1700000010000000 db p 1 (Some (lit "example.com")))
    as [[l'| | |e] db'] eqn:E;
    try (vm_compute in E; discriminate).
  destruct (X28_domain_restriction_action Sample.primitives
              (fun _ => None) 1700000010000000 db db' p 1
              (Some (lit "example.com")) (ViewSets.Ok200 l')
              (sample_consistent _) E) as (_ & H).
  destruct (H l' eq_refl) as (d & Hd & _ & _ & H1 & _ & _ & H2 & H3).
  injection Hd as <-.
  split; [exact H1|]. split; [exact (H2 _ None None (lit "not"))|].
  apply H3; [discriminate|].
  intros e He. vm_compute in E. injection E as <- <-.
  destruct He as [<-|[]]. reflexivity.
Defined.




Section ExtraLongKey.
Context {prims : Primitives}.
Hypothesis char_field_max_length :
  forall n v v', char_field n v = Some v' -> length v' <= n.


End ExtraLongKey.


